(** * DocassembleIndex: corpus index, scored search and citations

    A shallow embedding of [indexer.ts] (class [DocassembleIndex]) together
    with the JavaScript primitives it relies on, and the properties of the
    index, the query engine and the citation factory.

    Modelling conventions.
    - A JavaScript string is a Rocq [string]; a character stands for one
      UTF-16 code unit in the range 0..255.  [toLowerCase], [\s], [\w] and
      [.] are written out for that range.
    - A JavaScript number holding a line number or a count is a [Z] or a
      [nat]; a score is an exact rational [Q] (the integer boosts are exact
      in binary64 as well; the coverage bonus [m / n * 10] is kept exact).
    - [Map] objects whose iteration order is observed are association lists
      in insertion order; maps and sets that are only probed are stdpp's
      [gmap] and [gset].
    - A call that can throw returns an [outcome]. *)

From Stdlib Require Import ZArith QArith Ascii String List Bool Lia Sorted.
From Stdlib Require Import DecimalString DecimalZ DecimalPos Lqa.
From stdpp Require Import base tactics option list strings gmap sorting.

Open Scope string_scope.

Set Warnings "-register-all,-clear-no-such-hyp".

(** ** Outcomes of calls that may throw *)

(** [Returns a]: normal completion.  [Throws]: a JavaScript exception
    propagates to the caller.  [Unmodelled]: the run needs a regular
    expression feature that the embedding of [RegExp] below leaves out, so
    the model does not say what the program does. *)
Inductive outcome (A : Type) : Type :=
  | Returns (a : A)
  | Throws
  | Unmodelled.
Arguments Returns {A} a.
Arguments Throws {A}.
Arguments Unmodelled {A}.

#[global] Instance outcome_ret : MRet outcome := fun A a => Returns a.

#[global] Instance outcome_bind : MBind outcome := fun A B k m =>
  match m with
  | Returns a => k a
  | Throws => Throws
  | Unmodelled => Unmodelled
  end.

(** Left-to-right loop whose body may throw ([for (const x of xs) ...]). *)
Fixpoint foldM {A S : Type} (body : S -> A -> outcome S) (xs : list A) (s : S)
  : outcome S :=
  match xs with
  | [] => Returns s
  | x :: xs' => s' ← body s x; foldM body xs' s'
  end.

(** ** JavaScript string and array primitives *)
Module JS.

Definition code (c : ascii) : N := N_of_ascii c.

Definition in_range (lo hi : N) (c : ascii) : bool :=
  ((lo <=? code c) && (code c <=? hi))%N.

(** [String.prototype.toLowerCase] on one code unit below 256: the ASCII
    capitals and the Latin-1 capitals U+00C0..U+00DE except U+00D7. *)
Definition toLowerCase_char (c : ascii) : ascii :=
  if in_range 65 90 c then ascii_of_N (code c + 32)
  else if in_range 192 222 c && negb (code c =? 215)%N then ascii_of_N (code c + 32)
  else c.

Fixpoint toLowerCase (s : string) : string :=
  match s with
  | EmptyString => EmptyString
  | String c s' => String (toLowerCase_char c) (toLowerCase s')
  end.

(** [s.startsWith(p)] *)
Definition startsWith (s p : string) : bool := String.prefix p s.

(** [s.includes(t)] *)
Fixpoint includes (s t : string) {struct s} : bool :=
  startsWith s t ||
  match s with
  | EmptyString => false
  | String _ s' => includes s' t
  end.

(** The white space of [\s] below 256: TAB, LF, VT, FF, CR, SP and NBSP. *)
Definition is_space (c : ascii) : bool :=
  in_range 9 13 c || (code c =? 32)%N || (code c =? 160)%N.

Definition cons_head (c : ascii) (pieces : list string) : list string :=
  match pieces with
  | [] => [String c EmptyString]
  | p :: ps => String c p :: ps
  end.

(** [s.split(sep)] for a one-character separator. *)
Fixpoint split_char (sep : ascii) (s : string) : list string :=
  match s with
  | EmptyString => [EmptyString]
  | String c s' =>
      if Ascii.eqb c sep then EmptyString :: split_char sep s'
      else cons_head c (split_char sep s')
  end.

(** [s.split(/\s+/)]: every maximal run of white space is one separator; a
    leading or trailing run leaves an empty piece at that end. *)
Fixpoint split_whitespace (s : string) : list string :=
  match s with
  | EmptyString => [EmptyString]
  | String c s' =>
      if is_space c then
        match s' with
        | String d _ =>
            if is_space d then split_whitespace s'
            else EmptyString :: split_whitespace s'
        | EmptyString => EmptyString :: split_whitespace s'
        end
      else cons_head c (split_whitespace s')
  end.

(** [pieces.join(sep)] *)
Definition join (sep : string) (pieces : list string) : string :=
  String.concat sep pieces.

(** [Array.prototype.slice(start, end)] on integers: a negative index
    counts from the end of the array, and both are clamped to the array. *)
Definition slice {A : Type} (l : list A) (start end_ : Z) : list A :=
  let len := Z.of_nat (length l) in
  let from := if (start <? 0)%Z then Z.max (len + start) 0 else Z.min start len in
  let to := if (end_ <? 0)%Z then Z.max (len + end_) 0 else Z.min end_ len in
  take (Z.to_nat (to - from)) (drop (Z.to_nat from) l).

(** [s.replace(/pat/g, rep)] for a pattern that is a fixed non-empty text:
    the occurrences are replaced from left to right, without overlap.
    [skip] counts the characters of an occurrence still to be dropped. *)
Fixpoint replace_go (pat rep : string) (skip : nat) (s : string) : string :=
  match s with
  | EmptyString => EmptyString
  | String c s' =>
      match skip with
      | S k => replace_go pat rep k s'
      | O =>
          if startsWith s pat
          then rep +:+ replace_go pat rep (String.length pat - 1) s'
          else String c (replace_go pat rep 0 s')
      end
  end.

Definition replaceAll (pat rep s : string) : string := replace_go pat rep 0 s.

(** Template-literal conversion of an integer: [`${n}`]. *)
Definition string_of_Z (n : Z) : string := NilZero.string_of_int (Z.to_int n).

End JS.

(** ** Regular expressions

    The fragment of ECMAScript [RegExp] (without the [u] flag, with the
    web-compatibility rules of Annex B) that the index builds at run time:
    pattern characters, [.], character classes, alternation, groups,
    quantifiers and the assertions [^], [$], [\b], [\B].  Back references,
    look-around, named groups and numeric or control-letter escapes are
    reported as [Outside].  Only [RegExp.prototype.test] is used by the
    index, so a pattern denotes the set of (start, end) positions it can
    match, and greedy and lazy quantifiers denote the same set. *)
Module RegExp.

Inductive class_escape : Type := Digit | Word | Space.

Inductive class_item : Type :=
  | CiChar (c : ascii)
  | CiRange (lo hi : ascii)
  | CiEscape (negated : bool) (e : class_escape).

Inductive regex : Type :=
  | Empty
  | Char (c : ascii)
  | Dot
  | Class (negated : bool) (items : list class_item)
  | Seq (r1 r2 : regex)
  | Alt (r1 r2 : regex)
  | Repeat (r : regex) (min : nat) (max : option nat)
  | InputStart
  | InputEnd
  | WordBoundary
  | NotWordBoundary.

(** Result of [new RegExp(pattern)]. *)
Inductive compiled : Type :=
  | Compiled (r : regex)
  | SyntaxError
  | Outside.

(** *** Parsing *)

(** What may follow a term: an [Atom] takes a quantifier, a [Quantified]
    term takes only the lazy mark [?], a [Lazy] term and an [Assertion] take
    nothing. *)
Inductive term_kind : Type := Atom | Quantified | Lazy | Assertion.

(** An open disjunction: the alternatives already closed and the terms of
    the alternative being read, both most recent first. *)
Record frame : Type := Frame {
  closed_alts : list regex;
  current : list (regex * term_kind);
}.

Definition empty_frame : frame := Frame [] [].

Definition push (r : regex) (k : term_kind) (f : frame) : frame :=
  Frame (closed_alts f) ((r, k) :: current f).

Definition close_alt (terms : list (regex * term_kind)) : regex :=
  fold_left (fun acc t => Seq (fst t) acc) terms Empty.

Definition next_alt (f : frame) : frame :=
  Frame (close_alt (current f) :: closed_alts f) [].

Definition close_frame (f : frame) : regex :=
  fold_left (fun acc a => Alt a acc) (closed_alts f) (close_alt (current f)).

Definition quantify (lo : nat) (hi : option nat) (f : frame) : option frame :=
  match current f with
  | (r, Atom) :: ts => Some (Frame (closed_alts f) ((Repeat r lo hi, Quantified) :: ts))
  | _ => None
  end.

Definition make_lazy (f : frame) : option frame :=
  match current f with
  | (r, Quantified) :: ts => Some (Frame (closed_alts f) ((r, Lazy) :: ts))
  | _ => None
  end.

Definition is_digit (c : ascii) : bool := JS.in_range 48 57 c.

Definition is_letter (c : ascii) : bool :=
  JS.in_range 65 90 c || JS.in_range 97 122 c.

Definition digit_value (c : ascii) : nat := N.to_nat (JS.code c - 48).

Definition number_of_digits (ds : list ascii) : nat :=
  fold_left (fun acc d => 10 * acc + digit_value d) ds 0.

Fixpoint span_digits (l : list ascii) : list ascii * list ascii :=
  match l with
  | c :: l' =>
      if is_digit c then let (ds, rest) := span_digits l' in (c :: ds, rest)
      else ([], l)
  | [] => ([], [])
  end.

(** The text after a [{]: [n}], [n,}] or [n,m}].  Gives the bounds and the
    number of characters read, the closing brace included. *)
Definition parse_braces (l : list ascii) : option (nat * option nat * nat) :=
  let (ds, l1) := span_digits l in
  match ds, l1 with
  | [], _ => None
  | _, "}"%char :: _ =>
      Some (number_of_digits ds, Some (number_of_digits ds), S (length ds))
  | _, ","%char :: l2 =>
      let (es, l3) := span_digits l2 in
      match es, l3 with
      | [], "}"%char :: _ => Some (number_of_digits ds, None, S (S (length ds)))
      | _, "}"%char :: _ =>
          Some (number_of_digits ds, Some (number_of_digits es),
                S (S (length ds + length es)))
      | _, _ => None
      end
  | _, _ => None
  end.

(** The control escapes [\t \n \v \f \r]. *)
Definition control_escape (e : ascii) : option ascii :=
  if Ascii.eqb e "t" then Some (ascii_of_N 9)
  else if Ascii.eqb e "n" then Some (ascii_of_N 10)
  else if Ascii.eqb e "v" then Some (ascii_of_N 11)
  else if Ascii.eqb e "f" then Some (ascii_of_N 12)
  else if Ascii.eqb e "r" then Some (ascii_of_N 13)
  else None.

Definition class_escape_of (e : ascii) : option (bool * class_escape) :=
  if Ascii.eqb e "d" then Some (false, Digit)
  else if Ascii.eqb e "D" then Some (true, Digit)
  else if Ascii.eqb e "w" then Some (false, Word)
  else if Ascii.eqb e "W" then Some (true, Word)
  else if Ascii.eqb e "s" then Some (false, Space)
  else if Ascii.eqb e "S" then Some (true, Space)
  else None.

(** Escapes that need more than this fragment: decimal escapes (back
    references, legacy octal), [\c], [\x], [\u] and [\k]. *)
Definition escape_outside (e : ascii) : bool :=
  is_digit e || Ascii.eqb e "c" || Ascii.eqb e "x" || Ascii.eqb e "u"
  || Ascii.eqb e "k".

(** The term written [\e] outside a character class. *)
Definition atom_escape (e : ascii) : option (regex * term_kind) :=
  if Ascii.eqb e "b" then Some (WordBoundary, Assertion)
  else if Ascii.eqb e "B" then Some (NotWordBoundary, Assertion)
  else match class_escape_of e with
  | Some (neg, ce) => Some (Class false [CiEscape neg ce], Atom)
  | None =>
    match control_escape e with
    | Some c => Some (Char c, Atom)
    | None => if escape_outside e then None else Some (Char e, Atom)
    end
  end.

(** One member of a character class, and how many characters spell it. *)
Inductive class_atom : Type :=
  | CaItem (i : class_item) (width : nat)
  | CaOutside
  | CaError.

Definition read_class_atom (l : list ascii) : class_atom :=
  match l with
  | [] => CaError
  | "\"%char :: [] => CaError
  | "\"%char :: e :: _ =>
      if Ascii.eqb e "b" then CaItem (CiChar (ascii_of_N 8)) 2
      else match class_escape_of e with
      | Some (neg, ce) => CaItem (CiEscape neg ce) 2
      | None =>
        match control_escape e with
        | Some c => CaItem (CiChar c) 2
        | None => if escape_outside e then CaOutside else CaItem (CiChar e) 2
        end
      end
  | c :: _ => CaItem (CiChar c) 1
  end.

Inductive class_result : Type :=
  | ClassOk (items : list class_item) (width : nat)
  | ClassOutside
  | ClassError.

(** The members of a class up to the closing bracket.  [skip] counts the
    characters already accounted for by the member read last, [width] the
    characters read so far. *)
Fixpoint parse_class_items (acc : list class_item) (skip width : nat)
    (l : list ascii) : class_result :=
  match l with
  | [] => ClassError
  | c :: rest =>
      match skip with
      | S k => parse_class_items acc k (S width) rest
      | O =>
          if Ascii.eqb c "]" then ClassOk (rev acc) (S width)
          else
            match read_class_atom l with
            | CaError => ClassError
            | CaOutside => ClassOutside
            | CaItem a n =>
                match drop n l with
                | "-"%char :: ((d :: _) as l2) =>
                    if Ascii.eqb d "]" then parse_class_items (a :: acc) (n - 1) (S width) rest
                    else
                      match read_class_atom l2 with
                      | CaError => ClassError
                      | CaOutside => ClassOutside
                      | CaItem b m =>
                          match a, b with
                          | CiChar lo, CiChar hi =>
                              if (JS.code lo <=? JS.code hi)%N
                              then parse_class_items (CiRange lo hi :: acc) (n + m) (S width) rest
                              else ClassError
                          | _, _ =>
                              parse_class_items (b :: CiChar "-" :: a :: acc) (n + m) (S width) rest
                          end
                      end
                | _ => parse_class_items (a :: acc) (n - 1) (S width) rest
                end
            end
      end
  end.

(** The text after a [[]. *)
Definition parse_class (l : list ascii) : option (regex * nat) + bool :=
  match l with
  | "^"%char :: l' =>
      match parse_class_items [] 0 1 l' with
      | ClassOk items w => inl (Some (Class true items, w))
      | ClassOutside => inl None
      | ClassError => inr false
      end
  | _ =>
      match parse_class_items [] 0 0 l with
      | ClassOk items w => inl (Some (Class false items, w))
      | ClassOutside => inl None
      | ClassError => inr false
      end
  end.

Definition or_error (f : option frame) (k : frame -> compiled) : compiled :=
  match f with
  | Some f' => k f'
  | None => SyntaxError
  end.

(** The pattern, one character at a time.  [stack] holds the disjunctions
    of the enclosing groups, [top] the innermost open one; [skip] counts the
    characters that the construct read last has already consumed. *)
Fixpoint parse_loop (stack : list frame) (top : frame) (skip : nat)
    (input : list ascii) : compiled :=
  match input with
  | [] =>
      match stack with
      | [] => Compiled (close_frame top)
      | _ :: _ => SyntaxError
      end
  | c :: rest =>
      match skip with
      | S k => parse_loop stack top k rest
      | O =>
          if Ascii.eqb c "\" then
            match rest with
            | [] => SyntaxError
            | e :: _ =>
                match atom_escape e with
                | Some (r, k) => parse_loop stack (push r k top) 1 rest
                | None => Outside
                end
            end
          else if Ascii.eqb c "(" then
            match rest with
            | "?"%char :: ":"%char :: _ => parse_loop (top :: stack) empty_frame 2 rest
            | "?"%char :: _ => Outside
            | _ => parse_loop (top :: stack) empty_frame 0 rest
            end
          else if Ascii.eqb c ")" then
            match stack with
            | [] => SyntaxError
            | parent :: stack' =>
                parse_loop stack' (push (close_frame top) Atom parent) 0 rest
            end
          else if Ascii.eqb c "|" then parse_loop stack (next_alt top) 0 rest
          else if Ascii.eqb c "*" then
            or_error (quantify 0 None top) (fun f => parse_loop stack f 0 rest)
          else if Ascii.eqb c "+" then
            or_error (quantify 1 None top) (fun f => parse_loop stack f 0 rest)
          else if Ascii.eqb c "?" then
            match make_lazy top with
            | Some f => parse_loop stack f 0 rest
            | None =>
                or_error (quantify 0 (Some 1) top) (fun f => parse_loop stack f 0 rest)
            end
          else if Ascii.eqb c "{" then
            match parse_braces rest with
            | Some (lo, hi, w) =>
                match hi with
                | Some h =>
                    if (h <? lo)%nat then SyntaxError
                    else or_error (quantify lo hi top) (fun f => parse_loop stack f w rest)
                | None =>
                    or_error (quantify lo hi top) (fun f => parse_loop stack f w rest)
                end
            | None => parse_loop stack (push (Char c) Atom top) 0 rest
            end
          else if Ascii.eqb c "[" then
            match parse_class rest with
            | inl (Some (r, w)) => parse_loop stack (push r Atom top) w rest
            | inl None => Outside
            | inr _ => SyntaxError
            end
          else if Ascii.eqb c "." then parse_loop stack (push Dot Atom top) 0 rest
          else if Ascii.eqb c "^" then parse_loop stack (push InputStart Assertion top) 0 rest
          else if Ascii.eqb c "$" then parse_loop stack (push InputEnd Assertion top) 0 rest
          else parse_loop stack (push (Char c) Atom top) 0 rest
      end
  end.

(** [new RegExp(pattern)] *)
Definition compile (pattern : string) : compiled :=
  parse_loop [] empty_frame 0 (list_ascii_of_string pattern).

(** *** Matching *)

(** Canonicalisation under the [i] flag: [toUpperCase] on one code unit. *)
Definition canonicalize (c : ascii) : ascii :=
  if JS.in_range 97 122 c then ascii_of_N (JS.code c - 32)
  else if JS.in_range 224 254 c && negb (JS.code c =? 247)%N then ascii_of_N (JS.code c - 32)
  else c.

Definition char_eq (ignoreCase : bool) (a b : ascii) : bool :=
  if ignoreCase then Ascii.eqb (canonicalize a) (canonicalize b) else Ascii.eqb a b.

(** The characters of [\w]. *)
Definition is_word_char (c : ascii) : bool :=
  is_letter c || is_digit c || Ascii.eqb c "_".

(** The line terminators below 256, which [.] does not match. *)
Definition is_line_terminator (c : ascii) : bool :=
  (JS.code c =? 10)%N || (JS.code c =? 13)%N.

Definition escape_matches (e : class_escape) (c : ascii) : bool :=
  match e with
  | Digit => is_digit c
  | Word => is_word_char c
  | Space => JS.is_space c
  end.

Definition item_matches (ignoreCase : bool) (c : ascii) (i : class_item) : bool :=
  match i with
  | CiChar a => char_eq ignoreCase a c
  | CiRange lo hi =>
      JS.in_range (JS.code lo) (JS.code hi) c
      || (ignoreCase
          && (JS.in_range (JS.code lo) (JS.code hi) (canonicalize c)
              || JS.in_range (JS.code lo) (JS.code hi) (JS.toLowerCase_char c)))
  | CiEscape neg e => xorb neg (escape_matches e c)
  end.

Definition is_word_at (s : list ascii) (p : nat) : bool :=
  match s !! p with
  | Some c => is_word_char c
  | None => false
  end.

(** [\b] holds at [p] when exactly one of the characters before and after
    [p] is a word character. *)
Definition at_word_boundary (s : list ascii) (p : nat) : bool :=
  xorb (match p with O => false | S q => is_word_at s q end) (is_word_at s p).

(** The positions after one character accepted by [ok], from each of [ps]. *)
Definition step (ok : ascii -> bool) (s : list ascii) (ps : list nat) : list nat :=
  omap (fun p => match s !! p with
                 | Some c => if ok c then Some (S p) else None
                 | None => None
                 end) ps.

(** The positions reached from [ps] by at most [n] rounds of [f]. *)
Fixpoint iterate_upto (f : list nat -> list nat) (n : nat) (ps : list nat)
  : list nat :=
  match n with
  | O => ps
  | S k => ps ++ iterate_upto f k (f ps)
  end.

(** [ends ic r s ps]: the positions where a match of [r] can end when it
    starts at one of the positions [ps] of the subject [s].  A round of an
    unbounded repetition that does not advance reaches nothing new, so
    [length s] further rounds reach every end. *)
Fixpoint ends (ignoreCase : bool) (r : regex) (s : list ascii) (ps : list nat)
  : list nat :=
  match r with
  | Empty => ps
  | Char c => step (char_eq ignoreCase c) s ps
  | Dot => step (fun c => negb (is_line_terminator c)) s ps
  | Class neg items =>
      step (fun c => xorb neg (existsb (item_matches ignoreCase c) items)) s ps
  | Seq r1 r2 => ends ignoreCase r2 s (ends ignoreCase r1 s ps)
  | Alt r1 r2 => ends ignoreCase r1 s ps ++ ends ignoreCase r2 s ps
  | Repeat r1 lo hi =>
      let after_min := Nat.iter lo (ends ignoreCase r1 s) ps in
      match hi with
      | Some h => iterate_upto (ends ignoreCase r1 s) (h - lo) after_min
      | None => iterate_upto (ends ignoreCase r1 s) (length s) after_min
      end
  | InputStart => List.filter (fun p => (p =? 0)%nat) ps
  | InputEnd => List.filter (fun p => (p =? length s)%nat) ps
  | WordBoundary => List.filter (at_word_boundary s) ps
  | NotWordBoundary => List.filter (fun p => negb (at_word_boundary s p)) ps
  end.

(** [regex.test(subject)] for a regular expression without the sticky flag
    and with [lastIndex] 0: is there a match starting anywhere? *)
Definition test (ignoreCase : bool) (r : regex) (subject : string) : bool :=
  let s := list_ascii_of_string subject in
  match ends ignoreCase r s (seq 0 (S (length s))) with
  | [] => false
  | _ :: _ => true
  end.

End RegExp.

(** [new RegExp(pattern)] as a call that may throw. *)
Definition RegExp_new (pattern : string) : outcome RegExp.regex :=
  match RegExp.compile pattern with
  | RegExp.Compiled r => Returns r
  | RegExp.SyntaxError => Throws
  | RegExp.Outside => Unmodelled
  end.

(** ** POSIX paths ([path] module of Node.js)

    Written for normalised paths: no empty, [.] or [..] component and no
    trailing separator, as produced by joining a directory with the entry
    names returned by [readdirSync]. *)
Module Path.

Definition sep : ascii := "/"%char.

(** [path.join(dir, name)] *)
Definition join (dir name : string) : string := dir +:+ "/" +:+ name.

(** The last component of a path. *)
Definition last_component (p : string) : string :=
  List.last (JS.split_char sep p) EmptyString.

Fixpoint drop_string (n : nat) (s : string) : string :=
  match n, s with
  | S k, String _ s' => drop_string k s'
  | _, _ => s
  end.

(** The extension starts at the last dot of the last component; there is
    none when that component has no dot, starts with its only candidate dot
    or is [..]. *)
Fixpoint last_dot (s : string) (pos : nat) (found : option nat) : option nat :=
  match s with
  | EmptyString => found
  | String c s' =>
      last_dot s' (S pos) (if Ascii.eqb c "." then Some pos else found)
  end.

(** [path.extname(p)] *)
Definition extname (p : string) : string :=
  let base := last_component p in
  match last_dot base 0 None with
  | None => EmptyString
  | Some O => EmptyString
  | Some i => if String.eqb base ".." then EmptyString else drop_string i base
  end.

Definition endsWith (s suffix : string) : bool :=
  (String.length suffix <=? String.length s)%nat
  && String.eqb (drop_string (String.length s - String.length suffix) s) suffix.

(** [path.basename(p, ext)] *)
Definition basename (p ext : string) : string :=
  let base := last_component p in
  if negb (String.eqb ext EmptyString) && endsWith base ext
     && negb (String.eqb base ext)
  then String.substring 0 (String.length base - String.length ext) base
  else base.

(** [path.relative(from, to)] for a path [to] below the directory [from]. *)
Definition relative (from to : string) : string :=
  if JS.startsWith to (from +:+ "/")
  then drop_string (S (String.length from)) to
  else to.

End Path.

(** ** Data model *)

Inductive FileType : Type := example | doc | template | other.

#[global] Instance FileType_eq_dec : EqDecision FileType.
Proof. solve_decision. Defined.

Record Metadata : Type := {
  title : option string;
  shortTitle : option string;
  documentation : option string;
  exampleStart : option Z;
  exampleEnd : option Z;
}.

Record IndexedFile : Type := {
  path : string;
  relativePath : string;
  content : string;
  lines : list string;
  lineOffsets : list nat;
  type : FileType;
  metadata : option Metadata;
}.

Record SearchResult : Type := {
  sr_path : string;
  sr_relativePath : string;
  lineStart : Z;
  lineEnd : Z;
  excerpt : string;
  score : Q;
  sr_type : FileType;
}.

Record Citation : Type := {
  cit_path : string;
  cit_lineStart : Z;
  cit_lineEnd : Z;
  cit_excerpt : string;
  reason : option string;
}.

Inductive SearchScope : Type := docs | examples | docs_and_examples | all.

(** The options object of [search]; an absent field is [None]. *)
Record SearchOptions : Type := {
  maxResults : option Z;
  scope : option SearchScope;
  fileGlobs : option (list string);
}.

Definition no_options : SearchOptions :=
  {| maxResults := None; scope := None; fileGlobs := None |}.

(** The state of a [DocassembleIndex] object.  [files] is a [Map] that is
    iterated, hence kept in insertion order. *)
Record DocassembleIndex : Type := {
  files : list (string * IndexedFile);
  examplesByName : gmap string IndexedFile;
  keywordIndex : gmap string (gset string);
  basePath : string;
  initialized : bool;
}.

(** [new DocassembleIndex(basePath)] *)
Definition new_index (base : string) : DocassembleIndex :=
  {| files := []; examplesByName := ∅; keywordIndex := ∅;
     basePath := base; initialized := false |}.

(** [Map.prototype.get] and [Map.prototype.set] on an insertion-ordered
    map: setting a key that is present keeps its place. *)
Fixpoint map_get {V : Type} (k : string) (m : list (string * V)) : option V :=
  match m with
  | [] => None
  | (k', v) :: m' => if String.eqb k' k then Some v else map_get k m'
  end.

Fixpoint map_set {V : Type} (k : string) (v : V) (m : list (string * V))
  : list (string * V) :=
  match m with
  | [] => [(k, v)]
  | (k', v') :: m' =>
      if String.eqb k' k then (k, v) :: m' else (k', v') :: map_set k v m'
  end.

Definition newline : string := String (ascii_of_N 10) EmptyString.

(** ** The index *)

(** The fixed vocabulary of [buildKeywordIndex]. *)
Definition keywords : list string :=
  [
    "question"; "fields"; "buttons"; "choices"; "mandatory"; "code";
    "attachment"; "attachments"; "template"; "content"; "subquestion";
    "under"; "help"; "terms"; "auto terms"; "metadata"; "include"; "objects";
    "object"; "generic object"; "sets"; "event"; "action"; "review";
    "continue button field"; "signature"; "yesno"; "noyes"; "yesnomaybe";
    "datatype"; "default"; "required"; "validation code";
    "validation messages"; "show if"; "hide if"; "js show if"; "js hide if";
    "note"; "html"; "css"; "script"; "features"; "sections"; "progress";
    "table"; "rows"; "columns"; "edit"; "delete buttons"; "confirm"; "need";
    "depends on"; "scan for variables"; "initial"; "default role"; "role";
    "if"; "else"; "elif"; "for"; "while"; "def"; "class"; "import"; "from";
    "modules"; "reset"; "undefine"; "reconsider"; "force ask"; "force gather";
    "interview help"; "decoration"; "image sets"; "images"; "audio"; "video";
    "prevent going back"; "back button"; "corner back button";
    "continue button label"; "resume button label"; "exit"; "restart";
    "leave"; "refresh"; "reload"; "url args"; "action argument";
    "action buttons"; "background action"; "background response";
    "background response action"; "check in"; "cron"; "allow cron";
    "send email"; "email"; "sms"; "twilio"; "docx template file";
    "pdf template file"; "variable name"; "valid formats"; "filename"; "name";
    "description"; "skip undefined"; "pdf/a"; "tagged pdf"; "editable";
    "decimal places"; "language"; "translations"; "words"; "comment"; "id";
    "supersedes"; "order"; "usedefs"; "mako"; "jinja2"; "markdown"; "raw";
    "target"; "ga id"; "segment id"; "suppress loading"; "suppress autofill";
    "autocomplete"; "address autocomplete"; "geocode"; "object labeler";
    "instanceName"; "DAList"; "DADict"; "DASet"; "DAObject"; "DAFile";
    "DAFileList"; "DAFileCollection"; "DAStaticFile"; "DAEmail"; "Individual";
    "Person"; "Name"; "Address"; "LatitudeLongitude"; "Organization"; "Thing";
    "Event"; "PeriodicValue"; "Value"; "OfficeList"; "RoleChangeTracker";
    "DARedis"; "DAStore"; "DAGlobal"; "DACloudStorage"; "DAOAuth"; "DAWeb";
    "DAContext"; "DAEmpty"; "DALazyTemplate"; "DALazyTableTemplate"
  ].

Section Index.

(** [extractMetadata] reads the metadata block of a file with regular
    expressions that use capture groups, which the [RegExp] fragment above
    does not cover.  It is a parameter of the ingestion; what is proved
    below holds for every extractor. *)
Variable extractMetadata : string -> Metadata.

(** *** Ingestion *)

(** [lineOffsets]: the offset of every line in the content. *)
Fixpoint line_offsets (offset : nat) (ls : list string) : list nat :=
  match ls with
  | [] => []
  | line :: ls' => offset :: line_offsets (offset + String.length line + 1) ls'
  end.

(** [indexFile(filePath, type)].  [read] is what [readFileSync] gives:
    the decoded content, or [None] when it throws, in which case the
    handler logs the error and the file is skipped. *)
Definition indexFile (idx : DocassembleIndex) (filePath : string)
    (read : option string) (ty : FileType) : DocassembleIndex :=
  match read with
  | None => idx
  | Some text =>
      let ls := JS.split_char (ascii_of_N 10) text in
      let rel := Path.relative (basePath idx) filePath in
      let indexedFile :=
        {| path := filePath; relativePath := rel; content := text;
           lines := ls; lineOffsets := line_offsets 0 ls; type := ty;
           metadata := Some (extractMetadata text) |} in
      let files' := map_set rel indexedFile (files idx) in
      let byName :=
        if decide (ty = example)
        then <[Path.basename filePath (Path.extname filePath) := indexedFile]>
               (examplesByName idx)
        else examplesByName idx in
      {| files := files'; examplesByName := byName;
         keywordIndex := keywordIndex idx; basePath := basePath idx;
         initialized := initialized idx |}
  end.

(** A directory entry as [readdirSync(dir, {withFileTypes: true})] reports
    it: a regular file with the outcome of reading it, a directory with its
    own entries, or an entry that is neither. *)
Inductive Dirent : Type :=
  | RegularFile (name : string) (read : option string)
  | Directory (name : string) (entries : list Dirent)
  | OtherEntry (name : string).

Definition accepted_name (name : string) : bool :=
  Path.endsWith name ".yml" || Path.endsWith name ".yaml"
  || Path.endsWith name ".md".

(** The loop of [indexDirectory] over one entry of [dirPath]. *)
Fixpoint indexEntry (ty : FileType) (dirPath : string) (idx : DocassembleIndex)
    (entry : Dirent) : DocassembleIndex :=
  match entry with
  | Directory name entries =>
      fold_left (indexEntry ty (Path.join dirPath name)) entries idx
  | RegularFile name read =>
      if accepted_name name
      then indexFile idx (Path.join dirPath name) read ty
      else idx
  | OtherEntry _ => idx
  end.

(** What the file system holds at a path given to [indexDirectory]. *)
Inductive Node : Type :=
  | Missing
  | NotADirectory
  | Dir (entries : list Dirent).

Definition FileSystem : Type := string -> Node.

(** [indexDirectory(dirPath, type)]: a missing directory is skipped with a
    warning; [readdirSync] throws on a path that is not a directory. *)
Definition indexDirectory (fs : FileSystem) (idx : DocassembleIndex)
    (dirPath : string) (ty : FileType) : outcome DocassembleIndex :=
  match fs dirPath with
  | Missing => Returns idx
  | NotADirectory => Throws
  | Dir entries => Returns (fold_left (indexEntry ty dirPath) entries idx)
  end.

(** [keyword.replace(/\s+/g, rep)] *)
Fixpoint replace_whitespace_runs (rep : string) (s : string) : string :=
  match s with
  | EmptyString => EmptyString
  | String c s' =>
      if JS.is_space c then
        match s' with
        | String d _ =>
            if JS.is_space d then replace_whitespace_runs rep s'
            else rep +:+ replace_whitespace_runs rep s'
        | EmptyString => rep
        end
      else String c (replace_whitespace_runs rep s')
  end.

Definition keyword_pattern (keyword : string) : string :=
  "\b" +:+ replace_whitespace_runs "\s+" keyword +:+ "\b".

(** The body of the inner loop of [buildKeywordIndex]. *)
Definition index_keyword (relPath text : string)
    (ki : gmap string (gset string)) (keyword : string)
  : outcome (gmap string (gset string)) :=
  regex ← RegExp_new (keyword_pattern keyword);
  if RegExp.test true regex text then
    let key := JS.toLowerCase keyword in
    let ki1 := match ki !! key with
               | Some _ => ki
               | None => <[key := ∅]> ki
               end in
    mret (<[key := {[relPath]} ∪ default ∅ (ki1 !! key)]> ki1)
  else mret ki.

(** [buildKeywordIndex()] *)
Definition buildKeywordIndex (idx : DocassembleIndex) : outcome DocassembleIndex :=
  ki ← foldM (fun ki (entry : string * IndexedFile) =>
                foldM (index_keyword (fst entry) (content (snd entry))) keywords ki)
             (files idx) (keywordIndex idx);
  mret {| files := files idx; examplesByName := examplesByName idx;
          keywordIndex := ki; basePath := basePath idx;
          initialized := initialized idx |}.

Definition examplesPath (base : string) : string :=
  Path.join base "docassemble_base/docassemble/base/data/questions/examples".
Definition demoQuestionsPath (base : string) : string :=
  Path.join base "docassemble_demo/docassemble/demo/data/questions".
Definition templatesPath (base : string) : string :=
  Path.join base "docassemble_base/docassemble/base/data/templates".

Definition set_initialized (idx : DocassembleIndex) : DocassembleIndex :=
  {| files := files idx; examplesByName := examplesByName idx;
     keywordIndex := keywordIndex idx; basePath := basePath idx;
     initialized := true |}.

(** [initialize()] *)
Definition initialize (fs : FileSystem) (idx : DocassembleIndex)
  : outcome DocassembleIndex :=
  if initialized idx then Returns idx
  else
    idx1 ← indexDirectory fs idx (examplesPath (basePath idx)) example;
    idx2 ← indexDirectory fs idx1 (demoQuestionsPath (basePath idx)) example;
    idx3 ← indexDirectory fs idx2 (templatesPath (basePath idx)) template;
    idx4 ← buildKeywordIndex idx3;
    mret (set_initialized idx4).

End Index.

(** *** Query engine *)

(** [matchesScope(type, scope)] *)
Definition matchesScope (ty : FileType) (sc : SearchScope) : bool :=
  match sc with
  | docs => bool_decide (ty = doc)
  | examples => bool_decide (ty = example)
  | docs_and_examples => bool_decide (ty = doc) || bool_decide (ty = example)
  | all => true
  end.

(** The regular expression source that [matchesGlobs] builds from a glob. *)
Definition glob_pattern (glob : string) : string :=
  JS.replaceAll "?" "." (JS.replaceAll "*" "[^/]*" (JS.replaceAll "**" ".*" glob)).

(** [matchesGlobs(relativePath, globs)] *)
Fixpoint matchesGlobs (relPath : string) (globs : list string) : outcome bool :=
  match globs with
  | [] => Returns false
  | glob :: globs' =>
      regex ← RegExp_new (glob_pattern glob);
      if RegExp.test false regex relPath then Returns true
      else matchesGlobs relPath globs'
  end.

(** The body of the loop over the query terms for one lowercased line: the
    pair is [(score, matchedTerms)]. *)
Definition score_term (lineLower : string) (acc : Q * nat) (term : string)
  : outcome (Q * nat) :=
  if JS.includes lineLower term then
    let matchedTerms := S (snd acc) in
    let score1 := (fst acc + 10)%Q in
    let score2 := if JS.startsWith lineLower (term +:+ ":")
                  then (score1 + 20)%Q else score1 in
    regex ← RegExp_new ("\b" +:+ term +:+ "\b");
    let score3 := if RegExp.test false regex lineLower
                  then (score2 + 5)%Q else score2 in
    mret (score3, matchedTerms)
  else mret acc.

(** The title of the file when [file.metadata?.title] is truthy. *)
Definition truthy_title (file : IndexedFile) : option string :=
  match metadata file with
  | Some md =>
      match title md with
      | Some t => if String.eqb t EmptyString then None else Some t
      | None => None
      end
  | None => None
  end.

(** The loop adding 15 for every query term found in the title. *)
Definition add_title_bonus (file : IndexedFile) (queryTerms : list string)
    (sc : Q) : Q :=
  match truthy_title file with
  | Some t =>
      let titleLower := JS.toLowerCase t in
      fold_left (fun s term =>
                   if JS.includes titleLower term then (s + 15)%Q else s)
                queryTerms sc
  | None => sc
  end.

Definition Q_of_nat (n : nat) : Q := inject_Z (Z.of_nat n).

(** The body of the loop of [findMatches] over the line index [i]: the hit
    pushed for that line, if any. *)
Definition line_hit (file : IndexedFile) (queryTerms : list string) (i : nat)
  : outcome (option SearchResult) :=
  let lineLower := JS.toLowerCase (default EmptyString (lines file !! i)) in
  acc ← foldM (score_term lineLower) queryTerms (0%Q, 0%nat);
  let matchedTerms := snd acc in
  if (0 <? matchedTerms)%nat then
    let contextStart := Z.max 0 (Z.of_nat i - 2) in
    let contextEnd := Z.min (Z.of_nat (length (lines file)) - 1) (Z.of_nat i + 5) in
    let text := JS.join newline (JS.slice (lines file) contextStart (contextEnd + 1)) in
    let score1 :=
      (fst acc + Q_of_nat matchedTerms / Q_of_nat (length queryTerms) * 10)%Q in
    let score2 := add_title_bonus file queryTerms score1 in
    mret (Some {| sr_path := path file; sr_relativePath := relativePath file;
                  lineStart := contextStart + 1; lineEnd := contextEnd + 1;
                  excerpt := text; score := score2; sr_type := type file |})
  else mret None.

(** The first loop of [findMatches]: the hits of all lines, in line order. *)
Definition line_hits (file : IndexedFile) (queryTerms : list string)
  : outcome (list SearchResult) :=
  foldM (fun results i =>
           hit ← line_hit file queryTerms i;
           mret (match hit with
                 | Some r => (results ++ [r])%list
                 | None => results
                 end))
        (seq 0 (length (lines file))) [].

(** [results.sort((a, b) => b.score - a.score)]: the sort is stable, so its
    result is the stable arrangement by descending score, built here by
    insertion from the right. *)
Fixpoint insert_by_score (r : SearchResult) (sorted : list SearchResult)
  : list SearchResult :=
  match sorted with
  | [] => [r]
  | r' :: rest =>
      if Qle_bool (score r') (score r) then r :: sorted
      else r' :: insert_by_score r rest
  end.

Definition sort_by_score (results : list SearchResult) : list SearchResult :=
  foldr insert_by_score [] results.

(** [`${result.relativePath}:${Math.floor(result.lineStart / 10)}`] *)
Definition bucket (r : SearchResult) : Z := (lineStart r / 10)%Z.

Definition rangeKey (r : SearchResult) : string :=
  sr_relativePath r +:+ ":" +:+ JS.string_of_Z (bucket r).

(** The second loop of [findMatches]: keep the first result of every range
    key.  [seenRanges] is the set of keys met so far. *)
Fixpoint keep_first_per_range (seenRanges : gset string)
    (results : list SearchResult) : list SearchResult :=
  match results with
  | [] => []
  | r :: rest =>
      if decide (rangeKey r ∈ seenRanges)
      then keep_first_per_range seenRanges rest
      else r :: keep_first_per_range ({[rangeKey r]} ∪ seenRanges) rest
  end.

(** [findMatches(file, queryTerms)] *)
Definition findMatches (file : IndexedFile) (queryTerms : list string)
  : outcome (list SearchResult) :=
  results ← line_hits file queryTerms;
  mret (keep_first_per_range ∅ (sort_by_score results)).

Definition query_terms (query : string) : list string :=
  List.filter (fun t => (0 <? String.length t)%nat)
              (JS.split_whitespace (JS.toLowerCase query)).

(** The body of the loop of [search] over the file table. *)
Definition search_file (sc : SearchScope) (globs : option (list string))
    (queryTerms : list string) (results : list SearchResult)
    (entry : string * IndexedFile) : outcome (list SearchResult) :=
  if negb (matchesScope (type (snd entry)) sc) then mret results
  else
    selected ← match globs with
               | Some gs => matchesGlobs (fst entry) gs
               | None => mret true
               end;
    if negb selected then mret results
    else
      found ← findMatches (snd entry) queryTerms;
      mret (results ++ found)%list.

(** [search(query, options)] *)
Definition search (idx : DocassembleIndex) (query : string)
    (options : SearchOptions) : outcome (list SearchResult) :=
  let limit := default 8%Z (maxResults options) in
  let sc := default docs_and_examples (scope options) in
  let queryTerms := query_terms query in
  results ← foldM (search_file sc (fileGlobs options) queryTerms) (files idx) [];
  mret (JS.slice (sort_by_score results) 0 limit).

(** *** Lookups, citations and statistics *)

Definition getFile (idx : DocassembleIndex) (relPath : string) : option IndexedFile :=
  map_get relPath (files idx).

Definition getExampleByName (idx : DocassembleIndex) (name : string)
  : option IndexedFile :=
  examplesByName idx !! name.

Definition getAllFiles (idx : DocassembleIndex) : list IndexedFile :=
  map snd (files idx).

Definition getAllExamples (idx : DocassembleIndex) : list IndexedFile :=
  List.filter (fun f => bool_decide (type f = example)) (getAllFiles idx).

(** [getSnippet(relativePath, lineStart, lineEnd)] *)
Definition getSnippet (idx : DocassembleIndex) (relPath : string)
    (first last : Z) : option string :=
  match map_get relPath (files idx) with
  | None => None
  | Some file =>
      let start := Z.max 0 (first - 1) in
      let stop := Z.min (Z.of_nat (length (lines file))) last in
      Some (JS.join newline (JS.slice (lines file) start stop))
  end.

(** [createCitation(relativePath, lineStart, lineEnd, reason)]; [None] is
    the [null] result. *)
Definition createCitation (idx : DocassembleIndex) (relPath : string)
    (first last : Z) (why : option string) : option Citation :=
  match map_get relPath (files idx) with
  | None => None
  | Some _ =>
      match getSnippet idx relPath first last with
      | None => None
      | Some text =>
          if String.eqb text EmptyString then None
          else Some {| cit_path := relPath; cit_lineStart := first;
                       cit_lineEnd := last; cit_excerpt := text;
                       reason := why |}
      end
  end.

Record Stats : Type := {
  totalFiles : nat;
  st_examples : nat;
  st_docs : nat;
  st_templates : nat;
  st_keywords : nat;
}.

(** The counting loop of [getStats]: (examples, docs, templates). *)
Definition count_file (counts : nat * nat * nat) (file : IndexedFile)
  : nat * nat * nat :=
  let '(ex, dc, tp) := counts in
  match type file with
  | example => (S ex, dc, tp)
  | doc => (ex, S dc, tp)
  | template => (ex, dc, S tp)
  | other => (ex, dc, tp)
  end.

(** [getStats()] *)
Definition getStats (idx : DocassembleIndex) : Stats :=
  let '(ex, dc, tp) := fold_left count_file (getAllFiles idx) (0, 0, 0)%nat in
  {| totalFiles := length (files idx);
     st_examples := ex;
     st_docs := dc;
     st_templates := tp;
     st_keywords := size (keywordIndex idx) |}.

(** ** Reference notions used in the statements *)

(** The stored line sequence with its 1-based numbering, and the lines
    numbered [first] to [last], both included. *)
Fixpoint numbered_from {A : Type} (n : Z) (l : list A) : list (Z * A) :=
  match l with
  | [] => []
  | x :: l' => (n, x) :: numbered_from (n + 1) l'
  end.

Definition line_range (ls : list string) (first last : Z) : list string :=
  map snd (List.filter (fun e => (first <=? fst e)%Z && (fst e <=? last)%Z)
                       (numbered_from 1 ls)).

(** The invariant of the file table: every file is stored under its own
    relative path, once. *)
Definition index_wf (idx : DocassembleIndex) : Prop :=
  NoDup (map fst (files idx))
  /\ Forall (fun e => relativePath (snd e) = fst e) (files idx).

(** ** Example corpora *)

Definition no_metadata (_ : string) : Metadata :=
  {| title := None; shortTitle := None; documentation := None;
     exampleStart := None; exampleEnd := None |}.

Definition titled (t : string) : Metadata :=
  {| title := Some t; shortTitle := None; documentation := None;
     exampleStart := None; exampleEnd := None |}.

(** A file record as [indexFile] builds it, with the metadata given. *)
Definition make_file (base rel text : string) (ty : FileType)
    (md : Metadata) : IndexedFile :=
  let ls := JS.split_char (ascii_of_N 10) text in
  {| path := Path.join base rel; relativePath := rel; content := text;
     lines := ls; lineOffsets := line_offsets 0 ls; type := ty;
     metadata := Some md |}.

Definition index_of (base : string) (fs : list IndexedFile) : DocassembleIndex :=
  {| files := map (fun f => (relativePath f, f)) fs; examplesByName := ∅;
     keywordIndex := ∅; basePath := base; initialized := true |}.

Definition unlines (ls : list string) : string := JS.join newline ls.

(** The one-file corpus of the specification's scenario. *)
Definition a_yml : IndexedFile :=
  make_file "/repo" "a.yml"
    (unlines ["metadata:"; "  title: Demo"; "question: |"; "  Hello"])
    example (titled "Demo").

Definition demo_index : DocassembleIndex := index_of "/repo" [a_yml].

(** ** The order of ingestion *)

(** The record that [indexFile] stores for a file that could be read. *)
Definition file_record (extractMetadata : string -> Metadata)
    (base filePath text : string) (ty : FileType) : IndexedFile :=
  let ls := JS.split_char (ascii_of_N 10) text in
  {| path := filePath; relativePath := Path.relative base filePath;
     content := text; lines := ls; lineOffsets := line_offsets 0 ls;
     type := ty; metadata := Some (extractMetadata text) |}.

(** One call of [indexFile]: the path, what reading it gave, the type. *)
Definition ingestion : Type := string * option string * FileType.

Definition ingest (extractMetadata : string -> Metadata)
    (idx : DocassembleIndex) (ev : ingestion) : DocassembleIndex :=
  indexFile extractMetadata idx (fst (fst ev)) (snd (fst ev)) (snd ev).

(** The calls of [indexFile] that the walk of one entry makes, in order. *)
Fixpoint entry_ingestions (ty : FileType) (dirPath : string) (entry : Dirent)
  : list ingestion :=
  match entry with
  | Directory name entries =>
      flat_map (entry_ingestions ty (Path.join dirPath name)) entries
  | RegularFile name read =>
      if accepted_name name then [(Path.join dirPath name, read, ty)] else []
  | OtherEntry _ => []
  end.

Definition root_ingestions (fs : FileSystem) (dirPath : string) (ty : FileType)
  : list ingestion :=
  match fs dirPath with
  | Dir entries => flat_map (entry_ingestions ty dirPath) entries
  | _ => []
  end.

(** The calls of [indexFile] that [initialize] makes: the examples root,
    then the demo questions root, then the templates root. *)
Definition ingestion_order (fs : FileSystem) (base : string) : list ingestion :=
  root_ingestions fs (examplesPath base) example
  ++ root_ingestions fs (demoQuestionsPath base) example
  ++ root_ingestions fs (templatesPath base) template.

(** Does this call register an example under the base name [name]? *)
Definition registers_example (name : string) (ev : ingestion) : bool :=
  match ev with
  | (filePath, Some _, ty) =>
      bool_decide (ty = example)
      && String.eqb (Path.basename filePath (Path.extname filePath)) name
  | (_, None, _) => false
  end.

(** The file of the last call that registered an example under [name]. *)
Definition last_example_named (extractMetadata : string -> Metadata)
    (base name : string) (evs : list ingestion) : option IndexedFile :=
  match List.find (registers_example name) (rev evs) with
  | Some (filePath, Some text, ty) =>
      Some (file_record extractMetadata base filePath text ty)
  | _ => None
  end.

Definition only_examples_and_templates (idx : DocassembleIndex) : Prop :=
  Forall (fun e => type (snd e) = example \/ type (snd e) = template) (files idx).

(** A file system with an example [a.yml] under both example roots. *)
Definition demo_fs : FileSystem := fun p =>
  if String.eqb p (examplesPath "/repo") then
    Dir [RegularFile "a.yml" (Some "question: base");
         Directory "sub" [RegularFile "b.md" (Some "code: |");
                          RegularFile "c.txt" (Some "skipped");
                          RegularFile "d.yml" None];
         OtherEntry "e.yml"]
  else if String.eqb p (demoQuestionsPath "/repo") then
    Dir [RegularFile "a.yml" (Some "question: demo")]
  else if String.eqb p (templatesPath "/repo") then
    Dir [RegularFile "t.md" (Some "template text")]
  else Missing.

(** The index that [initialize] builds from [demo_fs]. *)
Definition demo_initialized : DocassembleIndex :=
  match initialize no_metadata demo_fs (new_index "/repo") with
  | Returns idx => idx
  | _ => new_index "/repo"
  end.

(** ** The files that a search scans *)

(** A file is scanned when its type is in scope and, if globs are given,
    [matchesGlobs] answers true. *)
Definition scanned (sc : SearchScope) (globs : option (list string))
    (entry : string * IndexedFile) : Prop :=
  matchesScope (type (snd entry)) sc = true
  /\ match globs with
     | Some gs => matchesGlobs (fst entry) gs = Returns true
     | None => True
     end.

(** The key of the deduplication of the final list: file and bucket. *)
Definition file_bucket (r : SearchResult) : string * Z :=
  (sr_relativePath r, bucket r).

Definition by_score_desc (a b : SearchResult) : Prop := (score b <= score a)%Q.

Definition option_list {A : Type} (o : option A) : list A :=
  match o with
  | Some a => [a]
  | None => []
  end.

(** A file with hits for [question] on lines 4, 11 and 12.  Their windows
    start on lines 2, 9 and 10: the first two in the ten lines 0..9, the
    third in the ten lines 10..19. *)
Definition buckets_yml : IndexedFile :=
  make_file "/repo" "b.yml"
    (unlines ["x"; "x"; "x"; "question: first"; "x"; "x"; "x"; "x"; "x"; "x";
              "another question"; "last question"; "x"])
    example (titled "Buckets").

Definition buckets_index : DocassembleIndex := index_of "/repo" [buckets_yml].

(** ** Ranking of a declaration line *)

(** The file contains the word, and on no line does it come first; lines
    are compared in lower case, as [search] compares them. *)
Definition only_mid_line (word : string) (file : IndexedFile) : Prop :=
  (exists l, l ∈ lines file /\ JS.includes (JS.toLowerCase l) word = true)
  /\ forall l, l ∈ lines file -> JS.startsWith (JS.toLowerCase l) word = false.

(** The word-boundary pattern of every term can be compiled. *)
Definition terms_compile (terms : list string) : Prop :=
  Forall (fun term => exists r, RegExp_new ("\b" +:+ term +:+ "\b") = Returns r)
         terms.

Definition examples_only : SearchOptions :=
  {| maxResults := None; scope := Some examples; fileGlobs := None |}.

(** A file that mentions the word in the middle of a line, and a corpus
    made of it and of [a_yml]. *)
Definition mid_yml : IndexedFile :=
  make_file "/repo" "b.yml"
    (unlines ["intro"; "a question about things"; "more questions later"])
    example (titled "A question of style").

Definition ranking_index : DocassembleIndex := index_of "/repo" [mid_yml; a_yml].

(** ** Patterns inside the modelled fragment *)

Definition word_pattern (term : string) : string := "\b" +:+ term +:+ "\b".

(** Every pattern that a search may build is inside the fragment of
    [RegExp] that is modelled. *)
Definition patterns_modelled (query : string) (options : SearchOptions) : Prop :=
  (forall term, term ∈ query_terms query ->
     RegExp.compile (word_pattern term) <> RegExp.Outside)
  /\ (forall globs glob, fileGlobs options = Some globs -> glob ∈ globs ->
        RegExp.compile (glob_pattern glob) <> RegExp.Outside).

(** A corpus with a line that mentions [C++]. *)
Definition cpp_yml : IndexedFile :=
  make_file "/repo" "cpp.yml"
    (unlines ["question: |"; "  Do you write C++ or Rust?"])
    example (titled "Languages").

Definition cpp_index : DocassembleIndex := index_of "/repo" [cpp_yml].

(** ** Globs as described

    The reading of a glob that the specification gives: [**] stands for
    any sequence of characters, [*] for any sequence without a separator,
    [?] for exactly one character, and every other character for itself.
    As in [matchesGlobs], a path matches when some part of it does. *)

Inductive glob_token : Type :=
  | AnyPath
  | AnySegment
  | AnyChar
  | Literal (c : ascii).

Fixpoint glob_tokens (glob : list ascii) : list glob_token :=
  match glob with
  | [] => []
  | "*"%char :: rest =>
      match rest with
      | "*"%char :: rest' => AnyPath :: glob_tokens rest'
      | _ => AnySegment :: glob_tokens rest
      end
  | "?"%char :: rest => AnyChar :: glob_tokens rest
  | c :: rest => Literal c :: glob_tokens rest
  end.

(** The positions where the tokens can end when they start at one of [ps]. *)
Fixpoint glob_ends (tokens : list glob_token) (s : list ascii) (ps : list nat)
  : list nat :=
  match tokens with
  | [] => ps
  | Literal c :: ts => glob_ends ts s (RegExp.step (Ascii.eqb c) s ps)
  | AnyChar :: ts => glob_ends ts s (RegExp.step (fun _ => true) s ps)
  | AnySegment :: ts =>
      glob_ends ts s
        (RegExp.iterate_upto
           (RegExp.step (fun c => negb (Ascii.eqb c "/")) s) (length s) ps)
  | AnyPath :: ts =>
      glob_ends ts s
        (RegExp.iterate_upto (RegExp.step (fun _ => true) s) (length s) ps)
  end.

Definition described_glob_matches (glob relPath : string) : bool :=
  let s := list_ascii_of_string relPath in
  match glob_ends (glob_tokens (list_ascii_of_string glob)) s
                  (seq 0 (S (length s))) with
  | [] => false
  | _ :: _ => true
  end.

(** A file two directories below [examples]. *)
Definition nested_yml : IndexedFile :=
  make_file "/repo" "examples/a/b/test.yml"
    (unlines ["question: |"; "  Nested?"]) example (titled "Nested").

Definition nested_index : DocassembleIndex := index_of "/repo" [nested_yml].

Definition with_globs (globs : list string) : SearchOptions :=
  {| maxResults := None; scope := Some examples; fileGlobs := Some globs |}.

(** ** The score as described

    The scoring rule in the words of the specification, with the
    word-boundary boost read on the text of the term: the term occurs
    somewhere in the line with a word boundary on both sides. *)

Fixpoint occurs_at (t s : list ascii) (p : nat) : bool :=
  match t with
  | [] => true
  | c :: t' =>
      match s !! p with
      | Some d => Ascii.eqb c d && occurs_at t' s (S p)
      | None => false
      end
  end.

Definition matches_at_word_boundary (line term : string) : bool :=
  let s := list_ascii_of_string line in
  let t := list_ascii_of_string term in
  existsb (fun p => RegExp.at_word_boundary s p && occurs_at t s p
                    && RegExp.at_word_boundary s (p + length t))
          (seq 0 (S (length s))).

Definition described_term_points (lineLower term : string) : Q :=
  if JS.includes lineLower term then
    10 + (if JS.startsWith lineLower (term +:+ ":") then 20 else 0)
       + (if matches_at_word_boundary lineLower term then 5 else 0)
  else 0.

Definition described_title_points (file : IndexedFile) (term : string) : Q :=
  match truthy_title file with
  | Some t => if JS.includes (JS.toLowerCase t) term then 15 else 0
  | None => 0
  end.

Definition Qsum (qs : list Q) : Q := foldr Qplus 0%Q qs.

Definition matched_count (lineLower : string) (terms : list string) : nat :=
  length (List.filter (JS.includes lineLower) terms).

(** The score of the hit of a line, or [None] when no term matches it. *)
Definition described_score (file : IndexedFile) (terms : list string)
    (lineLower : string) : option Q :=
  let matched := matched_count lineLower terms in
  if (0 <? matched)%nat then
    Some (Qsum (map (described_term_points lineLower) terms)
          + Q_of_nat matched / Q_of_nat (length terms) * 10
          + Qsum (map (described_title_points file) terms))%Q
  else None.

(** The characters with a meaning in a pattern; a term without them is a
    pattern that matches its own text. *)
Definition is_syntax_char (c : ascii) : bool :=
  Ascii.eqb c "\" || Ascii.eqb c "(" || Ascii.eqb c ")" || Ascii.eqb c "|"
  || Ascii.eqb c "*" || Ascii.eqb c "+" || Ascii.eqb c "?" || Ascii.eqb c "{"
  || Ascii.eqb c "[" || Ascii.eqb c "." || Ascii.eqb c "^" || Ascii.eqb c "$".

Definition plain_term (term : string) : bool :=
  forallb (fun c => negb (is_syntax_char c)) (list_ascii_of_string term).

(** The pattern [\b<term>\b] of a plain term, parsed. *)
Definition literal_seq (t : list ascii) (tail : RegExp.regex) : RegExp.regex :=
  foldr (fun c r => RegExp.Seq (RegExp.Char c) r) tail t.

Definition word_regex (term : string) : RegExp.regex :=
  RegExp.Seq RegExp.WordBoundary
    (literal_seq (list_ascii_of_string term)
       (RegExp.Seq RegExp.WordBoundary RegExp.Empty)).

(** A line where the term [a.c], read as a pattern, matches [abc]. *)
Definition dotted_yml : IndexedFile :=
  make_file "/repo" "dotted.yml" (unlines ["xa.c abc"]) example (titled "Dots").

(** The frame after reading the characters [t] as pattern characters. *)
Definition push_chars (t : list ascii) (top : RegExp.frame) : RegExp.frame :=
  fold_left (fun f c => RegExp.push (RegExp.Char c) RegExp.Atom f) t top.

Definition dotted_index : DocassembleIndex := index_of "/repo" [dotted_yml].

(** ** Further lookups *)

(** [getFileByAbsolutePath(absolutePath)] *)
Definition getFileByAbsolutePath (idx : DocassembleIndex) (absolutePath : string)
  : option IndexedFile :=
  map_get (Path.relative (basePath idx) absolutePath) (files idx).

(** [getFilesWithKeyword(keyword)]: the files of the paths recorded for the
    lower-cased keyword, paths without a file dropped.  The order in which
    [Array.from] lists the set is not modelled. *)
Definition getFilesWithKeyword (idx : DocassembleIndex) (keyword : string)
  : list IndexedFile :=
  match keywordIndex idx !! JS.toLowerCase keyword with
  | None => []
  | Some paths => omap (fun p => map_get p (files idx)) (elements paths)
  end.

(** The files that [getStats] counts under none of its three headings. *)
Definition other_files (idx : DocassembleIndex) : list IndexedFile :=
  List.filter (fun f => bool_decide (type f = other)) (getAllFiles idx).

(** A query without any term: only white space, or nothing. *)
Definition blank (query : string) : Prop :=
  Forall (fun c => JS.is_space c = true) (list_ascii_of_string query).

(** The number of newline characters of a text. *)
Fixpoint count_newlines (text : string) : nat :=
  match text with
  | EmptyString => 0
  | String c text' =>
      (if Ascii.eqb c (ascii_of_N 10) then 1 else 0) + count_newlines text'
  end.

(** A stored file whose line table and offset table are those of its
    content, as [indexFile] computes them. *)
Definition well_split (f : IndexedFile) : Prop :=
  lines f = JS.split_char (ascii_of_N 10) (content f)
  /\ lineOffsets f = line_offsets 0 (lines f).

(** The invariant that [indexFile] keeps: every file is stored once, under
    its own relative path, which is its absolute path made relative to the
    base path. *)
Definition stored_under_own_path (idx : DocassembleIndex) : Prop :=
  index_wf idx
  /\ Forall (fun e => Path.relative (basePath idx) (path (snd e))
                      = relativePath (snd e)) (files idx).
(** ** The keyword index *)

(** Does the pattern that [buildKeywordIndex] makes of the keyword match
    somewhere in the text? *)
Definition keyword_found (keyword text : string) : bool :=
  match RegExp_new (keyword_pattern keyword) with
  | Returns r => RegExp.test true r text
  | _ => false
  end.

(** The three directories that [initialize] walks. *)
Definition roots (base : string) : list string :=
  [examplesPath base; demoQuestionsPath base; templatesPath base].

Definition keyword_compiles (keyword : string) : bool :=
  match RegExp_new (keyword_pattern keyword) with
  | Returns _ => true
  | _ => false
  end.
(** ** The snippet tool ([tools.ts])

    [DocassembleTools.getAuthoritativeSnippets] calls [search] for the topic
    and two variations of it and keeps the first result of every file.
    [desiredCount] is an integer by the input schema. *)

Record Snippet : Type := {
  sn_path : string;
  sn_lineStart : Z;
  sn_lineEnd : Z;
  sn_excerpt : string;
  whyThisMatters : string;
}.

Record GetAuthoritativeSnippetsOutput : Type := {
  snippets : list Snippet;
  coverageGaps : list string;
}.

Definition double_quote : string := String (ascii_of_N 34) EmptyString.

Definition searchTerms (topic : string) : list string :=
  [topic; topic +:+ " example"; topic +:+ " usage"].

Definition snippet_options (desiredCount : Z) : SearchOptions :=
  {| maxResults := Some (desiredCount * 2)%Z; scope := Some docs_and_examples;
     fileGlobs := None |}.

(** The snippet pushed for a result that is not skipped. *)
Definition snippet_of (idx : DocassembleIndex) (topic : string)
    (result : SearchResult) : Snippet :=
  let whyThisMatters :=
    match getFile idx (sr_relativePath result) with
    | Some file =>
        match truthy_title file with
        | Some t => "Example: " +:+ t
        | None => "Contains usage of " +:+ double_quote +:+ topic +:+ double_quote
        end
    | None => "Contains usage of " +:+ double_quote +:+ topic +:+ double_quote
    end in
  {| sn_path := sr_relativePath result; sn_lineStart := lineStart result;
     sn_lineEnd := lineEnd result; sn_excerpt := excerpt result;
     whyThisMatters := whyThisMatters |}.

(** The inner loop, over the results of one search; it ends at the first
    push that brings the number of snippets to [desiredCount]. *)
Fixpoint collect_snippets (idx : DocassembleIndex) (topic : string)
    (desiredCount : Z) (results : list SearchResult)
    (seenPaths : gset string) (acc : list Snippet)
  : gset string * list Snippet :=
  match results with
  | [] => (seenPaths, acc)
  | result :: rest =>
      if decide (sr_relativePath result ∈ seenPaths)
      then collect_snippets idx topic desiredCount rest seenPaths acc
      else
        let seenPaths' := {[sr_relativePath result]} ∪ seenPaths in
        let acc' := (acc ++ [snippet_of idx topic result])%list in
        if (desiredCount <=? Z.of_nat (length acc'))%Z then (seenPaths', acc')
        else collect_snippets idx topic desiredCount rest seenPaths' acc'
  end.

(** The outer loop, over the search terms. *)
Fixpoint snippet_rounds (idx : DocassembleIndex) (topic : string)
    (desiredCount : Z) (terms : list string)
    (seenPaths : gset string) (acc : list Snippet) : outcome (list Snippet) :=
  match terms with
  | [] => Returns acc
  | term :: rest =>
      results ← search idx term (snippet_options desiredCount);
      let '(seenPaths', acc') :=
        collect_snippets idx topic desiredCount results seenPaths acc in
      if (desiredCount <=? Z.of_nat (length acc'))%Z then Returns acc'
      else snippet_rounds idx topic desiredCount rest seenPaths' acc'
  end.

Definition advancedTopics : list string :=
  ["machine learning"; "api"; "webhook"; "oauth"; "redis"; "database"].

(** [getAuthoritativeSnippets(input)] *)
Definition getAuthoritativeSnippets (idx : DocassembleIndex) (topic : string)
    (desiredCount : Z) : outcome GetAuthoritativeSnippetsOutput :=
  found ← snippet_rounds idx topic desiredCount (searchTerms topic) ∅ [];
  let short :=
    if (Z.of_nat (length found) <? desiredCount)%Z
    then ["Only found " +:+ JS.string_of_Z (Z.of_nat (length found))
          +:+ " snippets for " +:+ double_quote +:+ topic +:+ double_quote
          +:+ " (requested " +:+ JS.string_of_Z desiredCount +:+ ")"]
    else [] in
  let advanced :=
    map (fun advanced =>
           double_quote +:+ advanced +:+ double_quote
           +:+ " may require additional configuration not covered in basic examples")
        (List.filter (JS.includes (JS.toLowerCase topic)) advancedTopics) in
  mret {| snippets := found; coverageGaps := (short ++ advanced)%list |}.

(** An index with one file per topic of the examples below. *)
Definition two_files_index : DocassembleIndex :=
  index_of "/repo"
    [make_file "/repo" "one.yml"
       (unlines ["question: first"; "x"; "x"; "x"; "x"; "x"; "x"; "x"; "x"; "x";
                 "x"; "x"; "x"; "x"; "a question usage"])
       example (titled "One");
     make_file "/repo" "two.yml" (unlines ["another question"]) example (no_metadata EmptyString)].
(** ** The keyword reference ([index.ts])

    [getKeywordReferenceResource] cites, for a file that mentions a keyword,
    the lines around the first line that contains it. *)

(** The call of [createCitation] for the line with 0-based index [i]. *)
Definition keyword_citation_at (idx : DocassembleIndex) (file : IndexedFile)
    (keyword : string) (i : nat) : option Citation :=
  createCitation idx (relativePath file)
    (Z.max 1 (Z.of_nat i - 1))
    (Z.min (Z.of_nat (length (lines file))) (Z.of_nat i + 4))
    (Some ("Example usage of " +:+ keyword)).

(** The loop over the lines from index [i] on; [ls] holds the lines that
    are left.  It ends with the first citation that is not [null]. *)
Fixpoint first_citation (idx : DocassembleIndex) (file : IndexedFile)
    (keyword : string) (ls : list string) (i : nat) : option Citation :=
  match ls with
  | [] => None
  | line :: rest =>
      if JS.includes (JS.toLowerCase line) (JS.toLowerCase keyword) then
        match keyword_citation_at idx file keyword i with
        | Some citation => Some citation
        | None => first_citation idx file keyword rest (S i)
        end
      else first_citation idx file keyword rest (S i)
  end.

Definition keyword_citation (idx : DocassembleIndex) (file : IndexedFile)
    (keyword : string) : option Citation :=
  first_citation idx file keyword (lines file) 0.

(** * Properties *)

(** ** Arrays and line ranges *)

Lemma slice_nonneg {A : Type} (l : list A) (a b : Z) :
  (0 <= a)%Z -> (0 <= b)%Z ->
  JS.slice l a b = take (Z.to_nat b - Z.to_nat a) (drop (Z.to_nat a) l).
Proof.
  intros Ha Hb. unfold JS.slice.
  destruct (Z.ltb_spec a 0) as [?|_]; [lia|].
  destruct (Z.ltb_spec b 0) as [?|_]; [lia|].
  destruct (decide (Z.to_nat a <= length l)) as [Hle|Hgt].
  - replace (Z.to_nat (Z.min a (Z.of_nat (length l)))) with (Z.to_nat a) by lia.
    destruct (decide (Z.to_nat b <= length l)) as [Hb'|Hb'].
    + f_equal. lia.
    + rewrite !take_ge; [done| |]; rewrite length_drop; lia.
  - rewrite !drop_ge by lia. by rewrite !take_nil.
Qed.

Lemma line_range_from (ls : list string) (n first last : Z) :
  map snd (List.filter (fun e => (first <=? fst e)%Z && (fst e <=? last)%Z)
                       (numbered_from n ls))
  = take (Z.to_nat (last - Z.max first n + 1)) (drop (Z.to_nat (first - n)) ls).
Proof.
  revert n. induction ls as [|x ls IH]; intros n; simpl.
  - by rewrite drop_nil, take_nil.
  - destruct (Z.leb_spec first n) as [Hf|Hf]; simpl.
    + replace (Z.to_nat (first - n)) with 0%nat by lia. simpl.
      destruct (Z.leb_spec n last) as [Hl|Hl]; simpl.
      * rewrite IH. replace (Z.to_nat (first - (n + 1))) with 0%nat by lia.
        rewrite drop_0.
        replace (Z.to_nat (last - Z.max first n + 1))
          with (S (Z.to_nat (last - Z.max first (n + 1) + 1))) by lia.
        done.
      * rewrite IH.
        replace (Z.to_nat (last - Z.max first (n + 1) + 1)) with 0%nat by lia.
        replace (Z.to_nat (last - Z.max first n + 1)) with 0%nat by lia.
        done.
    + rewrite IH.
      replace (Z.to_nat (first - n)) with (S (Z.to_nat (first - (n + 1)))) by lia.
      simpl. do 2 f_equal. lia.
Qed.

Lemma line_range_take_drop (ls : list string) (first last : Z) :
  line_range ls first last
  = take (Z.to_nat (last - Z.max first 1 + 1)) (drop (Z.to_nat (first - 1)) ls).
Proof. apply line_range_from. Qed.

(** [slice] from a 0-based start to an exclusive stop is the 1-based
    inclusive range from [start + 1] to [stop]. *)
Lemma slice_line_range (ls : list string) (a b : Z) :
  (0 <= a)%Z -> (0 <= b)%Z ->
  JS.slice ls a b = line_range ls (a + 1) b.
Proof.
  intros Ha Hb. rewrite slice_nonneg, line_range_take_drop by done.
  f_equal; [lia|f_equal; lia].
Qed.

(** Clamping the bounds of a range to the sequence does not change it. *)
Lemma line_range_clamp (ls : list string) (first last : Z) :
  line_range ls (Z.max 1 first) (Z.min (Z.of_nat (length ls)) last)
  = line_range ls first last.
Proof.
  rewrite !line_range_take_drop.
  destruct (decide (Z.of_nat (length ls) <= last)%Z) as [Hl|Hl].
  - rewrite !take_ge; [f_equal; lia| |]; rewrite length_drop; lia.
  - f_equal; [lia|f_equal; lia].
Qed.

(** ** Citations *)

Lemma getSnippet_found idx relPath first last file :
  getFile idx relPath = Some file ->
  (0 <= last)%Z ->
  getSnippet idx relPath first last
  = Some (JS.join newline
            (line_range (lines file) (Z.max 1 first)
                        (Z.min (Z.of_nat (length (lines file))) last))).
Proof.
  unfold getFile, getSnippet. intros -> Hlast.
  rewrite slice_line_range by lia.
  do 3 f_equal; lia.
Qed.

Lemma createCitation_unknown_path idx relPath first last why :
  getFile idx relPath = None ->
  createCitation idx relPath first last why = None.
Proof. unfold getFile, createCitation. by intros ->. Qed.

Lemma line_range_empty ls first last :
  (last < first)%Z -> line_range ls first last = [].
Proof.
  intros H. rewrite line_range_take_drop.
  replace (Z.to_nat (last - Z.max first 1 + 1)) with 0%nat by lia.
  apply take_0.
Qed.

(** Away from negative end lines, a range whose start lies after its end
    is refused. *)
Lemma createCitation_start_after_end idx relPath first last why :
  (0 <= last)%Z -> (last < first)%Z ->
  createCitation idx relPath first last why = None.
Proof.
  intros H0 Hlt. unfold createCitation.
  destruct (map_get relPath (files idx)) as [file|] eqn:Hf; [|done].
  rewrite (getSnippet_found idx relPath first last file Hf H0).
  by rewrite line_range_clamp, line_range_empty.
Qed.

(** What [createCitation] answers for an ingested path when the end line
    is not negative. *)
Lemma createCitation_found idx relPath first last why file :
  getFile idx relPath = Some file ->
  (0 <= last)%Z ->
  createCitation idx relPath first last why
  = let text :=
      JS.join newline
        (line_range (lines file) (Z.max 1 first)
                    (Z.min (Z.of_nat (length (lines file))) last)) in
    if String.eqb text EmptyString then None
    else Some {| cit_path := relPath; cit_lineStart := first;
                 cit_lineEnd := last; cit_excerpt := text; reason := why |}.
Proof.
  intros Hf H0. unfold createCitation.
  rewrite (getSnippet_found idx relPath first last file Hf H0).
  unfold getFile in Hf. by rewrite Hf.
Qed.

(** C4, as amended.  For an ingested path and a request whose end line is
    not negative, [createCitation] extracts the lines of the requested
    range clamped to the file, joined by newlines; when that text is empty
    it answers with the failure indicator, otherwise with a citation that
    carries exactly that text, the reason as given and the requested line
    numbers as given. *)
Theorem createCitation_clamped_excerpt idx relPath first last why file :
  getFile idx relPath = Some file ->
  (0 <= last)%Z ->
  createCitation idx relPath first last why
  = let text :=
      JS.join newline
        (line_range (lines file) (Z.max 1 first)
                    (Z.min (Z.of_nat (length (lines file))) last)) in
    if String.eqb text EmptyString then None
    else Some {| cit_path := relPath; cit_lineStart := first;
                 cit_lineEnd := last; cit_excerpt := text; reason := why |}.
Proof. apply createCitation_found. Qed.

Lemma createCitation_clamped_excerpt_witness :
  createCitation demo_index "a.yml" 0 3 (Some "why")
  = Some {| cit_path := "a.yml"; cit_lineStart := 0; cit_lineEnd := 3;
            cit_excerpt := unlines ["metadata:"; "  title: Demo"; "question: |"];
            reason := Some "why" |}.
Proof.
  rewrite (createCitation_clamped_excerpt demo_index "a.yml" 0 3 (Some "why") a_yml).
  - reflexivity.
  - reflexivity.
  - lia.
Defined.

(** C4 as stated fails: on an ingested path, a request whose start lies
    after its end gets the failure indicator, not a citation. *)
Lemma createCitation_not_total :
  is_Some (getFile demo_index "a.yml")
  /\ createCitation demo_index "a.yml" 5 3 None = None.
Proof. split; [by eexists|reflexivity]. Qed.

(** C6 at a negative end line: the start lies after the end, yet a
    citation comes back, because [slice] counts a negative end from the end
    of the line array. *)
Theorem createCitation_negative_end_wraps :
  (3 > -1)%Z
  /\ createCitation demo_index "a.yml" 3 (-1) None
     = Some {| cit_path := "a.yml"; cit_lineStart := 3; cit_lineEnd := -1;
               cit_excerpt := "question: |"; reason := None |}.
Proof. split; [lia|reflexivity]. Qed.

(** C5 as stated fails for citations: the line numbers of a citation are
    the requested ones, also when they lie outside the file. *)
Lemma citation_range_out_of_bounds :
  exists c file,
    createCitation demo_index "a.yml" (-5) 100 None = Some c
    /\ getFile demo_index "a.yml" = Some file
    /\ ~ (1 <= cit_lineStart c
          /\ cit_lineEnd c <= Z.of_nat (length (lines file)))%Z.
Proof.
  eexists _, _. split; [reflexivity|]. split; [reflexivity|].
  simpl. lia.
Qed.

(** ** Ingestion *)

Lemma bind_Returns {A B : Type} (m : outcome A) (k : A -> outcome B) (b : B) :
  m ≫= k = Returns b -> exists a, m = Returns a /\ k a = Returns b.
Proof. destruct m as [a| |]; simpl; intros H; try discriminate. by exists a. Qed.

Lemma Dirent_induction (P : Dirent -> Prop) :
  (forall name read, P (RegularFile name read)) ->
  (forall name entries, Forall P entries -> P (Directory name entries)) ->
  (forall name, P (OtherEntry name)) ->
  forall entry, P entry.
Proof.
  intros Hfile Hdir Hother.
  fix IH 1. intros [name read|name entries|name].
  - apply Hfile.
  - apply Hdir. induction entries as [|e es IHes]; constructor; [apply IH|apply IHes].
  - apply Hother.
Qed.

Section Ingestion.

Variable extractMetadata : string -> Metadata.

Local Abbreviation ingest := (ingest extractMetadata).
Local Abbreviation indexEntry := (indexEntry extractMetadata).

Lemma indexEntry_ingestions ty entry :
  forall dirPath idx,
    indexEntry ty dirPath idx entry
    = fold_left ingest (entry_ingestions ty dirPath entry) idx.
Proof.
  induction entry as [name read|name entries IH|name] using Dirent_induction;
    intros dirPath idx; simpl.
  - by destruct (accepted_name name).
  - revert idx. induction IH as [|e es He _ IHes]; intros idx; simpl; [done|].
    by rewrite fold_left_app, <- He, IHes.
  - done.
Qed.

Lemma indexEntries_ingestions ty dirPath entries idx :
  fold_left (indexEntry ty dirPath) entries idx
  = fold_left ingest (flat_map (entry_ingestions ty dirPath) entries) idx.
Proof.
  revert idx. induction entries as [|e es IH]; intros idx; simpl; [done|].
  by rewrite fold_left_app, <- indexEntry_ingestions, IH.
Qed.

Lemma indexDirectory_ingestions fs idx dirPath ty idx' :
  indexDirectory extractMetadata fs idx dirPath ty = Returns idx' ->
  idx' = fold_left ingest (root_ingestions fs dirPath ty) idx.
Proof.
  unfold indexDirectory, root_ingestions.
  destruct (fs dirPath); intros H; inversion H; subst; simpl; [done|].
  apply indexEntries_ingestions.
Qed.

Lemma ingest_basePath idx ev : basePath (ingest idx ev) = basePath idx.
Proof. destruct ev as [[p [text|]] ty]; reflexivity. Qed.

Lemma ingest_all_basePath evs idx :
  basePath (fold_left ingest evs idx) = basePath idx.
Proof.
  revert idx. induction evs as [|ev evs IH]; intros idx; simpl; [done|].
  by rewrite IH, ingest_basePath.
Qed.

Lemma buildKeywordIndex_files idx idx' :
  buildKeywordIndex idx = Returns idx' ->
  files idx' = files idx /\ examplesByName idx' = examplesByName idx
  /\ basePath idx' = basePath idx.
Proof.
  unfold buildKeywordIndex. intros H.
  apply bind_Returns in H as (ki & _ & H). by inversion H.
Qed.

(** [initialize] on a fresh index stores what the calls of [indexFile]
    store, taken in the order of the walk. *)
Lemma initialize_ingestions fs base idx :
  initialize extractMetadata fs (new_index base) = Returns idx ->
  let ingested := fold_left ingest (ingestion_order fs base) (new_index base) in
  files idx = files ingested /\ examplesByName idx = examplesByName ingested
  /\ basePath idx = base.
Proof.
  unfold initialize. simpl. intros H.
  apply bind_Returns in H as (idx1 & H1 & H).
  apply bind_Returns in H as (idx2 & H2 & H).
  apply bind_Returns in H as (idx3 & H3 & H).
  apply bind_Returns in H as (idx4 & H4 & H).
  inversion H; subst; clear H. simpl.
  apply buildKeywordIndex_files in H4 as (-> & -> & ->).
  apply indexDirectory_ingestions in H1, H2, H3.
  unfold ingestion_order. rewrite !fold_left_app, <- H1, <- H2, <- H3.
  repeat split. subst. by rewrite !ingest_all_basePath.
Qed.

(** *** Classifications *)

Lemma map_set_Forall {V : Type} (P : string * V -> Prop) k v m :
  P (k, v) -> Forall P m -> Forall P (map_set k v m).
Proof.
  intros Hkv. induction 1 as [|[k' v'] m Hx Hm IH]; simpl.
  - by constructor.
  - destruct (String.eqb k' k); constructor; done.
Qed.

Lemma ingest_types idx ev :
  snd ev = example \/ snd ev = template ->
  only_examples_and_templates idx ->
  only_examples_and_templates (ingest idx ev).
Proof.
  destruct ev as [[p [text|]] ty]; simpl; intros Hty Hidx; [|done].
  by apply map_set_Forall.
Qed.

Lemma ingest_all_types evs idx :
  Forall (fun ev : ingestion => snd ev = example \/ snd ev = template) evs ->
  only_examples_and_templates idx ->
  only_examples_and_templates (fold_left ingest evs idx).
Proof.
  intros Hevs. revert idx.
  induction Hevs as [|ev evs Hev _ IH]; intros idx Hidx; simpl; [done|].
  by apply IH, ingest_types.
Qed.

Lemma entry_ingestions_type ty entry :
  forall dirPath,
    Forall (fun ev : ingestion => snd ev = ty) (entry_ingestions ty dirPath entry).
Proof.
  induction entry as [name read|name entries IH|name] using Dirent_induction;
    intros dirPath; simpl.
  - destruct (accepted_name name); by repeat constructor.
  - induction IH as [|e es He _ IHes]; simpl; [constructor|].
    apply Forall_app. split; [apply He|apply IHes].
  - constructor.
Qed.

Lemma root_ingestions_type fs dirPath ty :
  Forall (fun ev : ingestion => snd ev = ty) (root_ingestions fs dirPath ty).
Proof.
  unfold root_ingestions. destruct (fs dirPath) as [| |entries]; try constructor.
  induction entries as [|e es IH]; simpl; [constructor|].
  apply Forall_app. split; [apply entry_ingestions_type|apply IH].
Qed.

Lemma ingestion_order_types fs base :
  Forall (fun ev : ingestion => snd ev = example \/ snd ev = template)
         (ingestion_order fs base).
Proof.
  unfold ingestion_order. rewrite !Forall_app. repeat split.
  - eapply Forall_impl; [apply root_ingestions_type|]. simpl. tauto.
  - eapply Forall_impl; [apply root_ingestions_type|]. simpl. tauto.
  - eapply Forall_impl; [apply root_ingestions_type|]. simpl. tauto.
Qed.

Lemma initialize_types fs base idx :
  initialize extractMetadata fs (new_index base) = Returns idx ->
  only_examples_and_templates idx.
Proof.
  intros H. apply initialize_ingestions in H as (Hfiles & _).
  unfold only_examples_and_templates. rewrite Hfiles.
  apply ingest_all_types; [apply ingestion_order_types|constructor].
Qed.

(** *** The by-name lookup *)

Lemma ingest_example_lookup idx ev name :
  getExampleByName (ingest idx ev) name
  = if registers_example name ev
    then match ev with
         | (filePath, Some text, ty) =>
             Some (file_record extractMetadata (basePath idx) filePath text ty)
         | _ => None
         end
    else getExampleByName idx name.
Proof.
  destruct ev as [[p [text|]] ty]; simpl; [|done].
  unfold getExampleByName. cbn [fst snd]. unfold indexFile. simpl.
  destruct (decide (ty = example)) as [->|Hty]; simpl.
  - destruct (String.eqb_spec (Path.basename p (Path.extname p)) name) as [->|Hne].
    + by rewrite lookup_insert_eq.
    + by rewrite lookup_insert_ne.
  - by rewrite bool_decide_eq_false_2.
Qed.

Lemma ingest_all_example_lookup evs idx name :
  getExampleByName (fold_left ingest evs idx) name
  = match last_example_named extractMetadata (basePath idx) name evs with
    | Some f => Some f
    | None => getExampleByName idx name
    end.
Proof.
  induction evs as [|ev evs IH] using rev_ind; [done|].
  rewrite fold_left_app. simpl. rewrite ingest_example_lookup, IH.
  unfold last_example_named. rewrite rev_unit. simpl.
  rewrite ingest_all_basePath.
  destruct (registers_example name ev) eqn:Hreg; [|done].
  by destruct ev as [[p [text|]] ty].
Qed.

End Ingestion.

(** *** Statistics and the [docs] scope *)

Lemma count_file_docs fs ex dc tp :
  Forall (fun f => type f = example \/ type f = template) fs ->
  snd (fst (fold_left count_file fs (ex, dc, tp))) = dc.
Proof.
  intros H. revert ex tp. induction H as [|f fs Hf _ IH]; intros ex tp; [done|].
  simpl. destruct Hf as [-> | ->]; apply IH.
Qed.

Lemma getStats_no_docs idx :
  only_examples_and_templates idx -> st_docs (getStats idx) = 0%nat.
Proof.
  intros H. unfold getStats.
  pose proof (count_file_docs (getAllFiles idx) 0 0 0) as Hc.
  destruct (fold_left count_file (getAllFiles idx) (0, 0, 0)%nat) as [[ex dc] tp].
  simpl in *. apply Hc. unfold getAllFiles.
  apply Forall_map. exact H.
Qed.

Lemma slice_nil {A : Type} (a b : Z) : JS.slice (@nil A) a b = [].
Proof. unfold JS.slice. by rewrite drop_nil, take_nil. Qed.

Lemma search_file_out_of_scope sc globs terms results entry :
  matchesScope (type (snd entry)) sc = false ->
  search_file sc globs terms results entry = Returns results.
Proof. unfold search_file. by intros ->. Qed.

Lemma search_docs_scope_empty idx query limit globs :
  only_examples_and_templates idx ->
  search idx query {| maxResults := limit; scope := Some docs; fileGlobs := globs |}
  = Returns [].
Proof.
  intros H. unfold search. simpl.
  assert (foldM (search_file docs globs (query_terms query)) (files idx) []
          = Returns []) as ->.
  { induction H as [|e es He _ IH]; [done|].
    cbn [foldM]. rewrite search_file_out_of_scope; [exact IH|].
    by destruct He as [-> | ->]. }
  simpl. by rewrite slice_nil.
Qed.

(** C9.  After [initialize] has completed on a fresh index, every file of
    the file table is classified [example] or [template]; hence [getStats]
    reports no [doc] file, and a search with scope [docs] returns the empty
    list whatever the query, the limit and the globs. *)
Theorem initialize_registers_no_docs extractMetadata fs base idx :
  initialize extractMetadata fs (new_index base) = Returns idx ->
  Forall (fun e => type (snd e) = example \/ type (snd e) = template) (files idx)
  /\ st_docs (getStats idx) = 0%nat
  /\ forall query limit globs,
       search idx query
         {| maxResults := limit; scope := Some docs; fileGlobs := globs |}
       = Returns [].
Proof.
  intros H. apply initialize_types in H. split; [exact H|]. split.
  - by apply getStats_no_docs.
  - intros. by apply search_docs_scope_empty.
Qed.

Lemma demo_initialize_returns :
  initialize no_metadata demo_fs (new_index "/repo") = Returns demo_initialized.
Proof. vm_compute; reflexivity. Qed.

Lemma initialize_registers_no_docs_witness :
  initialize no_metadata demo_fs (new_index "/repo") = Returns demo_initialized
  /\ length (files demo_initialized) = 4%nat
  /\ st_docs (getStats demo_initialized) = 0%nat
  /\ search demo_initialized "question"
       {| maxResults := None; scope := Some docs; fileGlobs := None |}
     = Returns [].
Proof.
  destruct (initialize_registers_no_docs no_metadata demo_fs "/repo"
              demo_initialized) as (_ & Hdocs & Hsearch).
  - vm_compute; reflexivity.
  - split; [vm_compute; reflexivity|]. split; [vm_compute; reflexivity|].
    split; [exact Hdocs|apply Hsearch].
Defined.

(** C10.  The by-name lookup keeps one entry per base name: after
    [initialize], [getExampleByName] answers with the file of the last call
    of [indexFile] that registered an example under that base name, the
    examples root being walked before the demo questions root. *)
Theorem getExampleByName_last_ingested extractMetadata fs base idx name :
  initialize extractMetadata fs (new_index base) = Returns idx ->
  getExampleByName idx name
  = last_example_named extractMetadata base name (ingestion_order fs base).
Proof.
  intros H. apply initialize_ingestions in H as (_ & Hnames & _).
  unfold getExampleByName at 1. rewrite Hnames.
  pose proof (ingest_all_example_lookup extractMetadata
                (ingestion_order fs base) (new_index base) name) as Hl.
  unfold getExampleByName at 1 in Hl. rewrite Hl. simpl.
  by destruct (last_example_named _ _ _ _).
Qed.

Lemma getExampleByName_last_ingested_witness :
  initialize no_metadata demo_fs (new_index "/repo") = Returns demo_initialized
  /\ option_map content (getExampleByName demo_initialized "a")
     = Some "question: demo"
  /\ option_map path (getExampleByName demo_initialized "a")
     = Some "/repo/docassemble_demo/docassemble/demo/data/questions/a.yml".
Proof.
  split; [vm_compute; reflexivity|].
  rewrite (getExampleByName_last_ingested no_metadata demo_fs "/repo"
             demo_initialized "a").
  - split; vm_compute; reflexivity.
  - vm_compute; reflexivity.
Defined.

(** ** Lists *)

Lemma elem_of_map {A B : Type} (f : A -> B) (l : list A) (y : B) :
  y ∈ map f l <-> exists x, y = f x /\ x ∈ l.
Proof. change (map f l) with (f <$> l). apply list_elem_of_fmap. Qed.

(** ** Range keys *)

Lemma string_of_Z_inj (a b : Z) : JS.string_of_Z a = JS.string_of_Z b -> a = b.
Proof.
  unfold JS.string_of_Z. intros H.
  assert (forall z, NilZero.int_of_string (NilZero.string_of_int (Z.to_int z))
                    = Some (Z.to_int z)) as Hisi.
  { intros z. apply NilZero.isi; destruct z as [|p|p]; simpl; try discriminate;
      intros [= Hp]; by apply Unsigned.to_uint_nonnil in Hp. }
  apply DecimalZ.to_int_inj.
  pose proof (Hisi a) as Ha. rewrite H, Hisi in Ha. by inversion Ha.
Qed.

Lemma append_inj_r (p s t : string) : p +:+ s = p +:+ t -> s = t.
Proof. induction p as [|c p IH]; simpl; [done|]. intros [= H]. by apply IH. Qed.

(** Among results of one file, the range key identifies the bucket. *)
Lemma rangeKey_same_file (a b : SearchResult) :
  sr_relativePath a = sr_relativePath b ->
  rangeKey a = rangeKey b <-> bucket a = bucket b.
Proof.
  unfold rangeKey. intros ->. split.
  - intros H. by apply append_inj_r, append_inj_r, string_of_Z_inj in H.
  - by intros ->.
Qed.

(** ** Sorting by score *)

Lemma insert_by_score_perm r l : insert_by_score r l ≡ₚ r :: l.
Proof.
  induction l as [|r' l IH]; simpl; [done|].
  destruct (Qle_bool (score r') (score r)); [done|].
  rewrite IH. apply perm_swap.
Qed.

Lemma sort_by_score_perm l : sort_by_score l ≡ₚ l.
Proof.
  induction l as [|r l IH]; simpl; [done|].
  by rewrite insert_by_score_perm, IH.
Qed.

Lemma insert_by_score_sorted r l :
  StronglySorted by_score_desc l -> StronglySorted by_score_desc (insert_by_score r l).
Proof.
  induction 1 as [|r' l Hl IH Hr']; simpl.
  - by repeat constructor.
  - destruct (Qle_bool (score r') (score r)) eqn:Hle.
    + apply Qle_bool_iff in Hle. constructor; [by constructor|].
      constructor; [exact Hle|].
      eapply Forall_impl; [exact Hr'|]. unfold by_score_desc. simpl.
      intros x Hx. by eapply Qle_trans.
    + constructor; [exact IH|].
      rewrite insert_by_score_perm. constructor; [|exact Hr'].
      unfold by_score_desc. apply Qlt_le_weak, Qnot_le_lt.
      intros Hc. apply Qle_bool_iff in Hc. congruence.
Qed.

Lemma sort_by_score_sorted l : StronglySorted by_score_desc (sort_by_score l).
Proof.
  induction l as [|r l IH]; simpl; [constructor|].
  by apply insert_by_score_sorted.
Qed.

Lemma sort_by_score_elem r l : r ∈ sort_by_score l <-> r ∈ l.
Proof. by rewrite sort_by_score_perm. Qed.

(** ** Deduplication *)

Lemma keep_first_elem seen l r :
  r ∈ keep_first_per_range seen l -> r ∈ l /\ rangeKey r ∉ seen.
Proof.
  revert seen. induction l as [|x l IH]; intros seen; simpl.
  - by intros ?%elem_of_nil.
  - destruct (decide (rangeKey x ∈ seen)) as [Hin|Hout].
    + intros H. destruct (IH _ H) as [? ?]. split; [by right|done].
    + intros [->|H]%elem_of_cons; [split; [by left|done]|].
      destruct (IH _ H) as [? Hr]. split; [by right|]. set_solver.
Qed.

Lemma keep_first_NoDup seen l :
  NoDup (map rangeKey (keep_first_per_range seen l)).
Proof.
  revert seen. induction l as [|x l IH]; intros seen; simpl; [constructor|].
  destruct (decide (rangeKey x ∈ seen)) as [Hin|Hout]; [apply IH|].
  simpl. constructor; [|apply IH].
  intros (y & Hy & Hin)%elem_of_map.
  apply keep_first_elem in Hin as [_ Hn]. set_solver.
Qed.

(** In a list sorted by descending score, every element whose key is new
    has a kept representative with the same key and at least its score. *)
Lemma keep_first_representative seen l h :
  StronglySorted by_score_desc l ->
  h ∈ l -> rangeKey h ∉ seen ->
  exists s, s ∈ keep_first_per_range seen l
            /\ rangeKey s = rangeKey h /\ (score h <= score s)%Q.
Proof.
  intros Hs. revert seen.
  induction Hs as [|x l Hl IH Hx]; intros seen Hh Hseen.
  - by apply elem_of_nil in Hh.
  - simpl. destruct (decide (rangeKey x ∈ seen)) as [Hin|Hout].
    + apply elem_of_cons in Hh as [->|Hh]; [done|]. by apply IH.
    + destruct (decide (rangeKey h = rangeKey x)) as [Heq|Hne].
      * exists x. split; [by left|]. split; [done|].
        apply elem_of_cons in Hh as [->|Hh]; [apply Qle_refl|].
        rewrite Forall_forall in Hx. by apply Hx.
      * apply elem_of_cons in Hh as [->|Hh]; [done|].
        destruct (IH ({[rangeKey x]} ∪ seen) Hh) as (s & Hs' & Hk & Hsc);
          [set_solver|].
        exists s. split; [by right|done].
Qed.

(** ** Loops that may throw *)

Lemma foldM_ext {A S : Type} (body1 body2 : S -> A -> outcome S) xs s :
  (forall s x, body1 s x = body2 s x) ->
  foldM body1 xs s = foldM body2 xs s.
Proof.
  intros H. revert s. induction xs as [|x xs IH]; intros s; simpl; [done|].
  rewrite H. destruct (body2 s x); simpl; [apply IH|done|done].
Qed.

(** A loop that appends what each round finds returns exactly when every
    round returns, with the concatenation of the finds. *)
Lemma foldM_collect {A B : Type} (f : A -> outcome (list B)) xs acc res :
  foldM (fun results x => found ← f x; mret (results ++ found)%list) xs acc
  = Returns res
  <-> exists founds,
        Forall2 (fun x found => f x = Returns found) xs founds
        /\ res = (acc ++ concat founds)%list.
Proof.
  revert acc. induction xs as [|x xs IH]; intros acc; simpl.
  - split.
    + intros [= <-]. exists []. split; [constructor|]. simpl. by rewrite app_nil_r.
    + intros (founds & HF & ->). inversion HF; subst. simpl. by rewrite app_nil_r.
  - destruct (f x) as [found| |] eqn:Hfx; simpl.
    + rewrite IH. split.
      * intros (founds & HF & ->). exists (found :: founds).
        split; [by constructor|]. simpl. by rewrite app_assoc.
      * intros (founds & HF & ->). inversion HF as [|? found' ? founds' Hf' HF']; subst.
        rewrite Hfx in Hf'. inversion Hf'; subst.
        exists founds'. split; [done|]. simpl. by rewrite app_assoc.
    + split; [done|]. intros (founds & HF & _). inversion HF; subst. congruence.
    + split; [done|]. intros (founds & HF & _). inversion HF; subst. congruence.
Qed.

(** ** The hits of a file *)

Lemma line_hits_collect file terms hits :
  line_hits file terms = Returns hits
  <-> exists hs,
        Forall2 (fun i h => line_hit file terms i = Returns h)
                (seq 0 (length (lines file))) hs
        /\ hits = concat (map option_list hs).
Proof.
  unfold line_hits.
  rewrite (foldM_ext _
    (fun results i => found ← (hit ← line_hit file terms i; mret (option_list hit));
                      mret (results ++ found)%list)).
  2:{ intros s i. destruct (line_hit file terms i) as [[r|]| |]; simpl; try done.
      by rewrite app_nil_r. }
  rewrite foldM_collect. simpl. split.
  - intros (founds & HF & ->).
    assert (exists hs, Forall2 (fun i h => line_hit file terms i = Returns h)
                         (seq 0 (length (lines file))) hs
                       /\ founds = map option_list hs) as (hs & Hhs & ->).
    { induction HF as [|i found ks founds Hi _ (hs & IH1 & ->)].
      - exists []. split; [constructor|done].
      - destruct (line_hit file terms i) as [h| |] eqn:Hh; simpl in Hi; try done.
        inversion Hi; subst. exists (h :: hs). split; [by constructor|done]. }
    by exists hs.
  - intros (hs & HF & ->). exists (map option_list hs). split; [|done].
    induction HF as [|i h ks hs Hi _ IH]; simpl; constructor; [|done].
    by rewrite Hi.
Qed.

Lemma elem_of_concat_option_list {A : Type} (hs : list (option A)) (r : A) :
  r ∈ concat (map option_list hs) <-> Some r ∈ hs.
Proof.
  induction hs as [|h hs IH]; simpl.
  - split; intros H; by apply elem_of_nil in H.
  - rewrite elem_of_app, elem_of_cons, IH.
    destruct h as [a|]; simpl.
    + rewrite elem_of_cons. split.
      * intros [[->|H]|H]; [by left|by apply elem_of_nil in H|by right].
      * intros [[= ->]|H]; [left; by left|by right].
    + split.
      * intros [H|H]; [by apply elem_of_nil in H|by right].
      * intros [H|H]; [done|by right].
Qed.

(** Every hit comes from one line of the file. *)
Lemma line_hits_elem file terms hits r :
  line_hits file terms = Returns hits ->
  r ∈ hits <->
  exists i, (i < length (lines file))%nat /\ line_hit file terms i = Returns (Some r).
Proof.
  intros (hs & HF & ->)%line_hits_collect.
  rewrite elem_of_concat_option_list. split.
  - intros (k & Hk)%list_elem_of_lookup.
    destruct (Forall2_lookup_r _ _ _ _ _ HF Hk) as (i & Hi & Hr).
    apply lookup_seq in Hi as [-> Hlt]. by exists k.
  - intros (i & Hlt & Hr).
    assert (seq 0 (length (lines file)) !! i = Some i) as Hi
      by (by apply lookup_seq).
    destruct (Forall2_lookup_l _ _ _ _ _ HF Hi) as (h & Hh & Hr').
    rewrite Hr in Hr'. inversion Hr'; subst. by eapply list_elem_of_lookup_2.
Qed.

Lemma findMatches_spec file terms survivors :
  findMatches file terms = Returns survivors
  <-> exists hits,
        line_hits file terms = Returns hits
        /\ survivors = keep_first_per_range ∅ (sort_by_score hits).
Proof.
  unfold findMatches. destruct (line_hits file terms) as [hits| |]; simpl.
  - split; [intros [= <-]; by exists hits|by intros (? & [= <-] & ->)].
  - split; [done|by intros (? & ? & _)].
  - split; [done|by intros (? & ? & _)].
Qed.

(** The shape of the hit of line [i]. *)
Lemma line_hit_Some file terms i r :
  line_hit file terms i = Returns (Some r) ->
  exists s m,
    foldM (score_term (JS.toLowerCase (default EmptyString (lines file !! i))))
          terms (0%Q, 0%nat) = Returns (s, m)
    /\ (0 < m)%nat
    /\ r = {| sr_path := path file; sr_relativePath := relativePath file;
              lineStart := Z.max 0 (Z.of_nat i - 2) + 1;
              lineEnd := Z.min (Z.of_nat (length (lines file)) - 1) (Z.of_nat i + 5) + 1;
              excerpt := JS.join newline
                           (JS.slice (lines file) (Z.max 0 (Z.of_nat i - 2))
                              (Z.min (Z.of_nat (length (lines file)) - 1)
                                     (Z.of_nat i + 5) + 1));
              score := add_title_bonus file terms
                         (s + Q_of_nat m / Q_of_nat (length terms) * 10)%Q;
              sr_type := type file |}.
Proof.
  unfold line_hit.
  destruct (foldM _ terms (0%Q, 0%nat)) as [[s m]| |]; simpl; try done.
  destruct (Nat.ltb_spec 0 m) as [Hm|Hm]; simpl; [|done].
  intros [= <-]. by exists s, m.
Qed.

(** ** The files that a search scans *)

Lemma search_file_scanned sc globs terms results entry :
  scanned sc globs entry ->
  search_file sc globs terms results entry
  = found ← findMatches (snd entry) terms; mret (results ++ found)%list.
Proof.
  intros [Hsc Hg]. unfold search_file. rewrite Hsc. simpl.
  destruct globs as [gs|]; [by rewrite Hg|done].
Qed.

Lemma search_file_acc sc globs terms results entry :
  search_file sc globs terms results entry
  = found ← search_file sc globs terms [] entry; mret (results ++ found)%list.
Proof.
  unfold search_file.
  destruct (negb (matchesScope (type entry.2) sc)); simpl; [by rewrite app_nil_r|].
  destruct (match globs with Some gs => matchesGlobs entry.1 gs | None => mret true end)
    as [[|]| |]; simpl; try done; [|by rewrite app_nil_r].
  by destruct (findMatches entry.2 terms).
Qed.

Lemma search_file_found sc globs terms entry found :
  search_file sc globs terms [] entry = Returns found ->
  found = [] \/ (scanned sc globs entry /\ findMatches (snd entry) terms = Returns found).
Proof.
  unfold search_file, scanned.
  destruct (matchesScope (type entry.2) sc); simpl; [|intros [= <-]; by left].
  destruct globs as [gs|]; simpl.
  - destruct (matchesGlobs entry.1 gs) as [[|]| |]; simpl; try done.
    + destruct (findMatches entry.2 terms); simpl; try done. intros [= <-]. by right.
    + intros [= <-]. by left.
  - destruct (findMatches entry.2 terms); simpl; try done. intros [= <-]. by right.
Qed.

Lemma search_spec idx query options results :
  search idx query options = Returns results
  <-> exists founds,
        Forall2 (fun entry found =>
                   search_file (default docs_and_examples (scope options))
                     (fileGlobs options) (query_terms query) [] entry
                   = Returns found)
                (files idx) founds
        /\ results = JS.slice (sort_by_score (concat founds)) 0
                              (default 8%Z (maxResults options)).
Proof.
  unfold search.
  rewrite (foldM_ext _ _ _ _ (search_file_acc _ _ _)).
  destruct (foldM _ (files idx) []) as [all| |] eqn:Hall; simpl.
  - apply foldM_collect in Hall as (founds & HF & ->). simpl. split.
    + intros [= <-]. by exists founds.
    + intros (founds' & HF' & ->).
      assert (founds' = founds) as ->; [|done].
      clear -HF HF'. revert founds' HF'.
      induction HF as [|e f es fs He _ IH]; intros founds' HF';
        inversion HF'; subst; try done.
      f_equal; [congruence|by apply IH].
  - split; [done|]. intros (founds & HF & _).
    assert (foldM (fun results x =>
                     found ← search_file (default docs_and_examples (scope options))
                               (fileGlobs options) (query_terms query) [] x;
                     mret (results ++ found)%list) (files idx) []
            = Returns ([] ++ concat founds)%list) as Hc
      by (apply foldM_collect; by exists founds).
    congruence.
  - split; [done|]. intros (founds & HF & _).
    assert (foldM (fun results x =>
                     found ← search_file (default docs_and_examples (scope options))
                               (fileGlobs options) (query_terms query) [] x;
                     mret (results ++ found)%list) (files idx) []
            = Returns ([] ++ concat founds)%list) as Hc
      by (apply foldM_collect; by exists founds).
    congruence.
Qed.

(** ** One result per file and bucket *)

Lemma slice_sublist {A : Type} (l : list A) (a b : Z) : JS.slice l a b `sublist_of` l.
Proof.
  unfold JS.slice. etrans; [apply sublist_take|apply sublist_drop].
Qed.

Lemma slice_elem {A : Type} (l : list A) (a b : Z) (x : A) :
  x ∈ JS.slice l a b -> x ∈ l.
Proof. intros H. eapply elem_of_sublist; [exact H|apply slice_sublist]. Qed.

Lemma elem_of_concat {A : Type} (x : A) (ls : list (list A)) :
  x ∈ concat ls <-> exists l, x ∈ l /\ l ∈ ls.
Proof.
  induction ls as [|l ls IH]; simpl.
  - split; [by intros ?%elem_of_nil|]. by intros (l & _ & ?%elem_of_nil).
  - rewrite elem_of_app, IH. split.
    + intros [H|(l' & H & Hin)]; [exists l; split; [done|by left]|].
      exists l'. split; [done|by right].
    + intros (l' & H & [->|Hin]%elem_of_cons); [by left|right; by exists l'].
Qed.

Lemma NoDup_map_sublist {A B : Type} (f : A -> B) (l k : list A) :
  l `sublist_of` k -> NoDup (map f k) -> NoDup (map f l).
Proof.
  intros Hs Hk. change (NoDup (f <$> l)). eapply sublist_NoDup; [exact Hk|].
  change (map f k) with (f <$> k). by apply fmap_sublist.
Qed.

Lemma NoDup_map_perm {A B : Type} (f : A -> B) (l k : list A) :
  l ≡ₚ k -> NoDup (map f k) -> NoDup (map f l).
Proof.
  intros Hp. change (NoDup (f <$> k) -> NoDup (f <$> l)). by rewrite Hp.
Qed.

(** Keys that are distinct under [f] are distinct under [g] when [g]
    determines [f] on the list. *)
Lemma NoDup_map_finer {A B C : Type} (f : A -> B) (g : A -> C) (l : list A) :
  (forall x y, x ∈ l -> y ∈ l -> g x = g y -> f x = f y) ->
  NoDup (map f l) -> NoDup (map g l).
Proof.
  induction l as [|x l IH]; simpl; intros Hfg Hf; [constructor|].
  apply NoDup_cons in Hf as [Hx Hl]. constructor.
  - intros (y & Hy & Hin)%elem_of_map. apply Hx, elem_of_map.
    exists y. split; [|done]. apply Hfg; [by left|by right|done].
  - apply IH; [|done]. intros y z Hy Hz. apply Hfg; by right.
Qed.

Lemma hits_same_file file terms hits r :
  line_hits file terms = Returns hits -> r ∈ hits ->
  sr_relativePath r = relativePath file.
Proof.
  intros Hh Hr. apply (line_hits_elem _ _ _ _ Hh) in Hr as (i & _ & Hi).
  apply line_hit_Some in Hi as (s & m & _ & _ & ->). done.
Qed.

(** The deduplication inside one file: the survivors are hits, no two of
    them share a bucket, and every hit has a survivor of its bucket that
    scores at least as high. *)
Lemma findMatches_dedup file terms hits survivors :
  line_hits file terms = Returns hits ->
  findMatches file terms = Returns survivors ->
  NoDup (map bucket survivors)
  /\ (forall s, s ∈ survivors -> s ∈ hits)
  /\ (forall h, h ∈ hits ->
        exists s, s ∈ survivors /\ bucket s = bucket h /\ (score h <= score s)%Q).
Proof.
  intros Hh (hits' & Hh' & ->)%findMatches_spec.
  rewrite Hh in Hh'. inversion Hh'; subst hits'; clear Hh'.
  assert (forall s, s ∈ keep_first_per_range ∅ (sort_by_score hits) -> s ∈ hits)
    as Hsub.
  { intros s Hs. apply keep_first_elem in Hs as [Hs _].
    by apply sort_by_score_elem. }
  split; [|split; [exact Hsub|]].
  - apply (NoDup_map_finer rangeKey); [|apply keep_first_NoDup].
    intros x y Hx Hy Hb. apply Hsub in Hx, Hy. apply rangeKey_same_file; [|done].
    by rewrite (hits_same_file _ _ _ _ Hh Hx), (hits_same_file _ _ _ _ Hh Hy).
  - intros h Hin.
    destruct (keep_first_representative ∅ (sort_by_score hits) h)
      as (s & Hs & Hk & Hsc).
    + apply sort_by_score_sorted.
    + by apply sort_by_score_elem.
    + set_solver.
    + exists s. split; [done|]. split; [|done].
      apply rangeKey_same_file; [|done].
      by rewrite (hits_same_file _ _ _ _ Hh (Hsub _ Hs)),
                 (hits_same_file _ _ _ _ Hh Hin).
Qed.

Lemma findMatches_line_hits file terms survivors :
  findMatches file terms = Returns survivors ->
  exists hits, line_hits file terms = Returns hits.
Proof. intros (hits & Hh & _)%findMatches_spec. by exists hits. Qed.

(** What one file contributes to a search: results of that file, one per
    bucket. *)
Lemma search_file_found_keys sc globs terms entry found :
  search_file sc globs terms [] entry = Returns found ->
  NoDup (map bucket found)
  /\ forall r, r ∈ found -> sr_relativePath r = relativePath (snd entry).
Proof.
  intros [->|[_ Hf]]%search_file_found.
  - split; [constructor|]. by intros r ?%elem_of_nil.
  - destruct (findMatches_line_hits _ _ _ Hf) as (hits & Hh).
    destruct (findMatches_dedup _ _ _ _ Hh Hf) as (Hnd & Hsub & _).
    split; [done|]. intros r Hr. eapply hits_same_file; [exact Hh|by apply Hsub].
Qed.

Lemma founds_NoDup sc globs terms entries founds :
  NoDup (map fst entries) ->
  Forall (fun e => relativePath (snd e) = fst e) entries ->
  Forall2 (fun entry found => search_file sc globs terms [] entry = Returns found)
          entries founds ->
  NoDup (map file_bucket (concat founds))
  /\ forall r, r ∈ concat founds -> sr_relativePath r ∈ map fst entries.
Proof.
  intros Hnd Hwf HF. induction HF as [|e found es founds He _ IH]; simpl.
  - split; [constructor|]. by intros r ?%elem_of_nil.
  - simpl in Hnd. apply NoDup_cons in Hnd as [Hne Hnd].
    apply Forall_cons in Hwf as [Hrel Hwf].
    destruct (IH Hnd Hwf) as [IH1 IH2].
    destruct (search_file_found_keys _ _ _ _ _ He) as [Hb Hsame].
    split.
    + rewrite map_app. apply NoDup_app. split; [|split; [|done]].
      * apply (NoDup_map_finer bucket); [|done].
        unfold file_bucket. by intros x y _ _ [= _ ?].
      * intros k (x & -> & Hx)%elem_of_map (y & Hk & Hy)%elem_of_map.
        apply Hne. unfold file_bucket in Hk. injection Hk as Hrel' _.
        rewrite <- Hrel, <- (Hsame _ Hx), Hrel'. by apply IH2.
    + intros r [Hr|Hr]%elem_of_app.
      * rewrite (Hsame _ Hr), Hrel. by left.
      * right. by apply IH2.
Qed.

Lemma map_get_elem {V : Type} (m : list (string * V)) k v :
  NoDup (map fst m) -> (k, v) ∈ m -> map_get k m = Some v.
Proof.
  induction m as [|[k' v'] m IH]; simpl; intros Hnd Hin.
  - by apply elem_of_nil in Hin.
  - apply NoDup_cons in Hnd as [Hne Hnd].
    apply elem_of_cons in Hin as [[= -> ->]|Hin].
    + by rewrite String.eqb_refl.
    + destruct (String.eqb_spec k' k) as [->|_]; [|by apply IH].
      exfalso. apply Hne, elem_of_map. by exists (k, v).
Qed.

(** Every result of a search is a survivor of [findMatches] on a scanned
    file of the table. *)
Lemma search_result_origin idx query options results r :
  search idx query options = Returns results ->
  r ∈ results ->
  exists entry survivors,
    entry ∈ files idx
    /\ scanned (default docs_and_examples (scope options)) (fileGlobs options) entry
    /\ findMatches (snd entry) (query_terms query) = Returns survivors
    /\ r ∈ survivors.
Proof.
  intros (founds & HF & ->)%search_spec Hr.
  apply slice_elem, sort_by_score_elem, elem_of_concat in Hr
    as (found & Hr & Hfound).
  apply list_elem_of_lookup in Hfound as (k & Hk).
  destruct (Forall2_lookup_r _ _ _ _ _ HF Hk) as (entry & He & Hsf).
  apply search_file_found in Hsf as [->|[Hsc Hf]]; [by apply elem_of_nil in Hr|].
  exists entry, found. split; [by eapply list_elem_of_lookup_2|done].
Qed.

Lemma slice_all {A : Type} (l : list A) (limit : Z) :
  (Z.of_nat (length (JS.slice l 0 limit)) < limit)%Z -> JS.slice l 0 limit = l.
Proof.
  destruct (Z.ltb_spec limit 0) as [Hneg|Hpos]; [lia|].
  rewrite slice_nonneg by lia. simpl. rewrite drop_0, Nat.sub_0_r.
  rewrite length_take. intros H. apply take_ge. lia.
Qed.

Lemma index_of_wf base fs :
  NoDup (map relativePath fs) -> index_wf (index_of base fs).
Proof.
  intros H. split; simpl.
  - rewrite map_map. simpl. exact H.
  - apply Forall_forall. by intros e (f & -> & _)%elem_of_map.
Qed.

(** C2.  In the list that [search] returns, no two results share a file
    and the quotient [floor(lineStart / 10)] of their window start, and
    every result is a survivor of the deduplication of its file.  That
    deduplication keeps, for every quotient [floor(lineStart / 10)] met
    among the hits of the file, exactly one hit with that quotient, one with
    the highest score; hits with different quotients are kept apart, and all
    survivors are in the returned list whenever it is shorter than
    [maxResults].  The quotient is written out in the statement, not taken
    from the key that the code builds. *)
Theorem search_one_result_per_bucket idx query options results :
  index_wf idx ->
  search idx query options = Returns results ->
  let sc := default docs_and_examples (scope options) in
  let terms := query_terms query in
  NoDup (map (fun r => (sr_relativePath r, (lineStart r / 10)%Z)) results)
  /\ (forall r, r ∈ results ->
        exists entry survivors,
          entry ∈ files idx
          /\ findMatches (snd entry) terms = Returns survivors
          /\ r ∈ survivors)
  /\ (forall entry hits,
        entry ∈ files idx -> scanned sc (fileGlobs options) entry ->
        line_hits (snd entry) terms = Returns hits ->
        exists survivors,
          findMatches (snd entry) terms = Returns survivors
          /\ NoDup (map (fun s => (lineStart s / 10)%Z) survivors)
          /\ (forall s, s ∈ survivors -> s ∈ hits)
          /\ (forall h, h ∈ hits ->
                exists s, s ∈ survivors
                          /\ (lineStart s / 10 = lineStart h / 10)%Z
                          /\ (score h <= score s)%Q)
          /\ ((Z.of_nat (length results) < default 8%Z (maxResults options))%Z ->
              forall s, s ∈ survivors -> s ∈ results)).
Proof.
  intros [Hnd Hwf] Hsearch sc terms. split; [|split].
  - apply search_spec in Hsearch as (founds & HF & ->).
    change (fun r => (sr_relativePath r, (lineStart r / 10)%Z)) with file_bucket.
    eapply NoDup_map_sublist; [apply slice_sublist|].
    eapply NoDup_map_perm; [apply sort_by_score_perm|].
    by eapply founds_NoDup.
  - intros r Hr.
    destruct (search_result_origin _ _ _ _ _ Hsearch Hr)
      as (entry & survivors & He & _ & Hf & Hin).
    by exists entry, survivors.
  - intros entry hits He Hsc Hh.
    exists (keep_first_per_range ∅ (sort_by_score hits)).
    assert (findMatches entry.2 terms
            = Returns (keep_first_per_range ∅ (sort_by_score hits))) as Hf
      by (apply findMatches_spec; by exists hits).
    destruct (findMatches_dedup _ _ _ _ Hh Hf) as (H1 & H2 & H3).
    split; [done|]. split; [exact H1|]. split; [done|]. split; [exact H3|].
    intros Hshort s Hs.
    apply search_spec in Hsearch as (founds & HF & ->).
    rewrite slice_all by done. apply sort_by_score_elem, elem_of_concat.
    exists (keep_first_per_range ∅ (sort_by_score hits)). split; [done|].
    apply list_elem_of_lookup in He as (k & Hk).
    destruct (Forall2_lookup_l _ _ _ _ _ HF Hk) as (found & Hfound & Hsf).
    rewrite (search_file_scanned _ _ _ _ _ Hsc) in Hsf.
    fold terms in Hsf. rewrite Hf in Hsf. simpl in Hsf. inversion Hsf; subst.
    by eapply list_elem_of_lookup_2.
Qed.

Lemma buckets_index_wf : index_wf buckets_index.
Proof. apply index_of_wf. simpl. apply NoDup_singleton. Qed.

Lemma search_one_result_per_bucket_witness :
  exists hits results,
    line_hits buckets_yml (query_terms "question") = Returns hits
    /\ map lineStart hits = [2; 9; 10]%Z
    /\ search buckets_index "question" no_options = Returns results
    /\ map (fun r => (lineStart r, lineEnd r)) results = [(2, 9); (10, 13)]%Z
    /\ NoDup (map (fun r => (sr_relativePath r, (lineStart r / 10)%Z)) results).
Proof.
  eexists _, _. split; [vm_compute; reflexivity|]. split; [reflexivity|].
  split; [vm_compute; reflexivity|]. split; [reflexivity|].
  eapply (search_one_result_per_bucket buckets_index "question" no_options).
  - apply buckets_index_wf.
  - vm_compute; reflexivity.
Defined.

(** ** Line ranges of results and citations *)

Lemma hit_line_range file terms i r :
  (i < length (lines file))%nat ->
  line_hit file terms i = Returns (Some r) ->
  (1 <= lineStart r <= lineEnd r)%Z
  /\ (lineEnd r <= Z.of_nat (length (lines file)))%Z
  /\ excerpt r
     = JS.join newline (line_range (lines file) (lineStart r) (lineEnd r)).
Proof.
  intros Hi (s & m & _ & _ & ->)%line_hit_Some. simpl.
  split; [lia|]. split; [lia|].
  by rewrite slice_line_range by lia.
Qed.

(** C5, as amended.  In an index whose file table is well formed, every
    result of [search] refers to a file of the table, carries a 1-based
    inclusive line range inside that file's stored line sequence, and its
    excerpt is exactly the lines of that range.  Every citation returned
    for a request with a non-negative end line carries the path and the
    line numbers as requested, and its excerpt is exactly the stored lines
    whose numbers lie between the requested start and end. *)
Theorem results_and_citations_quote_stored_lines idx :
  index_wf idx ->
  (forall query options results r,
     search idx query options = Returns results -> r ∈ results ->
     exists file,
       getFile idx (sr_relativePath r) = Some file
       /\ (1 <= lineStart r <= lineEnd r)%Z
       /\ (lineEnd r <= Z.of_nat (length (lines file)))%Z
       /\ excerpt r
          = JS.join newline (line_range (lines file) (lineStart r) (lineEnd r)))
  /\ (forall relPath first last why c,
        (0 <= last)%Z ->
        createCitation idx relPath first last why = Some c ->
        exists file,
          getFile idx relPath = Some file
          /\ cit_path c = relPath
          /\ cit_lineStart c = first /\ cit_lineEnd c = last
          /\ cit_excerpt c
             = JS.join newline (line_range (lines file) first last)).
Proof.
  intros [Hnd Hwf]. split.
  - intros query options results r Hsearch Hr.
    destruct (search_result_origin _ _ _ _ _ Hsearch Hr)
      as ([k file] & survivors & He & _ & Hf & Hin).
    exists file.
    destruct (findMatches_line_hits _ _ _ Hf) as (hits & Hh).
    destruct (findMatches_dedup _ _ _ _ Hh Hf) as (_ & Hsub & _).
    apply Hsub in Hin. simpl in *.
    rewrite (hits_same_file file _ _ _ Hh Hin).
    apply (line_hits_elem _ _ _ _ Hh) in Hin as (i & Hi & Hhit).
    split; [|by eapply hit_line_range].
    rewrite Forall_forall in Hwf. pose proof (Hwf _ He) as Hk. simpl in Hk.
    rewrite Hk. by apply map_get_elem.
  - intros relPath first last why c Hlast Hc.
    destruct (getFile idx relPath) as [file|] eqn:Hfile.
    + exists file. split; [done|].
      rewrite (createCitation_found _ _ _ _ _ _ Hfile Hlast) in Hc.
      simpl in Hc. rewrite line_range_clamp in Hc.
      destruct (String.eqb _ _); [done|]. by inversion Hc.
    + by rewrite createCitation_unknown_path in Hc.
Qed.

Lemma demo_index_wf : index_wf demo_index.
Proof. apply index_of_wf. simpl. apply NoDup_singleton. Qed.

Lemma results_and_citations_quote_stored_lines_witness :
  (exists r file,
     search demo_index "title" no_options = Returns [r]
     /\ getFile demo_index (sr_relativePath r) = Some file
     /\ excerpt r
        = JS.join newline (line_range (lines file) (lineStart r) (lineEnd r)))
  /\ (exists c file,
        createCitation demo_index "a.yml" (-5) 100 None = Some c
        /\ getFile demo_index "a.yml" = Some file
        /\ cit_excerpt c = JS.join newline (line_range (lines file) (-5) 100)).
Proof.
  destruct (results_and_citations_quote_stored_lines demo_index demo_index_wf)
    as [Hsearch Hcite].
  split.
  - eexists _.
    destruct (Hsearch "title" no_options _ _ ltac:(vm_compute; reflexivity)
                ltac:(by left)) as (file & Hfile & _ & _ & Hex).
    exists file. split; [reflexivity|]. split; [exact Hfile|exact Hex].
  - eexists _.
    destruct (Hcite "a.yml" (-5)%Z 100%Z None _ ltac:(lia)
                ltac:(vm_compute; reflexivity)) as (file & Hfile & _ & _ & _ & Hex).
    exists file. split; [reflexivity|]. split; [exact Hfile|exact Hex].
Defined.

(** ** Scores *)

Lemma append_cons c s t : String c s +:+ t = String c (s +:+ t).
Proof. reflexivity. Qed.

Lemma startsWith_app s p q :
  JS.startsWith s (p +:+ q) = true -> JS.startsWith s p = true.
Proof.
  unfold JS.startsWith. revert s. induction p as [|c p IH]; intros s.
  - by destruct s.
  - rewrite append_cons. destruct s as [|d s]; [done|].
    cbn [String.prefix]. destruct (ascii_dec c d); [apply IH|done].
Qed.

Lemma startsWith_includes s t :
  JS.startsWith s t = true -> JS.includes s t = true.
Proof. intros H. destruct s; cbn [JS.includes]; by rewrite H. Qed.

(** One round of the loop over the terms: a term that is not in the line
    changes nothing; a term in the line counts once and adds between 10
    and 35, at most 15 unless the line starts with the term and a colon. *)
Lemma score_term_bounds line s m term s' m' :
  score_term line (s, m) term = Returns (s', m') ->
  (JS.includes line term = false /\ s' = s /\ m' = m)
  \/ (JS.includes line term = true /\ m' = S m
      /\ (s + 10 <= s')%Q /\ (s' <= s + 35)%Q
      /\ (JS.startsWith line (term +:+ ":") = false -> (s' <= s + 15)%Q)).
Proof.
  unfold score_term. simpl.
  destruct (JS.includes line term); [|intros [= <- <-]; by left].
  destruct (RegExp_new _) as [r| |]; simpl; try done.
  intros [= <- <-]. right. split; [done|]. split; [done|].
  destruct (JS.startsWith line (term +:+ ":")), (RegExp.test false r line);
    repeat split; try done; try lra.
Qed.

Lemma score_term_returns line acc term :
  (exists r, RegExp_new ("\b" +:+ term +:+ "\b") = Returns r) ->
  exists acc', score_term line acc term = Returns acc'.
Proof.
  intros [r Hr]. unfold score_term.
  destruct (JS.includes line term); [|by eexists].
  rewrite Hr. simpl. by eexists.
Qed.

Lemma score_terms_return line terms acc :
  terms_compile terms ->
  exists acc', foldM (score_term line) terms acc = Returns acc'.
Proof.
  intros H. revert acc. induction H as [|term terms Ht _ IH]; intros acc; simpl.
  - by eexists.
  - destruct (score_term_returns line acc term Ht) as [acc' ->]. simpl. apply IH.
Qed.

Lemma line_hit_returns file terms i :
  terms_compile terms -> exists h, line_hit file terms i = Returns h.
Proof.
  intros H. unfold line_hit.
  destruct (score_terms_return
              (JS.toLowerCase (default EmptyString (lines file !! i))) terms
              (0%Q, 0%nat) H) as [[s m] ->].
  simpl. destruct (0 <? m)%nat; by eexists.
Qed.

Lemma Forall2_total {A B : Type} (R : A -> B -> Prop) (xs : list A) :
  (forall x, exists y, R x y) -> exists ys, Forall2 R xs ys.
Proof.
  intros H. induction xs as [|x xs [ys IH]]; [by exists []|].
  destruct (H x) as [y Hy]. exists (y :: ys). by constructor.
Qed.

(** When the patterns of all terms compile, the scan of a file returns. *)
Lemma line_hits_return file terms :
  terms_compile terms -> exists hits, line_hits file terms = Returns hits.
Proof.
  intros H.
  destruct (Forall2_total (fun i h => line_hit file terms i = Returns h)
              (seq 0 (length (lines file)))) as [hs Hhs].
  { intros i. by apply line_hit_returns. }
  exists (concat (map option_list hs)). apply line_hits_collect. by exists hs.
Qed.

Lemma findMatches_returns file terms :
  terms_compile terms -> exists survivors, findMatches file terms = Returns survivors.
Proof.
  intros H. destruct (line_hits_return file terms H) as [hits Hh].
  eexists. apply findMatches_spec. by exists hits.
Qed.

Lemma add_title_bonus_single file term s :
  add_title_bonus file [term] s = s
  \/ add_title_bonus file [term] s = (s + 15)%Q.
Proof.
  unfold add_title_bonus. destruct (truthy_title file) as [t|]; [|by left].
  simpl. destruct (JS.includes _ term); [by right|by left].
Qed.

(** ** A search over scanned files *)

Lemma search_returns idx query options :
  let sc := default docs_and_examples (scope options) in
  let terms := query_terms query in
  (forall entry, entry ∈ files idx -> scanned sc (fileGlobs options) entry) ->
  terms_compile terms ->
  exists founds,
    Forall2 (fun entry found => findMatches (snd entry) terms = Returns found)
            (files idx) founds
    /\ search idx query options
       = Returns (JS.slice (sort_by_score (concat founds)) 0
                           (default 8%Z (maxResults options))).
Proof.
  intros sc terms Hsc Hterms.
  destruct (Forall2_total
              (fun entry found => findMatches (snd entry) terms = Returns found)
              (files idx)) as [founds HF].
  { intros entry. by apply findMatches_returns. }
  exists founds. split; [done|]. apply search_spec. exists founds. split; [|done].
  apply Forall2_same_length_lookup. split; [by eapply Forall2_length|].
  intros i entry found He Hf.
  rewrite search_file_scanned by (apply Hsc; by eapply list_elem_of_lookup_2).
  fold terms. rewrite (Forall2_lookup_lr _ _ _ _ _ _ HF He Hf). simpl.
  done.
Qed.

Lemma founds_elem {A B : Type} (f : A -> outcome (list B)) xs founds r :
  Forall2 (fun x found => f x = Returns found) xs founds ->
  r ∈ concat founds <->
  exists x found, x ∈ xs /\ f x = Returns found /\ r ∈ found.
Proof.
  intros HF. rewrite elem_of_concat. split.
  - intros (found & Hr & (k & Hk)%list_elem_of_lookup).
    destruct (Forall2_lookup_r _ _ _ _ _ HF Hk) as (x & Hx & Hfx).
    exists x, found. split; [by eapply list_elem_of_lookup_2|done].
  - intros (x & found & (k & Hk)%list_elem_of_lookup & Hfx & Hr).
    destruct (Forall2_lookup_l _ _ _ _ _ HF Hk) as (found' & Hf' & Hfx').
    rewrite Hfx in Hfx'. inversion Hfx'; subst.
    exists found'. split; [done|by eapply list_elem_of_lookup_2].
Qed.

Lemma sorted_head_max top rest r :
  StronglySorted by_score_desc (top :: rest) -> r ∈ top :: rest ->
  (score r <= score top)%Q.
Proof.
  intros [_ Hall]%StronglySorted_inv [->|Hr]%elem_of_cons; [apply Qle_refl|].
  rewrite Forall_forall in Hall. by apply Hall.
Qed.

(** ** The declaration line against the mid-line mention *)

Lemma question_compiles : terms_compile (query_terms "question").
Proof. constructor; [|constructor]. eexists. vm_compute. reflexivity. Qed.

Lemma mid_line_hits_below file hits h :
  (forall l, l ∈ lines file -> JS.startsWith (JS.toLowerCase l) "question" = false) ->
  line_hits file ["question"] = Returns hits -> h ∈ hits ->
  (score h < 45)%Q.
Proof.
  intros Hmid Hh Hin.
  apply (line_hits_elem _ _ _ _ Hh) in Hin as (i & Hi & Hhit).
  apply line_hit_Some in Hhit as (s & m & Hfold & Hm & ->). simpl.
  apply lookup_lt_is_Some_2 in Hi as [l Hl]. rewrite Hl in Hfold. simpl in Hfold.
  destruct (score_term (JS.toLowerCase l) (0%Q, 0%nat) "question")
    as [[s' m']| |] eqn:Hst; simpl in Hfold; try done.
  inversion Hfold; subst s' m'; clear Hfold.
  apply score_term_bounds in Hst as [(_ & _ & ->)|(_ & -> & _ & _ & Hle)]; [lia|].
  assert (s <= 0 + 15)%Q as Hs.
  { apply Hle. destruct (JS.startsWith _ ("question" +:+ ":")) eqn:Hsw; [|done].
    apply startsWith_app in Hsw. rewrite Hmid in Hsw; [done|].
    by eapply list_elem_of_lookup_2. }
  change (Q_of_nat 1 / Q_of_nat 1 * 10)%Q with 10%Q.
  destruct (add_title_bonus_single file "question" (s + 10)) as [-> | ->]; lra.
Qed.

Lemma declaration_line_hit file i :
  lines file !! i = Some "question: |" ->
  exists h, line_hit file ["question"] i = Returns (Some h)
            /\ (45 <= score h)%Q.
Proof.
  intros Hi. unfold line_hit. rewrite Hi.
  change (foldM (score_term (JS.toLowerCase (default EmptyString (Some "question: |"))))
                ["question"] (0%Q, 0%nat))
    with (foldM (score_term "question: |") ["question"] (0%Q, 0%nat)).
  assert (foldM (score_term "question: |") ["question"] (0%Q, 0%nat)
          = Returns (35%Q, 1%nat)) as -> by (vm_compute; reflexivity).
  simpl. eexists. split; [reflexivity|]. simpl.
  change (Q_of_nat 1 / Q_of_nat 1 * 10)%Q with 10%Q.
  destruct (add_title_bonus_single file "question" (35 + 10)) as [-> | ->]; lra.
Qed.

(** C7.  In a corpus of exactly two example files, one with a line that
    is exactly [question: |] and one that mentions the word only in the
    middle of lines, [search("question", {scope: examples})] returns a list
    whose first result comes from the first file with a score of at least
    45, while every result from the second file scores strictly less; and
    unless the maximum of 8 results cuts it off, the second file does have
    a result in the list. *)
Theorem declaration_outranks_mid_line idx fa fb :
  files idx ≡ₚ [(relativePath fa, fa); (relativePath fb, fb)] ->
  relativePath fa <> relativePath fb ->
  type fa = example -> type fb = example ->
  "question: |" ∈ lines fa ->
  only_mid_line "question" fb ->
  exists top rest,
    search idx "question" examples_only = Returns (top :: rest)
    /\ sr_relativePath top = relativePath fa
    /\ (45 <= score top)%Q
    /\ (forall r, r ∈ top :: rest -> sr_relativePath r = relativePath fb ->
          (score r < score top)%Q)
    /\ ((Z.of_nat (length (top :: rest)) < 8)%Z ->
        exists r, r ∈ rest /\ sr_relativePath r = relativePath fb).
Proof.
  intros Hfiles Hne Hta Htb Hline [[lb [Hlb Hinc]] Hmid].
  assert (forall entry, entry ∈ files idx ->
            entry = (relativePath fa, fa) \/ entry = (relativePath fb, fb)) as Hcases.
  { intros entry He. rewrite Hfiles in He. set_solver. }
  destruct (search_returns idx "question" examples_only) as (founds & HF & Hsearch).
  { intros entry [-> | ->]%Hcases; split; simpl; try done.
    - by rewrite Hta.
    - by rewrite Htb. }
  { apply question_compiles. }
  simpl in HF, Hsearch.
  change (query_terms "question") with ["question"] in *.
  pose proof (fun r => founds_elem (fun e : string * IndexedFile =>
                                      findMatches (snd e) ["question"])
                                   (files idx) founds r HF) as Helem.
  (* The hits of the two files. *)
  destruct (line_hits_return fa ["question"] question_compiles) as [hits_a Hha].
  destruct (line_hits_return fb ["question"] question_compiles) as [hits_b Hhb].
  destruct (findMatches_returns fa ["question"] question_compiles) as [sa Hsa].
  destruct (findMatches_returns fb ["question"] question_compiles) as [sb Hsb].
  destruct (findMatches_dedup _ _ _ _ Hha Hsa) as (_ & Hsuba & Hrepa).
  destruct (findMatches_dedup _ _ _ _ Hhb Hsb) as (_ & Hsubb & Hrepb).
  assert ((relativePath fa, fa) ∈ files idx) as Hina by (rewrite Hfiles; by left).
  assert ((relativePath fb, fb) ∈ files idx) as Hinb
    by (rewrite Hfiles; right; by left).
  (* Where a result of the merged list comes from. *)
  assert (forall r, r ∈ concat founds ->
            (sr_relativePath r = relativePath fa /\ r ∈ sa)
            \/ (sr_relativePath r = relativePath fb /\ r ∈ sb)) as Horigin.
  { intros r (entry & found & He & Hf & Hr)%Helem.
    apply Hcases in He as [-> | ->]; simpl in Hf.
    - left. rewrite Hsa in Hf. inversion Hf; subst found. split; [|done].
      eapply hits_same_file; [exact Hha|by apply Hsuba].
    - right. rewrite Hsb in Hf. inversion Hf; subst found. split; [|done].
      eapply hits_same_file; [exact Hhb|by apply Hsubb]. }
  assert (forall r, r ∈ sb -> (score r < 45)%Q) as Hlow.
  { intros r Hr. eapply mid_line_hits_below; [exact Hmid|exact Hhb|by apply Hsubb]. }
  (* A survivor of the first file that scores at least 45. *)
  apply list_elem_of_lookup in Hline as (i & Hi).
  destruct (declaration_line_hit fa i Hi) as (h & Hhit & Hh45).
  assert (h ∈ hits_a) as Hh.
  { apply (line_hits_elem _ _ _ _ Hha). exists i. split; [|done].
    by eapply lookup_lt_Some. }
  destruct (Hrepa h Hh) as (s & Hs & _ & Hsh).
  assert (s ∈ concat founds) as Hsall.
  { apply Helem. by exists (relativePath fa, fa), sa. }
  (* The head of the sorted list. *)
  pose proof (sort_by_score_sorted (concat founds)) as Hsorted.
  destruct (sort_by_score (concat founds)) as [|top rest0] eqn:Hsort.
  { apply sort_by_score_elem in Hsall. rewrite Hsort in Hsall.
    by apply elem_of_nil in Hsall. }
  assert (forall r, r ∈ top :: rest0 <-> r ∈ concat founds) as Hperm.
  { intros r. rewrite <- Hsort. apply sort_by_score_elem. }
  assert (45 <= score top)%Q as Htop.
  { eapply Qle_trans; [exact Hh45|]. eapply Qle_trans; [exact Hsh|].
    eapply sorted_head_max; [exact Hsorted|]. by apply Hperm. }
  exists top, (take 7 rest0). split; [|split; [|split; [done|split]]].
  - rewrite Hsearch. by rewrite slice_nonneg by lia.
  - destruct (Horigin top) as [[? _]|[_ Hb]]; [apply Hperm; by left|done|].
    apply Hlow in Hb. lra.
  - intros r Hr Hrel.
    assert (r ∈ top :: rest0) as Hr'.
    { apply elem_of_cons in Hr as [->|Hr]; [by left|right].
      eapply elem_of_sublist; [exact Hr|apply sublist_take]. }
    destruct (Horigin r) as [[Ha _]|[_ Hb]]; [by apply Hperm|congruence|].
    apply Hlow in Hb. lra.
  - intros Hshort.
    (* The second file has a hit, hence a survivor. *)
    apply list_elem_of_lookup in Hlb as (j & Hj).
    destruct (line_hit_returns fb ["question"] j question_compiles) as [hj Hhj].
    assert (exists hb, hb ∈ hits_b) as [hb Hhb'].
    { destruct hj as [hb|].
      - exists hb. apply (line_hits_elem _ _ _ _ Hhb). exists j.
        split; [by eapply lookup_lt_Some|done].
      - exfalso. unfold line_hit in Hhj. rewrite Hj in Hhj. simpl in Hhj.
        destruct (score_term (JS.toLowerCase lb) (0%Q, 0%nat) "question")
          as [[s' m']| |] eqn:Hst; simpl in Hhj; try done.
        apply score_term_bounds in Hst as [(Hno & _)|(_ & -> & _)];
          [congruence|done]. }
    destruct (Hrepb hb Hhb') as (s' & Hs' & _).
    assert (s' ∈ top :: rest0) as Hin'.
    { apply Hperm, Helem. by exists (relativePath fb, fb), sb. }
    exists s'. split.
    + apply elem_of_cons in Hin' as [->|Hin'].
      * apply Hlow in Hs'. lra.
      * rewrite take_ge; [done|]. simpl in Hshort. rewrite length_take in Hshort. lia.
    + eapply hits_same_file; [exact Hhb|by apply Hsubb].
Qed.

Lemma declaration_outranks_mid_line_witness :
  exists top rest,
    search ranking_index "question" examples_only = Returns (top :: rest)
    /\ sr_relativePath top = "a.yml"
    /\ (45 <= score top)%Q
    /\ exists r, r ∈ rest /\ sr_relativePath r = "b.yml"
                 /\ (score r < score top)%Q.
Proof.
  destruct (declaration_outranks_mid_line ranking_index a_yml mid_yml)
    as (top & rest & Hsearch & Hrel & Htop & Hlow & Hkept).
  - apply perm_swap.
  - discriminate.
  - reflexivity.
  - reflexivity.
  - apply list_elem_of_lookup. by exists 2%nat.
  - split.
    + exists "a question about things".
      split; [apply list_elem_of_lookup; by exists 1%nat|reflexivity].
    + apply Forall_forall. vm_compute (lines mid_yml). by repeat constructor.
  - exists top, rest. split; [exact Hsearch|]. split; [exact Hrel|].
    split; [exact Htop|].
    destruct Hkept as (r & Hr & Hrb).
    + assert (search ranking_index "question" examples_only
              = Returns (top :: rest)) as Hs by exact Hsearch.
      vm_compute in Hs. injection Hs as <- <-. by vm_compute.
    + exists r. split; [exact Hr|]. split; [exact Hrb|].
      apply Hlow; [by right|exact Hrb].
Defined.

(** ** Searches that throw *)

Lemma foldM_not_returns {A S : Type} (body : S -> A -> outcome S) xs x s :
  x ∈ xs ->
  (forall s' r, body s' x <> Returns r) ->
  forall r, foldM body xs s <> Returns r.
Proof.
  intros Hx Hbad. revert s. induction xs as [|y ys IH]; intros s r.
  - by apply elem_of_nil in Hx.
  - simpl. destruct (body s y) as [s'| |] eqn:Hy; simpl; try done.
    apply elem_of_cons in Hx as [->|Hx]; [by apply Hbad in Hy|by apply IH].
Qed.

Lemma foldM_throws {A S : Type} (body : S -> A -> outcome S) xs x s :
  x ∈ xs ->
  (forall s', body s' x = Throws) ->
  (forall s' y, y ∈ xs -> body s' y <> Unmodelled) ->
  foldM body xs s = Throws.
Proof.
  intros Hx Hbad Hmod. revert s. induction xs as [|y ys IH]; intros s.
  - by apply elem_of_nil in Hx.
  - simpl. destruct (body s y) as [s'| |] eqn:Hy; simpl.
    + apply elem_of_cons in Hx as [->|Hx]; [by rewrite Hbad in Hy|].
      apply IH; [done|]. intros s'' z Hz. apply Hmod. by right.
    + done.
    + exfalso. eapply Hmod; [by left|exact Hy].
Qed.

Lemma foldM_modelled {A S : Type} (body : S -> A -> outcome S) xs s :
  (forall s' y, y ∈ xs -> body s' y <> Unmodelled) ->
  foldM body xs s <> Unmodelled.
Proof.
  intros Hmod. revert s. induction xs as [|y ys IH]; intros s; simpl; [done|].
  destruct (body s y) as [s'| |] eqn:Hy; simpl.
  - apply IH. intros s'' z Hz. apply Hmod. by right.
  - done.
  - exfalso. eapply Hmod; [by left|exact Hy].
Qed.

Lemma RegExp_new_throws pattern :
  RegExp.compile pattern = RegExp.SyntaxError -> RegExp_new pattern = Throws.
Proof. unfold RegExp_new. by intros ->. Qed.

Lemma RegExp_new_modelled pattern :
  RegExp.compile pattern <> RegExp.Outside -> RegExp_new pattern <> Unmodelled.
Proof. unfold RegExp_new. by destruct (RegExp.compile pattern). Qed.

Lemma score_term_throws line acc term :
  JS.includes line term = true ->
  RegExp.compile (word_pattern term) = RegExp.SyntaxError ->
  score_term line acc term = Throws.
Proof.
  intros Hinc Hbad. unfold score_term. rewrite Hinc.
  fold (word_pattern term). by rewrite (RegExp_new_throws _ Hbad).
Qed.

Lemma score_term_modelled line acc term :
  RegExp.compile (word_pattern term) <> RegExp.Outside ->
  score_term line acc term <> Unmodelled.
Proof.
  intros Hmod%RegExp_new_modelled. unfold score_term.
  destruct (JS.includes line term); [|done].
  fold (word_pattern term). by destruct (RegExp_new (word_pattern term)).
Qed.

Lemma line_hit_modelled file terms i :
  (forall term, term ∈ terms -> RegExp.compile (word_pattern term) <> RegExp.Outside) ->
  line_hit file terms i <> Unmodelled.
Proof.
  intros Hmod. unfold line_hit.
  destruct (foldM _ terms (0%Q, 0%nat)) as [[s m]| |] eqn:Hf; simpl.
  - by destruct (0 <? m)%nat.
  - done.
  - exfalso. revert Hf. apply foldM_modelled.
    intros acc term Ht. by apply score_term_modelled, Hmod.
Qed.

Lemma findMatches_modelled file terms :
  (forall term, term ∈ terms -> RegExp.compile (word_pattern term) <> RegExp.Outside) ->
  findMatches file terms <> Unmodelled.
Proof.
  intros Hmod. unfold findMatches.
  destruct (line_hits file terms) as [hits| |] eqn:Hh; simpl; try done.
  exfalso. revert Hh. apply foldM_modelled. intros results i _.
  pose proof (line_hit_modelled file terms i Hmod).
  by destruct (line_hit file terms i) as [[h|]| |].
Qed.

Lemma matchesGlobs_modelled relPath globs :
  (forall glob, glob ∈ globs -> RegExp.compile (glob_pattern glob) <> RegExp.Outside) ->
  matchesGlobs relPath globs <> Unmodelled.
Proof.
  induction globs as [|glob globs IH]; intros Hmod; simpl; [done|].
  pose proof (RegExp_new_modelled _ (Hmod glob ltac:(by left))) as Hg.
  destruct (RegExp_new (glob_pattern glob)) as [r| |]; simpl; try done.
  destruct (RegExp.test false r relPath); [done|].
  apply IH. intros g Hin. apply Hmod. by right.
Qed.

Lemma search_file_modelled query options results entry :
  patterns_modelled query options ->
  search_file (default docs_and_examples (scope options)) (fileGlobs options)
              (query_terms query) results entry <> Unmodelled.
Proof.
  intros [Hterms Hglobs]. unfold search_file.
  destruct (negb (matchesScope _ _)); [done|].
  pose proof (findMatches_modelled entry.2 (query_terms query) Hterms) as Hf.
  destruct (fileGlobs options) as [globs|] eqn:Hg; simpl.
  - pose proof (matchesGlobs_modelled entry.1 globs (fun g => Hglobs globs g eq_refl)).
    destruct (matchesGlobs entry.1 globs) as [[|]| |]; simpl; try done.
    by destruct (findMatches entry.2 (query_terms query)).
  - by destruct (findMatches entry.2 (query_terms query)).
Qed.

(** The scan of a file with a line that contains a term whose word-boundary
    pattern is invalid does not return. *)
Lemma line_hit_not_returns file terms i line term :
  lines file !! i = Some line -> term ∈ terms ->
  JS.includes (JS.toLowerCase line) term = true ->
  RegExp.compile (word_pattern term) = RegExp.SyntaxError ->
  (forall h, line_hit file terms i <> Returns h)
  /\ ((forall t, t ∈ terms -> RegExp.compile (word_pattern t) <> RegExp.Outside) ->
      line_hit file terms i = Throws).
Proof.
  intros Hi Ht Hinc Hbad. unfold line_hit. rewrite Hi. simpl. split.
  - intros h.
    destruct (foldM _ terms (0%Q, 0%nat)) as [acc| |] eqn:Hf; simpl; try done.
    exfalso. revert Hf. eapply foldM_not_returns; [exact Ht|].
    intros acc' r. by rewrite score_term_throws.
  - intros Hmod.
    rewrite (foldM_throws _ terms term); [done|done| |].
    + intros acc. by apply score_term_throws.
    + intros acc t Hin. by apply score_term_modelled, Hmod.
Qed.

Lemma findMatches_not_returns file terms line term :
  line ∈ lines file -> term ∈ terms ->
  JS.includes (JS.toLowerCase line) term = true ->
  RegExp.compile (word_pattern term) = RegExp.SyntaxError ->
  (forall found, findMatches file terms <> Returns found)
  /\ ((forall t, t ∈ terms -> RegExp.compile (word_pattern t) <> RegExp.Outside) ->
      findMatches file terms = Throws).
Proof.
  intros (i & Hi)%list_elem_of_lookup Ht Hinc Hbad.
  destruct (line_hit_not_returns file terms i line term Hi Ht Hinc Hbad)
    as [Hnot Hthrows].
  assert (i ∈ seq 0 (length (lines file))) as Hseq.
  { apply list_elem_of_lookup. exists i. apply lookup_seq.
    split; [done|by eapply lookup_lt_Some]. }
  unfold findMatches, line_hits. split.
  - intros found.
    destruct (foldM _ (seq 0 (length (lines file))) []) as [hits| |] eqn:Hf;
      simpl; try done.
    exfalso. revert Hf. eapply foldM_not_returns; [exact Hseq|].
    intros results r.
    destruct (line_hit file terms i) as [h| |] eqn:Hh; simpl; try done.
    by destruct (Hnot h).
  - intros Hmod. rewrite (foldM_throws _ _ i); [done|done| |].
    + intros results. by rewrite Hthrows.
    + intros results j _. pose proof (line_hit_modelled file terms j Hmod).
      by destruct (line_hit file terms j) as [[h|]| |].
Qed.

(** C8.  [search] is partial: when a scanned file has a line that contains,
    in lower case, a query term whose pattern [\b<term>\b] is not a valid
    regular expression, the search returns no result list; and when all
    the patterns it builds are inside the modelled fragment, it throws.
    So it does for the term [c++]. *)
Theorem search_throws_on_invalid_word_pattern idx query options entry line term :
  entry ∈ files idx ->
  scanned (default docs_and_examples (scope options)) (fileGlobs options) entry ->
  line ∈ lines (snd entry) ->
  term ∈ query_terms query ->
  JS.includes (JS.toLowerCase line) term = true ->
  RegExp.compile (word_pattern term) = RegExp.SyntaxError ->
  (forall results, search idx query options <> Returns results)
  /\ (patterns_modelled query options -> search idx query options = Throws).
Proof.
  intros He Hsc Hline Hterm Hinc Hbad.
  destruct (findMatches_not_returns (snd entry) (query_terms query) line term
              Hline Hterm Hinc Hbad) as [Hnot Hthrows].
  unfold search. split.
  - intros results.
    destruct (foldM _ (files idx) []) as [all| |] eqn:Hf; simpl; try done.
    exfalso. revert Hf. eapply foldM_not_returns; [exact He|].
    intros acc r. rewrite (search_file_scanned _ _ _ _ _ Hsc).
    destruct (findMatches entry.2 (query_terms query)) as [found| |] eqn:Hfm;
      simpl; try done.
    by destruct (Hnot found).
  - intros Hmod. rewrite (foldM_throws _ _ entry); [done|done| |].
    + intros acc. rewrite (search_file_scanned _ _ _ _ _ Hsc).
      rewrite Hthrows; [done|]. apply Hmod.
    + intros acc e _. by apply search_file_modelled.
Qed.

Lemma search_throws_on_invalid_word_pattern_witness :
  RegExp.compile (word_pattern "c++") = RegExp.SyntaxError
  /\ search cpp_index "Rust C++" no_options = Throws.
Proof.
  split; [reflexivity|].
  eapply (search_throws_on_invalid_word_pattern cpp_index "Rust C++" no_options
            ("cpp.yml", cpp_yml) "  Do you write C++ or Rust?" "c++").
  - by left.
  - split; [reflexivity|exact I].
  - apply list_elem_of_lookup. by exists 1%nat.
  - apply list_elem_of_lookup. by exists 1%nat.
  - reflexivity.
  - reflexivity.
  - split.
    + intros term Hin. vm_compute (query_terms "Rust C++") in Hin.
      apply elem_of_cons in Hin as [->|Hin]; [by vm_compute|].
      apply elem_of_cons in Hin as [->|Hin]; [by vm_compute|].
      by apply elem_of_nil in Hin.
    + intros globs glob Hg. discriminate Hg.
Defined.

(** ** Globs *)

(** When every pattern compiles, [matchesGlobs] says whether some
    translated pattern matches the path. *)
Lemma matchesGlobs_exists relPath globs answer :
  matchesGlobs relPath globs = Returns answer ->
  answer = true <->
  exists glob r, glob ∈ globs /\ RegExp_new (glob_pattern glob) = Returns r
                 /\ RegExp.test false r relPath = true.
Proof.
  revert answer. induction globs as [|glob globs IH]; intros answer; simpl.
  - intros [= <-]. split; [done|]. by intros (g & r & ?%elem_of_nil & _).
  - destruct (RegExp_new (glob_pattern glob)) as [r| |] eqn:Hr; simpl; try done.
    destruct (RegExp.test false r relPath) eqn:Ht.
    + intros [= <-]. split; [|done]. intros _. exists glob, r. split; [by left|done].
    + intros H. rewrite (IH _ H). split.
      * intros (g & r' & Hg & Hr' & Ht'). exists g, r'. split; [by right|done].
      * intros (g & r' & [->|Hg]%elem_of_cons & Hr' & Ht').
        -- rewrite Hr in Hr'. inversion Hr'; subst. congruence.
        -- by exists g, r'.
Qed.

(** C3 at a glob with [**]: the second replacement rewrites the star that
    the first one produced, so [**] becomes [.[^/]*], one character
    followed by characters other than the separator, and does not span
    directories.  The file is filtered out although its path matches the
    glob as described. *)
Theorem matchesGlobs_double_star_stops_at_separator :
  glob_pattern "examples/**/test.yml" = "examples/.[^/]*/test.yml"
  /\ matchesGlobs "examples/a/b/test.yml" ["examples/**/test.yml"] = Returns false
  /\ described_glob_matches "examples/**/test.yml" "examples/a/b/test.yml" = true
  /\ search nested_index "question" (with_globs ["examples/**/test.yml"])
     = Returns []
  /\ (exists r, search nested_index "question" examples_only = Returns [r]).
Proof.
  split; [reflexivity|]. split; [reflexivity|]. split; [reflexivity|].
  split; [reflexivity|]. eexists. vm_compute. reflexivity.
Qed.

(** ** Plain terms as patterns *)

Lemma list_ascii_of_string_app (a b : string) :
  list_ascii_of_string (a +:+ b)
  = (list_ascii_of_string a ++ list_ascii_of_string b)%list.
Proof. induction a as [|c a IH]; [done|]. rewrite append_cons. simpl. by rewrite IH. Qed.

Lemma length_list_ascii_of_string (a : string) :
  length (list_ascii_of_string a) = String.length a.
Proof. induction a as [|c a IH]; simpl; [done|]. by rewrite IH. Qed.

(** A plain character is read as itself. *)
Lemma parse_loop_plain_char stack top c rest :
  is_syntax_char c = false ->
  RegExp.parse_loop stack top 0 (c :: rest)
  = RegExp.parse_loop stack (RegExp.push (RegExp.Char c) RegExp.Atom top) 0 rest.
Proof.
  unfold is_syntax_char. intros H.
  repeat (apply orb_false_elim in H as [H ?]).
  simpl. by repeat match goal with Hc : Ascii.eqb c _ = false |- _ => rewrite Hc; clear Hc end.
Qed.

Lemma parse_loop_plain stack t :
  forallb (fun c => negb (is_syntax_char c)) t = true ->
  forall top rest,
    RegExp.parse_loop stack top 0 (t ++ rest)
    = RegExp.parse_loop stack (push_chars t top) 0 rest.
Proof.
  induction t as [|c t IH]; intros Hplain top rest; [done|].
  cbn [forallb] in Hplain.
  apply andb_prop in Hplain as [Hc Ht]. apply negb_true_iff in Hc.
  change ((c :: t) ++ rest)%list with (c :: (t ++ rest))%list.
  rewrite parse_loop_plain_char by done. by apply IH.
Qed.

Lemma push_chars_frame t top :
  RegExp.closed_alts (push_chars t top) = RegExp.closed_alts top
  /\ RegExp.current (push_chars t top)
     = (rev (map (fun c => (RegExp.Char c, RegExp.Atom)) t) ++ RegExp.current top)%list.
Proof.
  revert top. induction t as [|c t IH]; intros top; simpl; [done|].
  destruct (IH (RegExp.push (RegExp.Char c) RegExp.Atom top)) as [-> ->].
  simpl. split; [done|]. by rewrite <- app_assoc.
Qed.

Lemma close_alt_chars t acc rest :
  fold_left (fun acc (x : RegExp.regex * RegExp.term_kind) => RegExp.Seq (fst x) acc)
            (rev (map (fun c => (RegExp.Char c, RegExp.Atom)) t) ++ rest)%list acc
  = fold_left (fun acc (x : RegExp.regex * RegExp.term_kind) => RegExp.Seq (fst x) acc)
              rest (literal_seq t acc).
Proof.
  revert acc rest. induction t as [|c t IH]; intros acc rest; simpl; [done|].
  rewrite <- app_assoc. simpl. by rewrite IH.
Qed.

(** The pattern of a plain term compiles to the boundary, the characters
    of the term and the boundary. *)
Lemma compile_plain_term term :
  plain_term term = true ->
  RegExp.compile (word_pattern term) = RegExp.Compiled (word_regex term).
Proof.
  intros Hplain. unfold RegExp.compile, word_pattern.
  rewrite !list_ascii_of_string_app.
  change (list_ascii_of_string "\b") with ["\"%char; "b"%char].
  cbn [app RegExp.parse_loop Ascii.eqb Bool.eqb RegExp.atom_escape andb].
  rewrite parse_loop_plain by done.
  cbn [RegExp.parse_loop Ascii.eqb Bool.eqb RegExp.atom_escape andb].
  destruct (push_chars_frame (list_ascii_of_string term)
              (RegExp.push RegExp.WordBoundary RegExp.Assertion RegExp.empty_frame))
    as [Halts Hcur].
  unfold RegExp.close_frame, RegExp.close_alt.
  cbn [RegExp.push RegExp.closed_alts RegExp.current]. rewrite Halts, Hcur.
  cbn [RegExp.push RegExp.closed_alts RegExp.current RegExp.empty_frame fold_left fst].
  by rewrite close_alt_chars.
Qed.

(** *** Matching the text of a term *)

Lemma elem_of_step ok s ps q :
  q ∈ RegExp.step ok s ps
  <-> exists p c, p ∈ ps /\ s !! p = Some c /\ ok c = true /\ q = S p.
Proof.
  unfold RegExp.step. rewrite list_elem_of_omap. split.
  - intros (p & Hp & Hq). destruct (s !! p) as [c|] eqn:Hc; [|done].
    destruct (ok c) eqn:Hok; [|done]. inversion Hq. by exists p, c.
  - intros (p & c & Hp & Hc & Hok & ->). exists p. split; [done|].
    by rewrite Hc, Hok.
Qed.

Lemma ends_literal_seq t s :
  forall ps q,
    q ∈ RegExp.ends false
          (literal_seq t (RegExp.Seq RegExp.WordBoundary RegExp.Empty)) s ps
    <-> exists p, p ∈ ps /\ occurs_at t s p = true /\ q = (p + length t)%nat
                  /\ RegExp.at_word_boundary s q = true.
Proof.
  induction t as [|c t IH]; intros ps q; simpl.
  - rewrite list_elem_of_In, filter_In, <- list_elem_of_In. split.
    + intros [Hq Hb]. exists q. repeat split; [done|lia|done].
    + intros (p & Hp & _ & -> & Hb). rewrite Nat.add_0_r in *. done.
  - rewrite IH. split.
    + intros (p' & (p & d & Hp & Hd & Heq & ->)%elem_of_step & Hocc & -> & Hb).
      change (Ascii.eqb c d = true) in Heq.
      exists p. split; [done|]. rewrite Hd, Heq, Hocc.
      split; [done|]. split; [lia|]. by replace (p + S (length t))%nat with (S p + length t)%nat by lia.
    + intros (p & Hp & Hocc & -> & Hb).
      destruct (s !! p) as [d|] eqn:Hd; [|done].
      apply andb_prop in Hocc as [Heq Hocc].
      exists (S p). split; [apply elem_of_step; by exists p, d|].
      split; [done|]. split; [lia|].
      by replace (S p + length t)%nat with (p + S (length t))%nat by lia.
Qed.

Lemma nonempty_true {A : Type} (l : list A) :
  match l with [] => false | _ :: _ => true end = true <-> exists x, x ∈ l.
Proof.
  destruct l as [|x l]; split; try done.
  - by intros [x ?%elem_of_nil].
  - intros _. exists x. by left.
Qed.

(** For a plain term, the test of its pattern is the search for its text
    between two word boundaries. *)
Lemma test_word_regex term line :
  RegExp.test false (word_regex term) line = matches_at_word_boundary line term.
Proof.
  apply eq_true_iff_eq. unfold RegExp.test, word_regex, matches_at_word_boundary.
  rewrite nonempty_true, existsb_exists. cbn [RegExp.ends]. split.
  - intros (q & (p & Hp & Hocc & -> & Hb)%ends_literal_seq).
    apply list_elem_of_In, filter_In in Hp as [Hp Hbp].
    exists p. split; [done|]. by rewrite Hbp, Hocc, Hb.
  - intros (p & Hp & [[Hbp Hocc]%andb_prop Hb]%andb_prop).
    exists (p + length (list_ascii_of_string term))%nat.
    apply ends_literal_seq. exists p. split; [|done].
    apply list_elem_of_In, filter_In. done.
Qed.

(** ** The score of a line for plain terms *)

Lemma score_term_described line s m term :
  plain_term term = true ->
  exists s',
    score_term line (s, m) term
    = Returns (s', if JS.includes line term then S m else m)
    /\ (s' == s + described_term_points line term)%Q.
Proof.
  intros Hplain. unfold score_term, described_term_points. simpl.
  destruct (JS.includes line term); [|exists s; split; [done|lra]].
  fold (word_pattern term). unfold RegExp_new.
  rewrite (compile_plain_term term Hplain). simpl.
  rewrite test_word_regex. eexists. split; [reflexivity|].
  destruct (JS.startsWith line (term +:+ ":")),
           (matches_at_word_boundary line term); lra.
Qed.

Lemma score_terms_described line terms :
  Forall (fun term => plain_term term = true) terms ->
  forall s m,
    exists s',
      foldM (score_term line) terms (s, m)
      = Returns (s', (m + matched_count line terms)%nat)
      /\ (s' == s + Qsum (map (described_term_points line) terms))%Q.
Proof.
  induction 1 as [|term terms Hplain _ IH]; intros s m.
  - exists s. unfold matched_count. simpl. rewrite Nat.add_0_r. split; [done|lra].
  - destruct (score_term_described line s m term Hplain) as (s1 & Hs1 & Heq1).
    destruct (IH s1 (if JS.includes line term then S m else m))
      as (s2 & Hs2 & Heq2).
    exists s2. cbn [foldM]. rewrite Hs1. simpl. rewrite Hs2.
    unfold matched_count. simpl. split.
    + do 2 f_equal. unfold matched_count.
      destruct (JS.includes line term); simpl; lia.
    + fold (Qsum (map (described_term_points line) terms)). lra.
Qed.

Lemma add_title_bonus_described file terms s :
  (add_title_bonus file terms s
   == s + Qsum (map (described_title_points file) terms))%Q.
Proof.
  unfold add_title_bonus, described_title_points.
  destruct (truthy_title file) as [t|].
  - revert s. induction terms as [|term terms IH]; intros s; simpl; [lra|].
    rewrite IH. destruct (JS.includes (JS.toLowerCase t) term); lra.
  - induction terms as [|term terms IH]; simpl; lra.
Qed.


(** C1 at a term with pattern syntax.  The term [a.c] occurs in the line
    [xa.c abc], but not between word boundaries, so the score as described
    is 10 + 10; the code tests the pattern [\ba.c\b], in which the dot
    matches any character, finds [abc], and adds the 5 of the word-boundary
    boost. *)
Theorem line_hit_reads_term_as_pattern :
  query_terms "a.c" = ["a.c"]
  /\ plain_term "a.c" = false
  /\ described_score dotted_yml ["a.c"] "xa.c abc" = Some 20%Q
  /\ exists h,
       line_hit dotted_yml ["a.c"] 0 = Returns (Some h)
       /\ score h = 25%Q
       /\ search dotted_index "a.c" examples_only = Returns [h].
Proof.
  split; [reflexivity|]. split; [reflexivity|]. split; [reflexivity|].
  eexists. split; [vm_compute; reflexivity|]. split; reflexivity.
Qed.

(** * Further properties of the index *)

(** ** Queries without terms, and empty glob lists *)

Lemma toLowerCase_space c : JS.is_space c = true -> JS.toLowerCase_char c = c.
Proof.
  destruct c as [[] [] [] [] [] [] [] []]; vm_compute; intros H;
    first [reflexivity | discriminate H].
Qed.

Lemma split_whitespace_blank s :
  Forall (fun c => JS.is_space c = true) (list_ascii_of_string s) ->
  Forall (fun piece => piece = EmptyString) (JS.split_whitespace s).
Proof.
  induction s as [|c s IH]; simpl; intros H.
  - by repeat constructor.
  - apply Forall_cons in H as [Hc Hs]. rewrite Hc.
    destruct s as [|d s]; [by repeat constructor|].
    pose proof Hs as Hs'. simpl in Hs'. apply Forall_cons in Hs' as [Hd _].
    rewrite Hd. by apply IH.
Qed.

Lemma toLowerCase_blank s :
  Forall (fun c => JS.is_space c = true) (list_ascii_of_string s) ->
  JS.toLowerCase s = s.
Proof.
  induction s as [|c s IH]; simpl; intros H; [done|].
  apply Forall_cons in H as [Hc Hs]. by rewrite toLowerCase_space, IH.
Qed.

Lemma query_terms_blank query : blank query -> query_terms query = [].
Proof.
  intros H. unfold query_terms. rewrite toLowerCase_blank by done.
  pose proof (split_whitespace_blank query H) as Hp.
  induction Hp as [|p ps -> _ IH]; simpl; done.
Qed.

Lemma line_hits_no_terms file : line_hits file [] = Returns [].
Proof.
  unfold line_hits. generalize (seq 0 (length (lines file))).
  intros l. induction l as [|i l IH]; simpl; done.
Qed.

Lemma findMatches_no_terms file : findMatches file [] = Returns [].
Proof. unfold findMatches. by rewrite line_hits_no_terms. Qed.

(** A query that is empty or all white space has no term; such a search
    returns no result whenever it returns, and it returns when no glob is
    given. *)
Theorem search_blank_query idx query options :
  blank query ->
  (forall results, search idx query options = Returns results -> results = [])
  /\ (fileGlobs options = None -> search idx query options = Returns []).
Proof.
  intros Hblank. split.
  - intros results (founds & HF & ->)%search_spec.
    rewrite (query_terms_blank _ Hblank) in HF.
    assert (concat founds = []) as ->; [|simpl; by rewrite slice_nil].
    induction HF as [|e f es fs He _ IH]; simpl; [done|]. rewrite IH.
    apply search_file_found in He as [->|[_ Hf]]; [done|].
    rewrite findMatches_no_terms in Hf. by inversion Hf.
  - intros Hg. apply search_spec.
    exists (map (fun _ => []) (files idx)). split.
    + rewrite (query_terms_blank _ Hblank), Hg.
      induction (files idx) as [|e es IH]; simpl; constructor; [|done].
      unfold search_file. destruct (negb _); simpl; [done|].
      by rewrite findMatches_no_terms.
    + assert (concat (map (fun _ : string * IndexedFile => @nil SearchResult)
                          (files idx)) = []) as ->
        by (induction (files idx); simpl; done).
      simpl. by rewrite slice_nil.
Qed.

Lemma search_blank_query_witness :
  search demo_index "" no_options = Returns []
  /\ search demo_index "   " examples_only = Returns [].
Proof.
  split.
  - apply (search_blank_query demo_index "" no_options); [constructor|reflexivity].
  - apply (search_blank_query demo_index "   " examples_only);
      [by repeat constructor|reflexivity].
Defined.

(** An empty array of globs is not the same as no globs: [matchesGlobs]
    then accepts no path and the search returns no result. *)
Theorem search_empty_glob_list idx query limit sc :
  search idx query {| maxResults := limit; scope := sc; fileGlobs := Some [] |}
  = Returns [].
Proof.
  apply search_spec. exists (map (fun _ => []) (files idx)). simpl. split.
  - induction (files idx) as [|e es IH]; simpl; constructor; [|done].
    unfold search_file. by destruct (negb _).
  - assert (concat (map (fun _ : string * IndexedFile => @nil SearchResult)
                        (files idx)) = []) as ->
      by (induction (files idx); simpl; done).
    simpl. by rewrite slice_nil.
Qed.

(** ** Statistics *)

Lemma count_file_totals fs ex dc tp :
  let '(ex', dc', tp') := fold_left count_file fs (ex, dc, tp) in
  (ex' + dc' + tp'
   + length (List.filter (fun f => bool_decide (type f = other)) fs)
   = ex + dc + tp + length fs)%nat
  /\ (ex' = ex + length (List.filter (fun f => bool_decide (type f = example)) fs))%nat.
Proof.
  revert ex dc tp. induction fs as [|f fs IH]; intros ex dc tp; simpl; [lia|].
  destruct (type f) eqn:Hty; simpl.
  - specialize (IH (S ex) dc tp).
    destruct (fold_left count_file fs (S ex, dc, tp)) as [[ex' dc'] tp']. lia.
  - specialize (IH ex (S dc) tp).
    destruct (fold_left count_file fs (ex, S dc, tp)) as [[ex' dc'] tp']. lia.
  - specialize (IH ex dc (S tp)).
    destruct (fold_left count_file fs (ex, dc, S tp)) as [[ex' dc'] tp']. lia.
  - specialize (IH ex dc tp).
    destruct (fold_left count_file fs (ex, dc, tp)) as [[ex' dc'] tp']. lia.
Qed.

(** The counts of [getStats] add up: every file is an example, a doc, a
    template or of type [other], and the examples are the files that
    [getAllExamples] lists. *)
Theorem getStats_totals idx :
  totalFiles (getStats idx)
  = (st_examples (getStats idx) + st_docs (getStats idx)
     + st_templates (getStats idx) + length (other_files idx))%nat
  /\ st_examples (getStats idx) = length (getAllExamples idx).
Proof.
  unfold getStats, other_files, getAllExamples.
  pose proof (count_file_totals (getAllFiles idx) 0 0 0) as H.
  destruct (fold_left count_file (getAllFiles idx) (0, 0, 0)%nat) as [[ex dc] tp].
  simpl in *. unfold getAllFiles in *. rewrite length_map in H. lia.
Qed.

(** ** Lines, offsets and content *)

Lemma split_char_nonempty sep text : JS.split_char sep text <> [].
Proof.
  destruct text as [|c text]; simpl; [done|].
  destruct (Ascii.eqb c sep); [done|].
  by destruct (JS.split_char sep text).
Qed.

Lemma join_cons sep x xs :
  xs <> [] -> JS.join sep (x :: xs) = x +:+ sep +:+ JS.join sep xs.
Proof. by destruct xs. Qed.

(** Splitting at newlines and joining with newlines gives the text back. *)
Lemma join_split_char text :
  JS.join newline (JS.split_char (ascii_of_N 10) text) = text.
Proof.
  induction text as [|c text IH]; [done|]. cbn [JS.split_char].
  pose proof (split_char_nonempty (ascii_of_N 10) text) as Hne.
  destruct (Ascii.eqb_spec c (ascii_of_N 10)) as [->|Hc].
  - rewrite join_cons by done. by rewrite IH.
  - destruct (JS.split_char (ascii_of_N 10) text) as [|p ps] eqn:Hs; [done|].
    cbn [JS.cons_head]. destruct ps as [|q ps].
    + simpl in *. by rewrite IH.
    + rewrite join_cons by done. rewrite join_cons in IH by done.
      rewrite append_cons. by rewrite IH.
Qed.

Lemma length_split_char text :
  length (JS.split_char (ascii_of_N 10) text) = S (count_newlines text).
Proof.
  induction text as [|c text IH]; [done|]. cbn [JS.split_char count_newlines].
  destruct (Ascii.eqb c (ascii_of_N 10)); cbn [length Nat.add]; [by rewrite IH|].
  destruct (JS.split_char (ascii_of_N 10) text); cbn [JS.cons_head length] in *; lia.
Qed.

Lemma length_line_offsets base ls : length (line_offsets base ls) = length ls.
Proof. revert base. induction ls as [|l ls IH]; intros base; simpl; [done|]. by rewrite IH. Qed.

Lemma substring_prefix a b : String.substring 0 (String.length a) (a +:+ b) = a.
Proof.
  induction a as [|c a IH].
  - by destruct b.
  - rewrite append_cons. simpl. by rewrite IH.
Qed.

Lemma substring_skip a b n m :
  String.substring (String.length a + n) m (a +:+ b) = String.substring n m b.
Proof. induction a as [|c a IH]; [done|]. rewrite append_cons. exact IH. Qed.

Lemma substring_whole a : String.substring 0 (String.length a) a = a.
Proof. induction a as [|c a IH]; simpl; [done|]. by rewrite IH. Qed.

(** Every offset of the table is where its line starts in the joined
    text. *)
Lemma line_offsets_substring ls :
  forall base i line off,
    ls !! i = Some line ->
    line_offsets base ls !! i = Some off ->
    (base <= off)%nat
    /\ String.substring (off - base) (String.length line) (JS.join newline ls) = line.
Proof.
  induction ls as [|l ls IH]; intros base i line off Hl Ho; [done|].
  destruct i as [|i]; simpl in Hl, Ho.
  - inversion Hl; inversion Ho; subst. split; [done|]. rewrite Nat.sub_diag.
    destruct ls as [|l' ls]; [apply substring_whole|].
    rewrite join_cons by done. apply substring_prefix.
  - destruct (IH _ _ _ _ Hl Ho) as [Hle Hsub]. split; [lia|].
    rewrite join_cons by (intros ->; done).
    replace (off - base)%nat
      with (String.length l + S (off - (base + String.length l + 1)))%nat by lia.
    rewrite substring_skip. exact Hsub.
Qed.

(** What the tables of a stored file say about its content: joining the
    lines with newlines gives the content, there is one line more than
    there are newlines, one offset per line, and every line is found in
    the content at its offset. *)
Lemma well_split_tables f :
  well_split f ->
  JS.join newline (lines f) = content f
  /\ length (lines f) = S (count_newlines (content f))
  /\ length (lineOffsets f) = length (lines f)
  /\ forall i line off,
       lines f !! i = Some line -> lineOffsets f !! i = Some off ->
       String.substring off (String.length line) (content f) = line.
Proof.
  intros [Hl Ho]. rewrite Ho, Hl. split; [apply join_split_char|].
  split; [apply length_split_char|]. split; [apply length_line_offsets|].
  intros i line off Hi Hoff.
  destruct (line_offsets_substring _ _ _ _ _ Hi Hoff) as [_ Hsub].
  rewrite join_split_char, Nat.sub_0_r in Hsub. exact Hsub.
Qed.

Lemma ingest_well_split md idx ev :
  Forall (fun e => well_split (snd e)) (files idx) ->
  Forall (fun e => well_split (snd e)) (files (ingest md idx ev)).
Proof.
  destruct ev as [[p [text|]] ty]; simpl; intros H; [|done].
  by apply map_set_Forall.
Qed.

Lemma ingest_all_well_split md evs idx :
  Forall (fun e => well_split (snd e)) (files idx) ->
  Forall (fun e => well_split (snd e)) (files (fold_left (ingest md) evs idx)).
Proof.
  revert idx. induction evs as [|ev evs IH]; intros idx H; simpl; [done|].
  by apply IH, ingest_well_split.
Qed.

(** After [initialize], the line table and the offset table of every file
    describe its content: the lines joined by newlines are the content,
    their number is the number of newlines plus one, and each line stands
    in the content at the offset recorded for it. *)
Theorem initialize_line_tables extractMetadata fs base idx relPath f :
  initialize extractMetadata fs (new_index base) = Returns idx ->
  getFile idx relPath = Some f ->
  JS.join newline (lines f) = content f
  /\ length (lines f) = S (count_newlines (content f))
  /\ length (lineOffsets f) = length (lines f)
  /\ forall i line off,
       lines f !! i = Some line -> lineOffsets f !! i = Some off ->
       String.substring off (String.length line) (content f) = line.
Proof.
  intros Hinit Hget. apply well_split_tables.
  apply initialize_ingestions in Hinit as (Hfiles & _).
  pose proof (ingest_all_well_split extractMetadata (ingestion_order fs base)
                (new_index base) ltac:(constructor)) as Hall.
  rewrite <- Hfiles in Hall. rewrite Forall_forall in Hall.
  unfold getFile in Hget.
  assert ((relPath, f) ∈ files idx) as Hin.
  { clear -Hget. induction (files idx) as [|[k v] m IH]; simpl in Hget; [done|].
    destruct (String.eqb_spec k relPath) as [->|_].
    - inversion Hget; subst. by left.
    - right. by apply IH. }
  exact (Hall _ Hin).
Qed.

Lemma initialize_line_tables_witness :
  exists f,
    getFile demo_initialized
      "docassemble_base/docassemble/base/data/questions/examples/a.yml" = Some f
    /\ JS.join newline (lines f) = content f
    /\ length (lines f) = S (count_newlines (content f)).
Proof.
  eexists. split; [vm_compute; reflexivity|].
  match goal with
  | |- JS.join newline (lines ?f) = _ /\ _ =>
      destruct (initialize_line_tables no_metadata demo_fs "/repo" demo_initialized
                  "docassemble_base/docassemble/base/data/questions/examples/a.yml" f)
        as (Hjoin & Hlen & _)
  end.
  - exact demo_initialize_returns.
  - vm_compute; reflexivity.
  - split; [exact Hjoin|exact Hlen].
Defined.

(** ** The file table after ingestion *)

Lemma map_get_In {V : Type} (m : list (string * V)) k v :
  map_get k m = Some v -> (k, v) ∈ m.
Proof.
  induction m as [|[k' v'] m IH]; simpl; [done|].
  destruct (String.eqb_spec k' k) as [->|_].
  - intros [= ->]. by left.
  - intros H. right. by apply IH.
Qed.

Lemma map_set_keys_elem {V : Type} k (v : V) m x :
  x ∈ map fst (map_set k v m) <-> x = k \/ x ∈ map fst m.
Proof.
  induction m as [|[k' v'] m IH]; simpl.
  - rewrite elem_of_cons. split; [intros [?|?%elem_of_nil]; by left|].
    intros [?|?%elem_of_nil]; [by left|done].
  - destruct (String.eqb_spec k' k) as [->|Hne]; simpl.
    + rewrite !elem_of_cons. tauto.
    + rewrite !elem_of_cons, IH. tauto.
Qed.

Lemma map_set_NoDup {V : Type} k (v : V) m :
  NoDup (map fst m) -> NoDup (map fst (map_set k v m)).
Proof.
  induction m as [|[k' v'] m IH]; simpl; intros Hnd.
  - apply NoDup_singleton.
  - apply NoDup_cons in Hnd as [Hk' Hnd].
    destruct (String.eqb_spec k' k) as [->|Hne]; simpl.
    + by constructor.
    + constructor; [|by apply IH].
      rewrite map_set_keys_elem. intros [?|?]; congruence.
Qed.

(** Looking up what was just stored, and anything else. *)
Lemma map_get_set {V : Type} k (v : V) m k' :
  map_get k' (map_set k v m) = if String.eqb k k' then Some v else map_get k' m.
Proof.
  induction m as [|[k0 v0] m IH]; simpl.
  - done.
  - destruct (String.eqb_spec k0 k) as [->|Hne]; simpl.
    + by destruct (String.eqb k k').
    + destruct (String.eqb_spec k0 k') as [->|Hne'].
      * by rewrite (proj2 (String.eqb_neq k k')) by congruence.
      * exact IH.
Qed.

Lemma ingest_stored md idx ev :
  stored_under_own_path idx -> stored_under_own_path (ingest md idx ev).
Proof.
  destruct ev as [[p [text|]] ty]; simpl; intros [[Hnd Hwf] Hrel]; [|done].
  split; [split|]; simpl.
  - by apply map_set_NoDup.
  - by apply map_set_Forall.
  - by apply map_set_Forall.
Qed.

Lemma ingest_all_stored md evs idx :
  stored_under_own_path idx -> stored_under_own_path (fold_left (ingest md) evs idx).
Proof.
  revert idx. induction evs as [|ev evs IH]; intros idx H; simpl; [done|].
  by apply IH, ingest_stored.
Qed.

Lemma initialize_stored md fs base idx :
  initialize md fs (new_index base) = Returns idx -> stored_under_own_path idx.
Proof.
  intros (Hfiles & _ & Hbase)%initialize_ingestions.
  pose proof (ingest_all_stored md (ingestion_order fs base) (new_index base)) as H.
  destruct H as [[Hnd Hwf] Hrel].
  { split; [split|]; simpl; constructor. }
  rewrite ingest_all_basePath in Hrel. simpl in Hrel.
  unfold stored_under_own_path, index_wf. rewrite Hfiles, Hbase. done.
Qed.

(** After [initialize], no relative path is registered twice, [getFile]
    finds exactly the entries of the table, each file is stored under its
    own relative path, and [getFileByAbsolutePath] on its absolute path
    finds it again. *)
Theorem initialize_file_table extractMetadata fs base idx :
  initialize extractMetadata fs (new_index base) = Returns idx ->
  NoDup (map fst (files idx))
  /\ forall relPath f,
       (getFile idx relPath = Some f <-> (relPath, f) ∈ files idx)
       /\ (getFile idx relPath = Some f ->
        relativePath f = relPath
        /\ getFileByAbsolutePath idx (path f) = Some f).
Proof.
  intros [[Hnd Hwf] Hrel]%initialize_stored. split; [done|].
  intros relPath f. split; [split|].
  - apply map_get_In.
  - by apply map_get_elem.
  - intros Hget. pose proof (map_get_In _ _ _ Hget) as Hin.
    rewrite Forall_forall in Hwf, Hrel.
    pose proof (Hwf _ Hin) as H1. pose proof (Hrel _ Hin) as H2. simpl in *.
    split; [done|]. unfold getFileByAbsolutePath. by rewrite H2, H1.
Qed.

Lemma initialize_file_table_witness :
  exists f,
    getFile demo_initialized
      "docassemble_demo/docassemble/demo/data/questions/a.yml" = Some f
    /\ getFileByAbsolutePath demo_initialized (path f) = Some f.
Proof.
  eexists. split; [vm_compute; reflexivity|].
  destruct (initialize_file_table no_metadata demo_fs "/repo" demo_initialized
              demo_initialize_returns) as [_ Htable].
  match goal with
  | |- getFileByAbsolutePath _ (path ?f) = _ =>
      destruct (Htable "docassemble_demo/docassemble/demo/data/questions/a.yml" f)
        as [_ Hfound]
  end.
  apply Hfound. vm_compute; reflexivity.
Defined.

(** ** Citing whole files and search results *)

Lemma line_range_all ls first last :
  (first <= 1)%Z -> (Z.of_nat (length ls) <= last)%Z ->
  line_range ls first last = ls.
Proof.
  intros Hf Hl. rewrite line_range_take_drop.
  replace (Z.to_nat (first - 1)) with 0%nat by lia. rewrite drop_0.
  apply take_ge. lia.
Qed.

(** A request that covers the file, from line 1 or before to the last line
    or beyond, is answered with the content of the file, unless that is
    empty. *)
Theorem createCitation_whole_file idx relPath first last why f :
  getFile idx relPath = Some f ->
  well_split f ->
  content f <> EmptyString ->
  (first <= 1)%Z -> (Z.of_nat (length (lines f)) <= last)%Z ->
  createCitation idx relPath first last why
  = Some {| cit_path := relPath; cit_lineStart := first; cit_lineEnd := last;
            cit_excerpt := content f; reason := why |}.
Proof.
  intros Hget Hsplit Hne Hf Hl.
  rewrite (createCitation_found _ _ _ _ _ _ Hget) by lia. simpl.
  rewrite line_range_clamp, line_range_all by done.
  destruct (well_split_tables f Hsplit) as (-> & _).
  by rewrite (proj2 (String.eqb_neq _ _) Hne).
Qed.

Lemma createCitation_whole_file_witness :
  createCitation demo_index "a.yml" 1 4 None
  = Some {| cit_path := "a.yml"; cit_lineStart := 1; cit_lineEnd := 4;
            cit_excerpt := content a_yml; reason := None |}.
Proof.
  apply (createCitation_whole_file demo_index "a.yml" 1 4 None a_yml).
  - reflexivity.
  - split; reflexivity.
  - discriminate.
  - lia.
  - vm_compute. discriminate.
Defined.

(** ** Order, length and scope of the results *)

Lemma score_terms_grow line terms :
  forall s m s' m',
    foldM (score_term line) terms (s, m) = Returns (s', m') ->
    (s <= s')%Q
    /\ ((m < m')%nat ->
        (s + 10 <= s')%Q
        /\ exists term, term ∈ terms /\ JS.includes line term = true).
Proof.
  induction terms as [|term terms IH]; intros s m s' m'; simpl.
  - intros [= <- <-]. split; [lra|lia].
  - destruct (score_term line (s, m) term) as [[s1 m1]| |] eqn:Hst; simpl; try done.
    intros Hrest. destruct (IH _ _ _ _ Hrest) as [Hle Hgrow].
    apply score_term_bounds in Hst
      as [(Hno & -> & ->)|(Hyes & -> & Hlo & _)].
    + split; [done|]. intros Hm. destruct (Hgrow Hm) as (H10 & t & Ht & Hinc).
      split; [done|]. exists t. split; [by right|done].
    + split; [lra|]. intros _. split; [lra|]. exists term. split; [by left|done].
Qed.

Lemma Qsum_title_nonneg file terms :
  (0 <= Qsum (map (described_title_points file) terms))%Q.
Proof.
  induction terms as [|term terms IH]; simpl; [lra|].
  unfold described_title_points at 1.
  destruct (truthy_title file) as [t|]; [|lra].
  destruct (JS.includes _ term); lra.
Qed.

Lemma add_title_bonus_ge file terms s : (s <= add_title_bonus file terms s)%Q.
Proof.
  rewrite add_title_bonus_described.
  pose proof (Qsum_title_nonneg file terms). lra.
Qed.

Lemma coverage_nonneg m n : (0 <= Q_of_nat m / Q_of_nat n * 10)%Q.
Proof.
  assert (forall k, 0 <= Q_of_nat k)%Q as Hk.
  { intros k. unfold Q_of_nat, Qle. simpl. lia. }
  apply Qmult_le_0_compat; [|lra].
  apply Qmult_le_0_compat; [apply Hk|apply Qinv_le_0_compat, Hk].
Qed.

(** A hit scores at least 10, and its line holds one of the terms. *)
Lemma hit_score_and_term file terms i r :
  line_hit file terms i = Returns (Some r) ->
  (10 <= score r)%Q
  /\ exists term, term ∈ terms
       /\ JS.includes (JS.toLowerCase (default EmptyString (lines file !! i))) term
          = true.
Proof.
  intros (s & m & Hfold & Hm & ->)%line_hit_Some. simpl.
  destruct (score_terms_grow _ _ _ _ _ _ Hfold) as [_ Hgrow].
  destruct (Hgrow Hm) as [H10 Hterm]. split; [|done].
  eapply Qle_trans; [|apply add_title_bonus_ge].
  pose proof (coverage_nonneg m (length terms)). lra.
Qed.

Lemma search_result_hit idx query options results r :
  search idx query options = Returns results -> r ∈ results ->
  exists entry i,
    entry ∈ files idx
    /\ scanned (default docs_and_examples (scope options)) (fileGlobs options) entry
    /\ (i < length (lines (snd entry)))%nat
    /\ line_hit (snd entry) (query_terms query) i = Returns (Some r).
Proof.
  intros Hsearch Hr.
  destruct (search_result_origin _ _ _ _ _ Hsearch Hr)
    as (entry & survivors & He & Hsc & Hf & Hin).
  destruct (findMatches_line_hits _ _ _ Hf) as (hits & Hh).
  destruct (findMatches_dedup _ _ _ _ Hh Hf) as (_ & Hsub & _).
  apply Hsub, (line_hits_elem _ _ _ _ Hh) in Hin as (i & Hi & Hhit).
  by exists entry, i.
Qed.

(** The list that [search] returns is in order of non-increasing score and,
    for a limit that is not negative, no longer than the limit; every
    result is of a type that the scope admits (documents for [docs],
    examples for [examples], either for [docs_and_examples], any type for
    [all]) and scores at least 10. *)
Theorem search_results_ordered_and_bounded idx query options results :
  search idx query options = Returns results ->
  StronglySorted by_score_desc results
  /\ ((0 <= default 8 (maxResults options))%Z ->
      (Z.of_nat (length results) <= default 8 (maxResults options))%Z)
  /\ forall r, r ∈ results ->
       match default docs_and_examples (scope options) with
       | docs => sr_type r = doc
       | examples => sr_type r = example
       | docs_and_examples => sr_type r = doc \/ sr_type r = example
       | all => True
       end
       /\ (10 <= score r)%Q.
Proof.
  intros Hsearch. split; [|split].
  - apply search_spec in Hsearch as (founds & _ & ->).
    pose proof (sort_by_score_sorted (concat founds)) as Hs.
    unfold JS.slice. set (l := sort_by_score (concat founds)) in *.
    generalize (Z.to_nat (if (0 <? 0)%Z
                          then Z.max (Z.of_nat (length l) + 0) 0
                          else Z.min 0 (Z.of_nat (length l)))).
    intros from.
    match goal with |- StronglySorted _ (take ?n _) => generalize n end.
    intros n. rewrite <- (take_drop from l) in Hs.
    apply StronglySorted_app_1_r in Hs.
    rewrite <- (take_drop n (drop from l)) in Hs.
    by apply StronglySorted_app_1_l in Hs.
  - intros Hlimit. apply search_spec in Hsearch as (founds & _ & ->).
    rewrite slice_nonneg by lia. rewrite length_take. lia.
  - intros r Hr.
    destruct (search_result_hit _ _ _ _ _ Hsearch Hr)
      as (entry & i & _ & [Hsc _] & _ & Hhit).
    destruct (hit_score_and_term _ _ _ _ Hhit) as [H10 _]. split; [|done].
    apply line_hit_Some in Hhit as (s & m & _ & _ & ->). cbn [sr_type].
    unfold matchesScope in Hsc.
    destruct (default docs_and_examples (scope options)); [..|done].
    + by apply bool_decide_eq_true in Hsc.
    + by apply bool_decide_eq_true in Hsc.
    + apply orb_prop in Hsc as [Hsc|Hsc]; apply bool_decide_eq_true in Hsc; tauto.
Qed.

(** ** Results as citations *)

Lemma query_terms_nonempty query term :
  term ∈ query_terms query -> term <> EmptyString.
Proof.
  unfold query_terms. intros [_ H]%list_elem_of_In%filter_In ->. done.
Qed.

Lemma includes_nonempty line term :
  JS.includes line term = true -> term <> EmptyString -> line <> EmptyString.
Proof. intros H Hne ->. destruct term; [done|]. discriminate H. Qed.

Lemma toLowerCase_empty s : JS.toLowerCase s = EmptyString -> s = EmptyString.
Proof. by destruct s. Qed.

Lemma join_nonempty ls l :
  l ∈ ls -> l <> EmptyString -> JS.join newline ls <> EmptyString.
Proof.
  induction ls as [|x ls IH]; intros Hin Hne; [by apply elem_of_nil in Hin|].
  destruct ls as [|y ls].
  - apply list_elem_of_singleton in Hin as ->. exact Hne.
  - rewrite join_cons by done. destruct x; [discriminate|discriminate].
Qed.

(** What a caller does with a result: its path and line range, handed to
    [createCitation], give a citation with the very excerpt of the result.
    The window of a result covers at most 8 lines and is never empty. *)
Theorem search_result_is_citable idx query options results r why :
  index_wf idx ->
  search idx query options = Returns results ->
  r ∈ results ->
  createCitation idx (sr_relativePath r) (lineStart r) (lineEnd r) why
  = Some {| cit_path := sr_relativePath r; cit_lineStart := lineStart r;
            cit_lineEnd := lineEnd r; cit_excerpt := excerpt r; reason := why |}
  /\ (lineEnd r - lineStart r <= 7)%Z
  /\ excerpt r <> EmptyString.
Proof.
  intros [Hnd Hwf] Hsearch Hr.
  destruct (search_result_hit _ _ _ _ _ Hsearch Hr)
    as ([k file] & i & He & _ & Hi & Hhit). simpl in *.
  destruct (hit_line_range _ _ _ _ Hi Hhit) as (Hrange & Hend & Hexc).
  destruct (hit_score_and_term _ _ _ _ Hhit) as (_ & term & Hterm & Hinc).
  assert (getFile idx (sr_relativePath r) = Some file) as Hget.
  { rewrite Forall_forall in Hwf. pose proof (Hwf _ He) as Hk. simpl in Hk.
    apply line_hit_Some in Hhit as (s & m & _ & _ & ->). simpl.
    rewrite Hk. by apply map_get_elem. }
  destruct (lookup_lt_is_Some_2 _ _ Hi) as [line Hline]. rewrite Hline in Hinc.
  simpl in Hinc.
  assert (line <> EmptyString) as Hne.
  { intros ->. eapply includes_nonempty; [exact Hinc| |done].
    by eapply query_terms_nonempty. }
  assert (excerpt r <> EmptyString) as Hexc_ne.
  { apply line_hit_Some in Hhit as (s & m & _ & _ & ->). simpl.
    apply (join_nonempty _ line); [|done].
    rewrite slice_nonneg by lia. apply list_elem_of_lookup.
    exists (i - Z.to_nat (Z.max 0 (Z.of_nat i - 2)))%nat.
    apply lookup_take_Some. split; [|lia].
    rewrite lookup_drop. rewrite <- Hline. f_equal. lia. }
  split; [|split; [|done]].
  - rewrite (createCitation_found _ _ _ _ _ _ Hget) by lia. simpl.
    rewrite line_range_clamp, <- Hexc.
    by rewrite (proj2 (String.eqb_neq _ _) Hexc_ne).
  - apply line_hit_Some in Hhit as (s & m & _ & _ & ->). simpl. lia.
Qed.

Lemma search_result_is_citable_witness :
  exists r c,
    search demo_index "title" no_options = Returns [r]
    /\ createCitation demo_index (sr_relativePath r) (lineStart r) (lineEnd r)
         (Some "found by search") = Some c
    /\ cit_excerpt c = excerpt r.
Proof.
  eexists _, _. split; [vm_compute; reflexivity|].
  match goal with
  | |- createCitation _ (sr_relativePath ?r) _ _ ?w = _ /\ _ =>
      destruct (search_result_is_citable demo_index "title" no_options [r] r w)
        as (Hc & _ & _)
  end.
  - apply demo_index_wf.
  - vm_compute; reflexivity.
  - by left.
  - split; [exact Hc|reflexivity].
Defined.

Lemma search_results_ordered_and_bounded_witness :
  exists results,
    search demo_index "title" no_options = Returns results
    /\ StronglySorted by_score_desc results
    /\ (Z.of_nat (length results) <= 8)%Z.
Proof.
  eexists. split; [vm_compute; reflexivity|].
  match goal with
  | |- StronglySorted _ ?rs /\ _ =>
      destruct (search_results_ordered_and_bounded demo_index "title" no_options rs)
        as (Hsorted & Hlen & _)
  end.
  - vm_compute; reflexivity.
  - split; [exact Hsorted|]. apply Hlen. vm_compute. discriminate.
Defined.

(** ** Completion of [initialize] and the keyword index *)

Lemma keywords_compile : forallb keyword_compiles keywords = true.
Proof. vm_compute; reflexivity. Qed.

Lemma keyword_returns keyword :
  keyword ∈ keywords -> exists r, RegExp_new (keyword_pattern keyword) = Returns r.
Proof.
  intros Hin%list_elem_of_In.
  pose proof keywords_compile as H. rewrite forallb_forall in H.
  specialize (H _ Hin). unfold keyword_compiles in H.
  destruct (RegExp_new _) as [r| |]; [by exists r|done|done].
Qed.

Lemma index_keyword_returns relPath text ki k :
  k ∈ keywords -> exists ki', index_keyword relPath text ki k = Returns ki'.
Proof.
  intros Hk. unfold index_keyword.
  destruct (keyword_returns k Hk) as [r ->]. simpl.
  destruct (RegExp.test true r text); by eexists.
Qed.

Lemma index_keywords_return relPath text ks :
  (forall k, k ∈ ks -> k ∈ keywords) ->
  forall ki, exists ki', foldM (index_keyword relPath text) ks ki = Returns ki'.
Proof.
  induction ks as [|k ks IH]; intros Hks ki; [by eexists|].
  destruct (index_keyword_returns relPath text ki k) as [ki1 Hki1];
    [apply Hks; by left|].
  cbn [foldM]. rewrite Hki1. cbn [mbind outcome_bind]. apply IH. intros k' Hk'. apply Hks. by right.
Qed.

Lemma buildKeywordIndex_returns idx :
  exists idx', buildKeywordIndex idx = Returns idx'
    /\ initialized idx' = initialized idx /\ basePath idx' = basePath idx.
Proof.
  unfold buildKeywordIndex.
  assert (forall fl ki, exists ki',
            foldM (fun ki (entry : string * IndexedFile) =>
                     foldM (index_keyword (fst entry) (content (snd entry)))
                       keywords ki) fl ki = Returns ki') as H.
  { induction fl as [|entry fl IH]; intros ki; [by eexists|].
    cbn [foldM].
    destruct (index_keywords_return (fst entry) (content (snd entry)) keywords
                ltac:(done) ki) as [ki1 ->].
    cbn [mbind outcome_bind]. apply IH. }
  destruct (H (files idx) (keywordIndex idx)) as [ki ->].
  cbn [mbind outcome_bind mret outcome_ret]. by eexists.
Qed.

Section Completion.
Variable extractMetadata : string -> Metadata.

Lemma indexEntry_fields ty entry :
  forall dirPath idx,
    basePath (indexEntry extractMetadata ty dirPath idx entry) = basePath idx
    /\ initialized (indexEntry extractMetadata ty dirPath idx entry)
       = initialized idx
    /\ keywordIndex (indexEntry extractMetadata ty dirPath idx entry)
       = keywordIndex idx.
Proof.
  induction entry as [name read|name entries IH|name] using Dirent_induction;
    intros dirPath idx; simpl; [| |done].
  - destruct (accepted_name name); [|done]. by destruct read.
  - generalize (Path.join dirPath name). intros dir. revert idx.
    induction IH as [|entry entries He _ IHs]; intros idx; simpl; [done|].
    destruct (IHs (indexEntry extractMetadata ty dir idx entry)) as (-> & -> & ->).
    apply He.
Qed.

Lemma indexDirectory_outcome fs idx dirPath ty :
  (fs dirPath = NotADirectory
   /\ indexDirectory extractMetadata fs idx dirPath ty = Throws)
  \/ (fs dirPath <> NotADirectory
      /\ exists idx',
           indexDirectory extractMetadata fs idx dirPath ty = Returns idx'
           /\ basePath idx' = basePath idx
           /\ initialized idx' = initialized idx
           /\ keywordIndex idx' = keywordIndex idx).
Proof.
  unfold indexDirectory. destruct (fs dirPath) as [| |entries].
  - right. split; [done|]. by exists idx.
  - by left.
  - right. split; [done|]. eexists. split; [done|].
    revert idx. induction entries as [|entry entries IH]; intros idx; simpl; [done|].
    destruct (IH (indexEntry extractMetadata ty dirPath idx entry)) as (-> & -> & ->).
    apply indexEntry_fields.
Qed.

End Completion.



(** ** What the keyword index records *)

Lemma index_keyword_spec relPath text ki k ki' :
  index_keyword relPath text ki k = Returns ki' ->
  forall key p,
    p ∈ default ∅ (ki' !! key)
    <-> p ∈ default ∅ (ki !! key)
        \/ (p = relPath /\ key = JS.toLowerCase k /\ keyword_found k text = true).
Proof.
  unfold index_keyword, keyword_found.
  destruct (RegExp_new (keyword_pattern k)) as [r| |]; simpl; [|done|done].
  destruct (RegExp.test true r text).
  - intros [= <-] key p.
    assert (default ∅ (match ki !! JS.toLowerCase k with
                       | Some _ => ki
                       | None => <[JS.toLowerCase k:=∅]> ki
                       end !! JS.toLowerCase k)
            = default (∅ : gset string) (ki !! JS.toLowerCase k)) as ->.
    { destruct (ki !! JS.toLowerCase k) eqn:E; [by rewrite E|].
      by rewrite lookup_insert_eq. }
    destruct (decide (key = JS.toLowerCase k)) as [->|Hne].
    + rewrite lookup_insert_eq. simpl. set_solver.
    + rewrite lookup_insert_ne by done.
      assert (match ki !! JS.toLowerCase k with
              | Some _ => ki
              | None => <[JS.toLowerCase k:=∅]> ki
              end !! key = ki !! key) as ->.
      { destruct (ki !! JS.toLowerCase k); [done|]. by rewrite lookup_insert_ne. }
      set_solver.
  - intros [= <-] key p. set_solver.
Qed.

Lemma index_keywords_spec relPath text ks :
  forall ki ki',
    foldM (index_keyword relPath text) ks ki = Returns ki' ->
    forall key p,
      p ∈ default ∅ (ki' !! key)
      <-> p ∈ default ∅ (ki !! key)
          \/ (p = relPath
              /\ exists k, k ∈ ks /\ key = JS.toLowerCase k
                           /\ keyword_found k text = true).
Proof.
  induction ks as [|k ks IH]; intros ki ki'.
  - intros [= <-] key p. split; [by left|]. intros [H|(_ & k & Hk & _)]; [done|].
    by apply elem_of_nil in Hk.
  - cbn [foldM]. intros (ki1 & H1 & Hrest)%bind_Returns key p.
    rewrite (IH _ _ Hrest key p), (index_keyword_spec _ _ _ _ _ H1 key p).
    split.
    + intros [[H|(-> & -> & Hf)]|(-> & k' & Hk' & -> & Hf)]; [by left|right..].
      * split; [done|]. exists k. split; [by left|done].
      * split; [done|]. exists k'. split; [by right|done].
    + intros [H|(-> & k' & [->|Hk']%elem_of_cons & -> & Hf)].
      * by left; left.
      * by left; right.
      * right. split; [done|]. by exists k'.
Qed.

Lemma index_files_spec fl :
  forall ki ki',
    foldM (fun ki (entry : string * IndexedFile) =>
             foldM (index_keyword (fst entry) (content (snd entry))) keywords ki)
          fl ki = Returns ki' ->
    forall key p,
      p ∈ default ∅ (ki' !! key)
      <-> p ∈ default ∅ (ki !! key)
          \/ exists entry k,
               entry ∈ fl /\ p = fst entry /\ k ∈ keywords
               /\ key = JS.toLowerCase k
               /\ keyword_found k (content (snd entry)) = true.
Proof.
  induction fl as [|entry fl IH]; intros ki ki'.
  - intros [= <-] key p. split; [by left|].
    intros [H|(e & _ & He & _)]; [done|]. by apply elem_of_nil in He.
  - cbn [foldM]. intros (ki1 & H1 & Hrest)%bind_Returns key p.
    rewrite (IH _ _ Hrest key p), (index_keywords_spec _ _ _ _ _ H1 key p).
    split.
    + intros [[H|(-> & k & Hk & -> & Hf)]|(e & k & He & -> & Hk & -> & Hf)];
        [by left|right..].
      * exists entry, k. split; [by left|done].
      * exists e, k. split; [by right|done].
    + intros [H|(e & k & [->|He]%elem_of_cons & -> & Hk & -> & Hf)].
      * by left; left.
      * left; right. split; [done|]. by exists k.
      * right. by exists e, k.
Qed.

Section KeywordIndex.
Variable extractMetadata : string -> Metadata.

Lemma ingest_all_keywordIndex evs idx :
  keywordIndex (fold_left (ingest extractMetadata) evs idx) = keywordIndex idx.
Proof.
  revert idx. induction evs as [|[[p read] ty] evs IH]; intros idx; simpl; [done|].
  rewrite IH. unfold ingest, indexFile. simpl. by destruct read.
Qed.

Lemma initialize_keywordIndex fs base idx :
  initialize extractMetadata fs (new_index base) = Returns idx ->
  foldM (fun ki (entry : string * IndexedFile) =>
           foldM (index_keyword (fst entry) (content (snd entry))) keywords ki)
        (files idx) ∅ = Returns (keywordIndex idx).
Proof.
  unfold initialize. cbn [initialized new_index basePath]. intros H.
  apply bind_Returns in H as (idx1 & H1 & H).
  apply bind_Returns in H as (idx2 & H2 & H).
  apply bind_Returns in H as (idx3 & H3 & H).
  apply bind_Returns in H as (idx4 & H4 & H).
  change (Returns (set_initialized idx4) = Returns idx) in H.
  injection H as <-. cbn [set_initialized files keywordIndex].
  apply indexDirectory_ingestions in H1, H2, H3.
  assert (keywordIndex idx3 = ∅) as Hki.
  { subst. by rewrite !ingest_all_keywordIndex. }
  unfold buildKeywordIndex in H4. rewrite Hki in H4.
  apply bind_Returns in H4 as (ki & Hfold & H4).
  inversion H4; subst idx4. cbn [files keywordIndex]. exact Hfold.
Qed.

End KeywordIndex.

(** After [initialize] on a fresh index, [getFilesWithKeyword] answers with
    exactly the stored files in whose content one of the listed keywords
    that agree with the asked one up to letter case is found, by the
    word-boundary pattern made of it and without regard to case. *)
Theorem getFilesWithKeyword_after_initialize extractMetadata fs base idx :
  initialize extractMetadata fs (new_index base) = Returns idx ->
  forall keyword f,
    f ∈ getFilesWithKeyword idx keyword
    <-> exists k,
          k ∈ keywords
          /\ JS.toLowerCase k = JS.toLowerCase keyword
          /\ f ∈ getAllFiles idx
          /\ keyword_found k (content f) = true.
Proof.
  intros Hinit keyword f.
  pose proof (initialize_stored _ _ _ _ Hinit) as [[Hnd _] _].
  pose proof (index_files_spec _ _ _ (initialize_keywordIndex _ _ _ _ Hinit)
                (JS.toLowerCase keyword)) as Hspec.
  unfold getFilesWithKeyword, getAllFiles.
  assert (f ∈ match keywordIndex idx !! JS.toLowerCase keyword with
              | Some paths => omap (fun p => map_get p (files idx)) (elements paths)
              | None => []
              end
          <-> exists p, p ∈ default ∅ (keywordIndex idx !! JS.toLowerCase keyword)
                        /\ map_get p (files idx) = Some f) as ->.
  { destruct (keywordIndex idx !! JS.toLowerCase keyword) as [paths|]; simpl.
    - rewrite list_elem_of_omap. split.
      + intros (p & Hp%elem_of_elements & Hget). by exists p.
      + intros (p & Hp & Hget). exists p. by rewrite elem_of_elements.
    - split; [by intros ?%elem_of_nil|]. intros (p & Hp & _). set_solver. }
  split.
  - intros (p & Hp & Hget). apply Hspec in Hp as [Hp|(e & k & He & -> & Hk & Hkey & Hf)];
      [set_solver|].
    rewrite (map_get_elem _ _ (snd e) Hnd) in Hget by by destruct e.
    injection Hget as <-. exists k. split; [done|]. split; [done|].
    split; [|done]. apply elem_of_map. by exists e.
  - intros (k & Hk & Hkey & (e & -> & He)%elem_of_map & Hf).
    exists (fst e). split.
    + apply Hspec. right. by exists e, k.
    + apply map_get_elem; [done|]. by destruct e.
Qed.

Lemma getFilesWithKeyword_after_initialize_witness :
  exists f,
    getFile demo_initialized
      "docassemble_base/docassemble/base/data/questions/examples/sub/b.md" = Some f
    /\ f ∈ getFilesWithKeyword demo_initialized "CODE".
Proof.
  eexists. split; [vm_compute; reflexivity|].
  apply (getFilesWithKeyword_after_initialize no_metadata demo_fs "/repo"
           demo_initialized demo_initialize_returns).
  exists "code". split; [|split; [|split]].
  - apply (bool_decide_unpack _). vm_compute. exact I.
  - vm_compute; reflexivity.
  - apply list_elem_of_In. vm_compute.
    repeat first [left; reflexivity | right].
  - vm_compute; reflexivity.
Defined.

(** ** The snippet tool *)

Lemma collect_snippets_inv idx topic dc (P : Snippet -> Prop) results :
  (forall r, r ∈ results -> P (snippet_of idx topic r)) ->
  forall seen acc seen' acc',
    collect_snippets idx topic dc results seen acc = (seen', acc') ->
    NoDup (map sn_path acc) ->
    (forall s, s ∈ acc -> sn_path s ∈ seen) ->
    Forall P acc ->
    NoDup (map sn_path acc')
    /\ (forall s, s ∈ acc' -> sn_path s ∈ seen')
    /\ Forall P acc'.
Proof.
  induction results as [|r results IH]; intros HP seen acc seen' acc'.
  - intros [= <- <-]. done.
  - cbn [collect_snippets].
    assert (forall r', r' ∈ results -> P (snippet_of idx topic r')) as HP'
      by (intros r' Hr'; apply HP; by right).
    destruct (decide (sr_relativePath r ∈ seen)) as [Hseen|Hnew];
      [by apply IH|].
    intros Hc Hnd Hin HF.
    assert (NoDup (map sn_path (acc ++ [snippet_of idx topic r]))) as Hnd'.
    { rewrite map_app. apply NoDup_app. split; [done|]. split.
      - intros p (s & -> & Hs)%elem_of_map [Heq|[]%elem_of_nil]%elem_of_cons.
        apply Hnew. change (sr_relativePath r) with (sn_path (snippet_of idx topic r)).
        rewrite <- Heq. by apply Hin.
      - apply NoDup_singleton. }
    assert (forall s, s ∈ (acc ++ [snippet_of idx topic r])%list ->
                      sn_path s ∈ {[sr_relativePath r]} ∪ seen) as Hin'.
    { intros s [Hs|[->|[]%elem_of_nil]%elem_of_cons]%elem_of_app.
      - apply elem_of_union_r. by apply Hin.
      - apply elem_of_union_l. by apply elem_of_singleton. }
    assert (Forall P (acc ++ [snippet_of idx topic r])) as HF'.
    { apply Forall_app. split; [done|]. constructor; [|constructor].
      apply HP. by left. }
    destruct (dc <=? Z.of_nat (length (acc ++ [snippet_of idx topic r])))%Z.
    + by injection Hc as <- <-.
    + by eapply IH.
Qed.

Lemma collect_snippets_length idx topic dc results :
  forall seen acc seen' acc',
    collect_snippets idx topic dc results seen acc = (seen', acc') ->
    (Z.of_nat (length acc) < dc)%Z \/ acc = [] ->
    (Z.of_nat (length acc') <= Z.max 1 dc)%Z.
Proof.
  induction results as [|r results IH]; intros seen acc seen' acc'.
  - intros [= <- <-] [H| ->]; simpl; lia.
  - cbn [collect_snippets].
    destruct (decide (sr_relativePath r ∈ seen)) as [Hseen|Hnew];
      [by apply IH|].
    destruct (Z.leb_spec dc (Z.of_nat (length (acc ++ [snippet_of idx topic r]))))
      as [Hfull|Hmore].
    + intros [= <- <-] [H| ->]; rewrite length_app; simpl; [|lia].
      rewrite length_app in Hfull. simpl in Hfull. lia.
    + intros Hc _. eapply IH; [exact Hc|]. by left.
Qed.

Lemma snippet_rounds_inv idx topic dc (P : Snippet -> Prop) terms :
  (forall term results r,
     term ∈ terms -> search idx term (snippet_options dc) = Returns results ->
     r ∈ results -> P (snippet_of idx topic r)) ->
  forall seen acc found,
    snippet_rounds idx topic dc terms seen acc = Returns found ->
    NoDup (map sn_path acc) ->
    (forall s, s ∈ acc -> sn_path s ∈ seen) ->
    Forall P acc ->
    (Z.of_nat (length acc) < dc)%Z \/ acc = [] ->
    NoDup (map sn_path found)
    /\ (Z.of_nat (length found) <= Z.max 1 dc)%Z
    /\ Forall P found.
Proof.
  induction terms as [|term terms IH]; intros HP seen acc found.
  - intros [= <-] Hnd _ HF [H| ->]; (split; [done|]); (split; [simpl; lia|done]).
  - cbn [snippet_rounds]. intros (results & Hs & Hrest)%bind_Returns Hnd Hin HF Hlen.
    destruct (collect_snippets idx topic dc results seen acc) as [seen' acc'] eqn:Hc.
    destruct (collect_snippets_inv idx topic dc P results
                ltac:(intros r Hr; eapply HP; [by left|exact Hs|exact Hr])
                _ _ _ _ Hc Hnd Hin HF) as (Hnd' & Hin' & HF').
    pose proof (collect_snippets_length _ _ _ _ _ _ _ _ Hc Hlen) as Hlen'.
    destruct (Z.leb_spec dc (Z.of_nat (length acc'))) as [Hfull|Hmore].
    + by injection Hrest as <-.
    + eapply IH; [|exact Hrest|done..|by left].
      intros t rs r Ht. apply HP. by right.
Qed.

(** The snippets that [getAuthoritativeSnippets] returns come from pairwise
    different files; there are at most [desiredCount] of them (at most one
    when [desiredCount] is below 1); and each is made of a result of the
    search for one of the three search terms, with the limit of twice
    [desiredCount] and the scope of documents and examples. *)
Theorem getAuthoritativeSnippets_distinct_files idx topic desiredCount out :
  getAuthoritativeSnippets idx topic desiredCount = Returns out ->
  NoDup (map sn_path (snippets out))
  /\ (Z.of_nat (length (snippets out)) <= Z.max 1 desiredCount)%Z
  /\ forall s, s ∈ snippets out ->
       exists term results r,
         term ∈ searchTerms topic
         /\ search idx term (snippet_options desiredCount) = Returns results
         /\ r ∈ results
         /\ s = snippet_of idx topic r.
Proof.
  unfold getAuthoritativeSnippets. intros (found & Hrounds & Hout)%bind_Returns.
  injection Hout as <-. cbn [snippets].
  destruct (snippet_rounds_inv idx topic desiredCount
              (fun s => exists term results r,
                 term ∈ searchTerms topic
                 /\ search idx term (snippet_options desiredCount) = Returns results
                 /\ r ∈ results
                 /\ s = snippet_of idx topic r)
              (searchTerms topic)
              ltac:(intros term results r ? ? ?; by exists term, results, r)
              ∅ [] found Hrounds)
    as (Hnd & Hlen & HF).
  - constructor.
  - by intros s ?%elem_of_nil.
  - constructor.
  - by right.
  - split; [done|]. split; [done|]. by apply Forall_forall.
Qed.

Lemma getAuthoritativeSnippets_distinct_files_witness :
  exists out,
    getAuthoritativeSnippets two_files_index "question" 2 = Returns out
    /\ map sn_path (snippets out) = ["one.yml"; "two.yml"]
    /\ NoDup (map sn_path (snippets out)).
Proof.
  eexists. split; [vm_compute; reflexivity|]. split; [reflexivity|].
  eapply (getAuthoritativeSnippets_distinct_files two_files_index "question" 2).
  vm_compute; reflexivity.
Defined.

(** ** Globs in order *)

(** [matchesGlobs] stops at the first glob whose pattern matches: when the
    globs before it compile and do not match, the answer is true whatever
    comes after it, even a glob whose pattern cannot be compiled. *)
Theorem matchesGlobs_first_match relPath before glob r after :
  Forall (fun g => exists r', RegExp_new (glob_pattern g) = Returns r'
                              /\ RegExp.test false r' relPath = false) before ->
  RegExp_new (glob_pattern glob) = Returns r ->
  RegExp.test false r relPath = true ->
  matchesGlobs relPath (before ++ glob :: after) = Returns true.
Proof.
  intros Hbefore Hr Ht.
  induction Hbefore as [|g before (r' & Hr' & Ht') _ IH]; cbn [app matchesGlobs].
  - rewrite Hr. cbn [mbind outcome_bind]. by rewrite Ht.
  - rewrite Hr'. cbn [mbind outcome_bind]. by rewrite Ht'.
Qed.

Lemma matchesGlobs_first_match_witness :
  matchesGlobs "examples/a.yml" ["*.md"; "*.yml"; "("] = Returns true
  /\ matchesGlobs "examples/a.yml" ["("; "*.yml"] = Throws.
Proof.
  split; [|vm_compute; reflexivity].
  eapply (matchesGlobs_first_match "examples/a.yml" ["*.md"] "*.yml" _ ["("]).
  - constructor; [|constructor]. eexists. split; vm_compute; reflexivity.
  - vm_compute; reflexivity.
  - vm_compute; reflexivity.
Defined.

(** ** Scores of plain terms on an example *)


(** ** The keyword reference *)

Lemma toLowerCase_nonempty s : s <> EmptyString -> JS.toLowerCase s <> EmptyString.
Proof. intros Hs Hl. by apply Hs, toLowerCase_empty. Qed.

(** The citation for a line that contains the keyword is never refused. *)
Lemma keyword_citation_at_found idx file keyword i line :
  index_wf idx -> (relativePath file, file) ∈ files idx ->
  keyword <> EmptyString ->
  lines file !! i = Some line ->
  JS.includes (JS.toLowerCase line) (JS.toLowerCase keyword) = true ->
  line ∈ line_range (lines file) (Z.of_nat i - 1) (Z.of_nat i + 4)
  /\ keyword_citation_at idx file keyword i
     = Some {| cit_path := relativePath file;
               cit_lineStart := Z.max 1 (Z.of_nat i - 1);
               cit_lineEnd := Z.min (Z.of_nat (length (lines file))) (Z.of_nat i + 4);
               cit_excerpt :=
                 JS.join newline
                   (line_range (lines file) (Z.of_nat i - 1) (Z.of_nat i + 4));
               reason := Some ("Example usage of " +:+ keyword) |}.
Proof.
  intros [Hnd _] Hfile Hkw Hline Hinc.
  pose proof (lookup_lt_Some _ _ _ Hline) as Hi.
  assert (line ∈ line_range (lines file) (Z.of_nat i - 1) (Z.of_nat i + 4)) as Hin.
  { rewrite line_range_take_drop. apply list_elem_of_lookup.
    exists (i - Z.to_nat (Z.of_nat i - 1 - 1))%nat.
    apply lookup_take_Some. split; [|lia].
    rewrite lookup_drop, <- Hline. f_equal. lia. }
  split; [done|].
  assert (line <> EmptyString) as Hne.
  { intros ->. eapply includes_nonempty; [exact Hinc| |done].
    by apply toLowerCase_nonempty. }
  unfold keyword_citation_at.
  rewrite (createCitation_found _ _ _ _ _ file (map_get_elem _ _ _ Hnd Hfile)) by lia.
  cbn zeta. rewrite line_range_clamp, line_range_clamp.
  by rewrite (proj2 (String.eqb_neq _ _) (join_nonempty _ _ Hin Hne)).
Qed.

Lemma first_citation_spec idx file keyword :
  index_wf idx -> (relativePath file, file) ∈ files idx ->
  keyword <> EmptyString ->
  forall ls before,
    lines file = (before ++ ls)%list ->
    match first_citation idx file keyword ls (length before) with
    | Some c =>
        exists k line,
          ls !! k = Some line
          /\ JS.includes (JS.toLowerCase line) (JS.toLowerCase keyword) = true
          /\ (forall j l, (j < k)%nat -> ls !! j = Some l ->
                JS.includes (JS.toLowerCase l) (JS.toLowerCase keyword) = false)
          /\ keyword_citation_at idx file keyword (length before + k) = Some c
    | None =>
        forall l, l ∈ ls ->
          JS.includes (JS.toLowerCase l) (JS.toLowerCase keyword) = false
    end.
Proof.
  intros Hwf Hfile Hkw. induction ls as [|line ls IH]; intros before Hsplit.
  - cbn [first_citation]. by intros l ?%elem_of_nil.
  - cbn [first_citation].
    specialize (IH (before ++ [line])%list).
    rewrite <- app_assoc, length_app in IH. cbn [app length] in IH.
    specialize (IH Hsplit). rewrite Nat.add_1_r in IH.
    destruct (JS.includes (JS.toLowerCase line) (JS.toLowerCase keyword)) eqn:Hinc.
    + destruct (keyword_citation_at_found idx file keyword (length before) line
                  Hwf Hfile Hkw) as [_ ->]; [|done|].
      { rewrite Hsplit. by apply list_lookup_middle. }
      exists 0%nat, line. split; [done|]. split; [done|]. split; [lia|].
      rewrite Nat.add_0_r.
      apply (keyword_citation_at_found idx file keyword (length before) line);
        [done..| |done].
      rewrite Hsplit. by apply list_lookup_middle.
    + destruct (first_citation idx file keyword ls (S (length before))) as [c|].
      * destruct IH as (k & l & Hl & Hl_inc & Hfirst & Hc).
        exists (S k), l. split; [done|]. split; [done|]. split.
        -- intros [|j] l' Hj Hl'; [by injection Hl' as <-|].
           apply (Hfirst j); [lia|done].
        -- by rewrite Nat.add_succ_r.
      * intros l [->|Hl]%elem_of_cons; [done|by apply IH].
Qed.

(** For a file of a well-formed table and a keyword that is not empty, the
    keyword reference finds a citation exactly when some line of the file
    contains the keyword, letter case apart: it cites the window around the
    first such line, from two lines before it to three lines after it, cut to
    the file, and that window holds the line. *)
Theorem keyword_citation_first_line idx file keyword :
  index_wf idx -> (relativePath file, file) ∈ files idx ->
  keyword <> EmptyString ->
  match keyword_citation idx file keyword with
  | Some c =>
      exists i line,
        lines file !! i = Some line
        /\ JS.includes (JS.toLowerCase line) (JS.toLowerCase keyword) = true
        /\ (forall j l, (j < i)%nat -> lines file !! j = Some l ->
              JS.includes (JS.toLowerCase l) (JS.toLowerCase keyword) = false)
        /\ line ∈ line_range (lines file) (Z.of_nat i - 1) (Z.of_nat i + 4)
        /\ c = {| cit_path := relativePath file;
                  cit_lineStart := Z.max 1 (Z.of_nat i - 1);
                  cit_lineEnd :=
                    Z.min (Z.of_nat (length (lines file))) (Z.of_nat i + 4);
                  cit_excerpt :=
                    JS.join newline
                      (line_range (lines file) (Z.of_nat i - 1) (Z.of_nat i + 4));
                  reason := Some ("Example usage of " +:+ keyword) |}
  | None =>
      forall l, l ∈ lines file ->
        JS.includes (JS.toLowerCase l) (JS.toLowerCase keyword) = false
  end.
Proof.
  intros Hwf Hfile Hkw. unfold keyword_citation.
  pose proof (first_citation_spec idx file keyword Hwf Hfile Hkw (lines file) []
                eq_refl) as H.
  cbn [length] in H.
  destruct (first_citation idx file keyword (lines file) 0) as [c|]; [|done].
  destruct H as (i & line & Hline & Hinc & Hfirst & Hc).
  exists i, line. split; [done|]. split; [done|]. split; [done|].
  destruct (keyword_citation_at_found idx file keyword i line Hwf Hfile Hkw Hline Hinc)
    as [Hin Hc'].
  split; [done|]. rewrite Nat.add_0_l in Hc. congruence.
Qed.

Lemma keyword_citation_first_line_witness :
  exists c,
    keyword_citation demo_index a_yml "Question" = Some c
    /\ (cit_lineStart c, cit_lineEnd c) = (1, 4)%Z.
Proof.
  pose proof (keyword_citation_first_line demo_index a_yml "Question"
                demo_index_wf ltac:(by left) ltac:(done)) as H.
  destruct (keyword_citation demo_index a_yml "Question") as [c|] eqn:Hc.
  - exists c. split; [done|]. vm_compute in Hc. by injection Hc as <-.
  - exfalso. specialize (H "question: |" ltac:(vm_compute; by do 2 right; left)).
    vm_compute in H. discriminate H.
Defined.
